(** * miniPy: the lexer wrapper, the parser, the scope checker and the
    AST-walking interpreter, embedded from the Python sources.

  Conventions of the embedding.
  - A Python [dict] with string keys is a [gmap string _]; a dict used
    as a set of names is a [gset string].
  - A Python list used as a stack ([env_stack], [scopes]) is a Rocq
    list kept with its top FIRST: Python's [stack[-1]] is the head,
    [append] is a cons, [pop()] drops the head, and [reversed(stack)]
    walks the list from the head.
  - A Python [int] is a [Z]; a Python [float] is a binary64 primitive
    float; a Python [str] is a [string] (its UTF-8 bytes: equality,
    concatenation, repetition, emptiness and lexicographic order agree
    with the code-point ones).
  - Exceptions are results: every evaluator returns [Normal], [Raised]
    (with the state at the raise, since the stack is mutated in place)
    or [OutOfFuel] (the fuel bounds the recursion of the embedding
    only; it is no resource of the program). *)

From Stdlib Require Import ZArith Bool Lia.
From Stdlib Require Import Strings.Ascii Strings.String.
From Stdlib Require Import Floats.PrimFloat Floats.SpecFloat Floats.FloatOps.
From Stdlib Require Import Arith.Factorial.
From stdpp Require Import gmap strings list.

Set Warnings "-register-all".

Open Scope string_scope.

(** ** ast_nodes.py *)

Module Ast.

(** [NumberNode.value]: the parser stores [int(text)] or [float(text)]. *)
Inductive number :=
| NInt (z : Z)
| NFloat (f : float).

(** The dataclasses of ast_nodes.py. Every node carries the two
    fields of [Node], [lineno] and [col] (both [Optional[int]]).
    Fields typed [List] are lists ([None] is read as the empty list
    by every consumer, through [x or []]). *)
Inductive node :=
| NumberNode (lineno col : option nat) (value : number)
| StringNode (lineno col : option nat) (value : string)
| IdentifierNode (lineno col : option nat) (name : string)
| BinaryOpNode (lineno col : option nat)
    (left : node) (operator : string) (right : node)
| AssignmentNode (lineno col : option nat) (name : string) (value : node)
| IfNode (lineno col : option nat) (condition : node)
    (then_body : list node) (elifs : list (node * list node))
    (else_body : option (list node))
| WhileNode (lineno col : option nat) (condition : node) (body : list node)
| FunctionDefNode (lineno col : option nat)
    (name : string) (params : list string) (body : list node)
| ReturnNode (lineno col : option nat) (value : option node)
| CallNode (lineno col : option nat) (func : node) (args : list node).

(** [Program]: the root, never a child of another node. *)
Record Program := { body : list node }.

Definition lineno_of (n : node) : option nat :=
  match n with
  | NumberNode l _ _ | StringNode l _ _ | IdentifierNode l _ _
  | BinaryOpNode l _ _ _ _ | AssignmentNode l _ _ _
  | IfNode l _ _ _ _ _ | WhileNode l _ _ _
  | FunctionDefNode l _ _ _ _ | ReturnNode l _ _ | CallNode l _ _ _ => l
  end.

Definition col_of (n : node) : option nat :=
  match n with
  | NumberNode _ c _ | StringNode _ c _ | IdentifierNode _ c _
  | BinaryOpNode _ c _ _ _ | AssignmentNode _ c _ _
  | IfNode _ c _ _ _ _ | WhileNode _ c _ _
  | FunctionDefNode _ c _ _ _ | ReturnNode _ c _ | CallNode _ c _ _ => c
  end.

End Ast.

Import Ast.

(** ** The host: Python values and the operators the interpreter applies *)

Module Host.

(** The objects a miniPy program can hold: the host's [int], [float],
    [bool], [str] and [None], the builtin [print], and the
    interpreter's [FunctionValue] (params, body, env). A
    [FunctionValue] has no [__eq__]: the host compares it by identity,
    which [fid] stands for (allocated by the interpreter state). *)
Inductive value :=
| VInt (z : Z)
| VFloat (f : float)
| VBool (b : bool)
| VStr (s : string)
| VNone
| VBuiltinPrint
| FunctionValue (fid : nat) (params : list string) (body : list node)
    (env : gmap string value).

(** What the host raises from an operator. *)
Inductive host_error :=
| TypeError
| ZeroDivisionError
| OverflowError.

Definition host_result (A : Type) : Type := A + host_error.

(** [m * 2^e] rounded to the nearest binary64, ties to even. *)
Definition round_to_float (m e : Z) (szero : bool) : float :=
  SF2Prim (binary_normalize prec emax m e szero).

(** [float(z)] for an int: OverflowError when out of range. *)
Definition int_to_float (z : Z) : host_result float :=
  let f := round_to_float z 0 false in
  if is_infinity f then inr OverflowError else inl f.

(** [a / b] on two ints (true division, correctly rounded): the
    quotient is computed with a sticky bit far below the rounding
    position. *)
Definition int_true_divide (a b : Z) : host_result float :=
  if (b =? 0)%Z then inr ZeroDivisionError
  else
    let negate := xorb (a <? 0)%Z (b <? 0)%Z in
    if (a =? 0)%Z then inl (if negate then neg_zero else zero)
    else
      let a' := Z.abs a in
      let b' := Z.abs b in
      let k := Z.max 0 (64 + Z.log2 b' - Z.log2 a') in
      let q := ((a' * 2 ^ k) / b')%Z in
      let r := ((a' * 2 ^ k) mod b')%Z in
      let m := (2 * q + (if (r =? 0)%Z then 0 else 1))%Z in
      let f := round_to_float (if negate then - m else m) (- k - 1) negate in
      if is_infinity f then inr OverflowError else inl f.

(** Numbers: [bool] is a subclass of [int]. *)
Inductive num :=
| NumInt (z : Z)
| NumFloat (f : float).

Definition as_num (v : value) : option num :=
  match v with
  | VInt z => Some (NumInt z)
  | VBool b => Some (NumInt (if b then 1 else 0))
  | VFloat f => Some (NumFloat f)
  | _ => None
  end.

Definition as_int (v : value) : option Z :=
  match v with
  | VInt z => Some z
  | VBool b => Some (if b then 1 else 0)%Z
  | _ => None
  end.

Definition num_to_float (n : num) : host_result float :=
  match n with
  | NumInt z => int_to_float z
  | NumFloat f => inl f
  end.

(** An arithmetic operator on two numbers: exact on ints, on floats
    after converting an int operand. *)
Definition num_arith (fi : Z -> Z -> Z) (ff : float -> float -> float)
    (a b : num) : host_result value :=
  match a, b with
  | NumInt x, NumInt y => inl (VInt (fi x y))
  | _, _ =>
      match num_to_float a with
      | inr e => inr e
      | inl x =>
          match num_to_float b with
          | inr e => inr e
          | inl y => inl (VFloat (ff x y))
          end
      end
  end.

(** [s * n] on a str: empty for [n <= 0]. *)
Fixpoint repeat_string (n : nat) (s : string) : string :=
  match n with
  | O => ""
  | S n' => s ++ repeat_string n' s
  end.

(** [l + r] *)
Definition py_add (l r : value) : host_result value :=
  match as_num l, as_num r with
  | Some a, Some b => num_arith Z.add PrimFloat.add a b
  | _, _ =>
      match l, r with
      | VStr s, VStr t => inl (VStr (s ++ t))
      | _, _ => inr TypeError
      end
  end.

(** [l - r] *)
Definition py_sub (l r : value) : host_result value :=
  match as_num l, as_num r with
  | Some a, Some b => num_arith Z.sub PrimFloat.sub a b
  | _, _ => inr TypeError
  end.

(** [l * r] *)
Definition py_mul (l r : value) : host_result value :=
  match as_num l, as_num r with
  | Some a, Some b => num_arith Z.mul PrimFloat.mul a b
  | _, _ =>
      match l, as_int r, as_int l, r with
      | VStr s, Some n, _, _ => inl (VStr (repeat_string (Z.to_nat n) s))
      | _, _, Some n, VStr s => inl (VStr (repeat_string (Z.to_nat n) s))
      | _, _, _, _ => inr TypeError
      end
  end.

(** [l / r]: operands that are not numbers are a TypeError; two ints
    divide exactly-rounded; otherwise both are converted to float
    (OverflowError for an int out of range) and a zero divisor is a
    ZeroDivisionError. *)
Definition py_truediv (l r : value) : host_result value :=
  match as_num l, as_num r with
  | Some (NumInt a), Some (NumInt b) =>
      match int_true_divide a b with
      | inl f => inl (VFloat f)
      | inr e => inr e
      end
  | Some a, Some b =>
      match num_to_float a with
      | inr e => inr e
      | inl x =>
          match num_to_float b with
          | inr e => inr e
          | inl y =>
              if is_zero y then inr ZeroDivisionError
              else inl (VFloat (x / y)%float)
          end
      end
  | _, _ => inr TypeError
  end.

(** The exact order between an int and a float; [None] for a NaN. *)
Definition compare_int_float (z : Z) (f : float) : option comparison :=
  match Prim2SF f with
  | S754_nan => None
  | S754_infinity s => Some (if s then Gt else Lt)
  | S754_zero _ => Some (z ?= 0)%Z
  | S754_finite s m e =>
      let v := if s then Z.neg m else Z.pos m in
      Some (if (0 <=? e)%Z then (z ?= v * 2 ^ e)%Z
            else (z * 2 ^ (- e) ?= v)%Z)
  end.

Definition compare_floats (x y : float) : option comparison :=
  if (x =? y)%float then Some Eq
  else if (x <? y)%float then Some Lt
  else if (y <? x)%float then Some Gt
  else None.

Definition compare_nums (a b : num) : option comparison :=
  match a, b with
  | NumInt x, NumInt y => Some (x ?= y)%Z
  | NumFloat x, NumFloat y => compare_floats x y
  | NumInt x, NumFloat y => compare_int_float x y
  | NumFloat x, NumInt y => option_map CompOpp (compare_int_float y x)
  end.

(** [l == r]: numbers by value, strings by content, everything else
    by identity; never an error. *)
Definition py_eq (l r : value) : bool :=
  match as_num l, as_num r with
  | Some a, Some b =>
      match compare_nums a b with Some Eq => true | _ => false end
  | _, _ =>
      match l, r with
      | VStr s, VStr t => String.eqb s t
      | VNone, VNone => true
      | VBuiltinPrint, VBuiltinPrint => true
      | FunctionValue i _ _ _, FunctionValue j _ _ _ => Nat.eqb i j
      | _, _ => false
      end
  end.

(** [l < r], [l <= r], [l > r], [l >= r]: on two numbers or two
    strings; [test] reads the comparison ([None]: unordered, a NaN). *)
Definition py_order (test : option comparison -> bool) (l r : value)
    : host_result value :=
  match as_num l, as_num r with
  | Some a, Some b => inl (VBool (test (compare_nums a b)))
  | _, _ =>
      match l, r with
      | VStr s, VStr t => inl (VBool (test (Some (String.compare s t))))
      | _, _ => inr TypeError
      end
  end.

Definition is_lt (c : option comparison) : bool :=
  match c with Some Lt => true | _ => false end.
Definition is_le (c : option comparison) : bool :=
  match c with Some Lt | Some Eq => true | _ => false end.
Definition is_gt (c : option comparison) : bool :=
  match c with Some Gt => true | _ => false end.
Definition is_ge (c : option comparison) : bool :=
  match c with Some Gt | Some Eq => true | _ => false end.

(** [bool(v)], as [if v:] and [while v:] read it. *)
Definition truthy (v : value) : bool :=
  match v with
  | VInt z => negb (z =? 0)%Z
  | VFloat f => negb (is_zero f)
  | VBool b => b
  | VStr s => negb (String.eqb s "")
  | VNone => false
  | VBuiltinPrint => true
  | FunctionValue _ _ _ _ => true
  end.

(** A right operand "evaluates to zero": [0], [0.0], [-0.0], [False]. *)
Definition is_zero_value (v : value) : bool :=
  match as_num v with
  | Some (NumInt z) => (z =? 0)%Z
  | Some (NumFloat f) => is_zero f
  | None => false
  end.

End Host.

Import Host.

(** ** interpreter.py *)

Module Interpreter.

(** [NameError]'s two messages: "Name 'x' not found (line n)" from
    [eval_IdentifierNode] and "Function 'f' not found (line n)" from
    [eval_CallNode]. *)
Inductive name_error :=
| NameNotFound (name : string) (lineno : option nat)
| FunctionNotFound (name : string) (lineno : option nat).

(** The exceptions that leave an evaluator. [ReturnException] is the
    interpreter's own class; the others are the host's. [IndexError]
    is what [env_stack[-1]] and [env_stack.pop()] raise on an empty
    list. *)
Inductive exn :=
| ReturnException (value : value)
| NameError (msg : name_error)
| HostError (e : host_error)
| RuntimeError (msg : string)
| IndexError.

(** The interpreter object: [env_stack] (top first), what [print] has
    written (one entry per call: its arguments), and the identity the
    next [FunctionValue] object gets. *)
Record state := State {
  env_stack : list (gmap string value);
  stdout : list (list value);
  next_fid : nat
}.

Definition set_env_stack (s : list (gmap string value)) (st : state) : state :=
  {| env_stack := s; stdout := stdout st; next_fid := next_fid st |}.

Inductive outcome (A : Type) :=
| Normal (a : A) (st : state)
| Raised (e : exn) (st : state)
| OutOfFuel.

Arguments Normal {A} a st.
Arguments Raised {A} e st.
Arguments OutOfFuel {A}.

(** A method of the interpreter: it reads and writes the state. *)
Definition M (A : Type) : Type := state -> outcome A.

Definition ret {A} (a : A) : M A := fun st => Normal a st.

Definition raise {A} (e : exn) : M A := fun st => Raised e st.

Definition bind {A B} (m : M A) (k : A -> M B) : M B :=
  fun st =>
    match m st with
    | Normal a st' => k a st'
    | Raised e st' => Raised e st'
    | OutOfFuel => OutOfFuel
    end.

Notation "'let!' x ':=' m 'in' k" := (bind m (fun x => k))
  (at level 10, x name, m at level 100, k at level 200).

Definition lift_host {A} (r : host_result A) : M A :=
  match r with
  | inl a => ret a
  | inr e => raise (HostError e)
  end.

(** [__init__]: the global environment holds the one builtin. *)
Definition global_env : gmap string value := {[ "print" := VBuiltinPrint ]}.

Definition initial_state : state :=
  {| env_stack := [global_env]; stdout := []; next_fid := 0 |}.

(** [current_env]: [self.env_stack[-1]]. *)
Definition current_env : M (gmap string value) :=
  fun st =>
    match env_stack st with
    | top :: _ => Normal top st
    | [] => Raised IndexError st
    end.

(** [push_env] *)
Definition push_env (newenv : gmap string value) : M unit :=
  fun st => Normal tt (set_env_stack (newenv :: env_stack st) st).

(** [pop_env] *)
Definition pop_env : M unit :=
  fun st =>
    match env_stack st with
    | _ :: rest => Normal tt (set_env_stack rest st)
    | [] => Raised IndexError st
    end.

(** [self.current_env()[name] = v] *)
Definition store (name : string) (v : value) : M unit :=
  fun st =>
    match env_stack st with
    | top :: rest => Normal tt (set_env_stack (<[name := v]> top :: rest) st)
    | [] => Raised IndexError st
    end.

(** [for s in reversed(self.env_stack): if name in s: return s[name]] *)
Fixpoint lookup_stack (name : string) (stack : list (gmap string value))
    : option value :=
  match stack with
  | [] => None
  | s :: below =>
      match s !! name with
      | Some v => Some v
      | None => lookup_stack name below
      end
  end.

(** The builtin [print], called with the evaluated arguments: it writes
    one line and returns [None]. *)
Definition host_print (args : list value) : M value :=
  fun st =>
    Normal VNone
      {| env_stack := env_stack st;
         stdout := stdout st ++ [args];
         next_fid := next_fid st |}.

(** The recursive entry the methods call back: [self.eval_stmt] and
    [self.eval_expr], which dispatch alike. *)
Definition evaluator : Type := node -> M value.

(** [for s in body: self.eval_stmt(s)] *)
Fixpoint exec_stmts (ev : evaluator) (body : list node) : M unit :=
  match body with
  | [] => ret tt
  | s :: rest => let! _ := ev s in exec_stmts ev rest
  end.

(** [[self.eval_expr(a) for a in node.args or []]]: left to right. *)
Fixpoint eval_args (ev : evaluator) (args : list node) : M (list value) :=
  match args with
  | [] => ret []
  | a :: rest =>
      let! v := ev a in
      let! vs := eval_args ev rest in
      ret (v :: vs)
  end.

Definition eval_AssignmentNode (ev : evaluator) (name : string) (rhs : node)
    : M value :=
  let! v := ev rhs in
  let! _ := store name v in
  ret VNone.

Definition eval_NumberNode (n : number) : M value :=
  ret (match n with NInt z => VInt z | NFloat f => VFloat f end).

Definition eval_StringNode (s : string) : M value :=
  ret (VStr s).

Definition eval_IdentifierNode (lineno : option nat) (name : string) : M value :=
  fun st =>
    match lookup_stack name (env_stack st) with
    | Some v => Normal v st
    | None => Raised (NameError (NameNotFound name lineno)) st
    end.

(** The chain of [if node.operator == ...] of [eval_BinaryOpNode]. *)
Definition apply_operator (operator : string) (l r : value) : M value :=
  if String.eqb operator "+" then lift_host (py_add l r)
  else if String.eqb operator "-" then lift_host (py_sub l r)
  else if String.eqb operator "*" then lift_host (py_mul l r)
  else if String.eqb operator "/" then lift_host (py_truediv l r)
  else if String.eqb operator "==" then ret (VBool (py_eq l r))
  else if String.eqb operator "!=" then ret (VBool (negb (py_eq l r)))
  else if String.eqb operator "<" then lift_host (py_order is_lt l r)
  else if String.eqb operator "<=" then lift_host (py_order is_le l r)
  else if String.eqb operator ">" then lift_host (py_order is_gt l r)
  else if String.eqb operator ">=" then lift_host (py_order is_ge l r)
  else raise (RuntimeError ("Unknown operator " ++ operator)).

Definition eval_BinaryOpNode (ev : evaluator)
    (left : node) (operator : string) (right : node) : M value :=
  let! l := ev left in
  let! r := ev right in
  apply_operator operator l r.

(** [for i, p in enumerate(fn.params):
       newenv[p] = args[i] if i < len(args) else None] *)
Fixpoint bind_params (params : list string) (args : list value)
    (newenv : gmap string value) : gmap string value :=
  match params with
  | [] => newenv
  | p :: ps =>
      match args with
      | a :: rest => bind_params ps rest (<[p := a]> newenv)
      | [] => bind_params ps [] (<[p := VNone]> newenv)
      end
  end.

(** The user-defined branch of [eval_CallNode]: push the new
    environment, run the body; a [ReturnException] is caught here,
    [pop_env] is called once and its value returned; without one,
    [pop_env] and [None]. Any other exception passes through. *)
Definition call_function (ev : evaluator) (params : list string)
    (body : list node) (env : gmap string value) (args : list value)
    : M value :=
  let newenv := bind_params params args env in
  let! _ := push_env newenv in
  fun st =>
    match exec_stmts ev body st with
    | Raised (ReturnException v) st' =>
        (let! _ := pop_env in ret v) st'
    | Raised e st' => Raised e st'
    | Normal _ st' => (let! _ := pop_env in ret VNone) st'
    | OutOfFuel => OutOfFuel
    end.

(** The resolution of the callee: an identifier is looked up in the
    stack by [eval_CallNode] itself, and a name that is unbound or
    bound to [None] is the "Function not found" NameError; any other
    callee expression is evaluated. *)
Definition resolve_callee (ev : evaluator) (lineno : option nat) (func : node)
    : M value :=
  match func with
  | IdentifierNode _ _ name =>
      fun st =>
        match lookup_stack name (env_stack st) with
        | Some VNone | None =>
            Raised (NameError (FunctionNotFound name lineno)) st
        | Some fn => Normal fn st
        end
  | _ => ev func
  end.

Definition eval_CallNode (ev : evaluator) (lineno : option nat)
    (func : node) (args : list node) : M value :=
  let! fn := resolve_callee ev lineno func in
  let! args := eval_args ev args in
  match fn with
  | VBuiltinPrint => host_print args
  | FunctionValue _ params body env => call_function ev params body env args
  | _ => raise (RuntimeError "Not callable")
  end.

Definition eval_FunctionDefNode (name : string) (params : list string)
    (body : list node) : M value :=
  let! env := current_env in
  fun st =>
    let func := FunctionValue (next_fid st) params body env in
    (let! _ := store name func in ret VNone)
      {| env_stack := env_stack st;
         stdout := stdout st;
         next_fid := S (next_fid st) |}.

Definition eval_ReturnNode (ev : evaluator) (rv : option node) : M value :=
  let! val := match rv with
              | Some e => ev e
              | None => ret VNone
              end in
  raise (ReturnException val).

(** One executed branch or iteration:
    [self.push_env(dict(self.current_env()))], the statements,
    [self.pop_env()]. *)
Definition run_block (ev : evaluator) (body : list node) : M value :=
  let! env := current_env in
  let! _ := push_env env in
  let! _ := exec_stmts ev body in
  let! _ := pop_env in
  ret VNone.

(** [for cond_node, body in node.elifs or []: ...], then the else. *)
Fixpoint eval_elifs (ev : evaluator) (elifs : list (node * list node))
    (else_body : option (list node)) : M value :=
  match elifs with
  | (cond_node, body) :: rest =>
      let! c := ev cond_node in
      if truthy c then run_block ev body
      else eval_elifs ev rest else_body
  | [] =>
      match else_body with
      | Some (s :: ss) => run_block ev (s :: ss)
      | Some [] | None => ret VNone
      end
  end.

Definition eval_IfNode (ev : evaluator) (condition : node)
    (then_body : list node) (elifs : list (node * list node))
    (else_body : option (list node)) : M value :=
  let! cond := ev condition in
  if truthy cond then run_block ev then_body
  else eval_elifs ev elifs else_body.

(** [while self.eval_expr(node.condition): ...]: the next test of the
    loop is the evaluator entered again on the same node. *)
Definition eval_WhileNode (ev : evaluator) (self : node)
    (condition : node) (body : list node) : M value :=
  let! cond := ev condition in
  if truthy cond then
    let! _ := run_block ev body in
    ev self
  else ret VNone.

(** [eval_stmt]: the dispatch on the node's class. *)
Fixpoint eval_stmt (fuel : nat) (n : node) : M value :=
  match fuel with
  | O => fun _ => OutOfFuel
  | S fuel' =>
      let ev := eval_stmt fuel' in
      match n with
      | NumberNode _ _ value => eval_NumberNode value
      | StringNode _ _ value => eval_StringNode value
      | IdentifierNode lineno _ name => eval_IdentifierNode lineno name
      | BinaryOpNode _ _ l operator r =>
          eval_BinaryOpNode ev l operator r
      | AssignmentNode _ _ name value => eval_AssignmentNode ev name value
      | IfNode _ _ condition then_body elifs else_body =>
          eval_IfNode ev condition then_body elifs else_body
      | WhileNode _ _ condition body => eval_WhileNode ev n condition body
      | FunctionDefNode _ _ name params body =>
          eval_FunctionDefNode name params body
      | ReturnNode _ _ value => eval_ReturnNode ev value
      | CallNode lineno _ func args => eval_CallNode ev lineno func args
      end
  end.

(** [eval_expr]: the same dispatch (the two differ in the message of
    the error for a class without a method, which no node has). *)
Definition eval_expr : nat -> node -> M value := eval_stmt.

(** [run]: [self.env_stack = [self.global_env]], then the statements
    of the program in order, on a fresh interpreter. *)
Definition run (fuel : nat) (program : Program) : outcome unit :=
  exec_stmts (eval_stmt fuel) (body program) initial_state.

End Interpreter.

Import Interpreter.

(** ** semantic.py *)

Module Semantic.

(** What a visit can raise. [CompilerError] has the one message
    "Use of undeclared variable 'name' at line lineno", kept as its two
    parts. [ScopeIndexError] is the host's IndexError of
    [self.scopes[-1]] and [self.scopes.pop()] on an empty list. *)
Inductive visit_error :=
| CompilerError (name : string) (lineno : option nat)
| ScopeIndexError.

(** [SymbolTable.scopes]: a list of dicts [name -> True], top first. *)
Definition SymbolTable : Type := list (gset string).

Definition visit_result : Type := SymbolTable + visit_error.

(** A visit method: it reads and writes the symbol table. *)
Definition visitor : Type := SymbolTable -> visit_result.

Definition and_then (r : visit_result) (k : visitor) : visit_result :=
  match r with
  | inl t => k t
  | inr e => inr e
  end.

(** [SymbolTable.__init__] *)
Definition new_symtab : SymbolTable := [∅].

(** [enter] *)
Definition enter : visitor := fun t => inl (∅ :: t).

(** [exit] *)
Definition exit : visitor :=
  fun t =>
    match t with
    | _ :: below => inl below
    | [] => inr ScopeIndexError
    end.

(** [insert] *)
Definition insert (name : string) : visitor :=
  fun t =>
    match t with
    | top :: below => inl (({[ name ]} ∪ top) :: below)
    | [] => inr ScopeIndexError
    end.

(** [lookup] *)
Fixpoint lookup (name : string) (t : SymbolTable) : bool :=
  match t with
  | [] => false
  | s :: below => if decide (name ∈ s) then true else lookup name below
  end.

Section Methods.

(** [self.visit], the dispatch the methods call back. *)
Variable visit : node -> visitor.

(** [for s in body: self.visit(s)] *)
Fixpoint visit_stmts (body : list node) : visitor :=
  fun t =>
    match body with
    | [] => inl t
    | s :: rest => and_then (visit s t) (visit_stmts rest)
    end.

(** [for p in node.params or []: self.symtab.insert(p)] *)
Fixpoint insert_params (params : list string) : visitor :=
  fun t =>
    match params with
    | [] => inl t
    | p :: rest => and_then (insert p t) (insert_params rest)
    end.

(** [for cond, body in node.elifs or []: ...] *)
Fixpoint visit_elifs (elifs : list (node * list node)) : visitor :=
  fun t =>
    match elifs with
    | [] => inl t
    | (cond, body) :: rest =>
        and_then (and_then (visit cond t) (visit_stmts body))
          (visit_elifs rest)
    end.

Definition visit_AssignmentNode (name : string) (rhs : node) : visitor :=
  fun t => and_then (visit rhs t) (insert name).

Definition visit_IdentifierNode (lineno : option nat) (name : string)
    : visitor :=
  fun t => if lookup name t then inl t else inr (CompilerError name lineno).

Definition visit_FunctionDefNode (name : string) (params : list string)
    (body : list node) : visitor :=
  fun t =>
    and_then (and_then (and_then (and_then (insert name t) enter)
      (insert_params params)) (visit_stmts body)) exit.

Definition visit_CallNode (func : node) (args : list node) : visitor :=
  fun t =>
    and_then
      match func with
      | IdentifierNode _ _ _ => inl t
      | _ => visit func t
      end
      (visit_stmts args).

Definition visit_IfNode (condition : node) (then_body : list node)
    (elifs : list (node * list node)) (else_body : option (list node))
    : visitor :=
  fun t =>
    and_then (and_then (and_then (visit condition t) (visit_stmts then_body))
      (visit_elifs elifs))
      match else_body with
      | Some (s :: ss) => visit_stmts (s :: ss)
      | Some [] | None => fun t' => inl t'
      end.

Definition visit_WhileNode (condition : node) (body : list node) : visitor :=
  fun t => and_then (visit condition t) (visit_stmts body).

Definition visit_ReturnNode (rv : option node) : visitor :=
  match rv with
  | Some e => visit e
  | None => fun t => inl t
  end.

Definition visit_BinaryOpNode (l r : node) : visitor :=
  fun t => and_then (visit l t) (visit r).

End Methods.

(** [visit]: every node class has its method, so the default traversal
    of the source is never taken. *)
Fixpoint visit (n : node) : visitor :=
  match n with
  | NumberNode _ _ _ => fun t => inl t
  | StringNode _ _ _ => fun t => inl t
  | IdentifierNode lineno _ name => visit_IdentifierNode lineno name
  | BinaryOpNode _ _ l _ r => visit_BinaryOpNode visit l r
  | AssignmentNode _ _ name rhs => visit_AssignmentNode visit name rhs
  | IfNode _ _ condition then_body elifs else_body =>
      visit_IfNode visit condition then_body elifs else_body
  | WhileNode _ _ condition body => visit_WhileNode visit condition body
  | FunctionDefNode _ _ name params body =>
      visit_FunctionDefNode visit name params body
  | ReturnNode _ _ rv => visit_ReturnNode visit rv
  | CallNode _ _ func args => visit_CallNode visit func args
  end.

(** [visit_Program] *)
Definition visit_Program (p : Program) : visitor :=
  visit_stmts visit (body p).

(** [SemanticAnalyzer.__init__]: a fresh table with the builtin. *)
Definition initial_symtab : visit_result := insert "print" new_symtab.

(** [analyze] on a fresh analyzer: [True], or [False] after printing
    "Semantic error: ..." for the [CompilerError] it caught. Another
    exception would pass through. *)
Inductive analysis :=
| Accepted
| Rejected (name : string) (lineno : option nat)
| Crashed.

Definition analyze (p : Program) : analysis :=
  match and_then initial_symtab (visit_Program p) with
  | inl _ => Accepted
  | inr (CompilerError name lineno) => Rejected name lineno
  | inr ScopeIndexError => Crashed
  end.

End Semantic.

(** ** lexer.py *)

Module Lexer.

(** The token types of the host's [tokenize] module that the lexer
    names, the ones it lets fall to its [else] branch ([NL], [COMMENT],
    [ERRORTOKEN]), and any other type by its number. *)
Inductive tok_type :=
| ENDMARKER | NAME | NUMBER | STRING | NEWLINE | INDENT | DEDENT | OP
| COMMENT | NL | ERRORTOKEN
| OTHER (code : nat).

(** One 5-tuple of [tokenize.generate_tokens]:
    (type, string, start, end, line). *)
Record TokenInfo := {
  tok_type_of : tok_type;
  tok_str : string;
  tok_start : nat * nat;
  tok_end : nat * nat;
  tok_line : string
}.

(** What the host's generator raises instead of a next token. *)
Inductive host_exception :=
| TokenError (msg : string) (position : nat * nat)
| IndentationError (msg : string) (lineno offset : nat)
| OtherHostException (msg : string).

(** An iteration of [tokenize.generate_tokens(src.readline)]: the
    tokens it yields, and the exception it ends with if it raises. The
    source text enters the lexer only through this host call. *)
Record host_tokens := {
  yielded : list TokenInfo;
  raised : option host_exception
}.

(** [Token = namedtuple("Token", ["type", "value", "lineno", "col"])] *)
Record Token := {
  type : string;
  value : string;
  lineno : nat;
  col : nat
}.

(** The body of the [for] loop of [tokenize_source]: the token it
    yields for a host token, or none ([continue]). *)
Definition convert (t : TokenInfo) : option Token :=
  let '(lineno, col) := tok_start t in
  match tok_type_of t with
  | NUMBER => Some {| type := "NUMBER"; value := tok_str t; lineno := lineno; col := col |}
  | NAME => Some {| type := "NAME"; value := tok_str t; lineno := lineno; col := col |}
  | STRING => Some {| type := "STRING"; value := tok_str t; lineno := lineno; col := col |}
  | NEWLINE => Some {| type := "NEWLINE"; value := tok_str t; lineno := lineno; col := col |}
  | INDENT => Some {| type := "INDENT"; value := tok_str t; lineno := lineno; col := col |}
  | DEDENT => Some {| type := "DEDENT"; value := tok_str t; lineno := lineno; col := col |}
  | OP => Some {| type := "OP"; value := tok_str t; lineno := lineno; col := col |}
  | ENDMARKER => Some {| type := "EOF"; value := ""; lineno := lineno; col := col |}
  | COMMENT | NL | ERRORTOKEN | OTHER _ => None
  end.

(** What consuming the generator [tokenize_source(source_text)] gives:
    the tokens yielded, and the host's exception when the host's
    generator raised one (the function has no [try] and no [raise]). *)
Record lexed := {
  tokens_of : list Token;
  failure : option host_exception
}.

Definition tokenize_source (gen : host_tokens) : lexed :=
  {| tokens_of := omap convert (yielded gen); failure := raised gen |}.

End Lexer.

(** ** parser.py *)

Module Parser.

Import Lexer.

(** [Token("EOF", "", 0, 0)] *)
Definition EOF0 : Token :=
  {| type := "EOF"; value := ""; lineno := 0; col := 0 |}.

(** The parser object. [self.current] is always [self.tokens[self.pos]]
    when [pos] is in range and [Token("EOF", "", 0, 0)] otherwise (in
    [__init__] and in [advance] alike), so it is read off [pos]. *)
Record parser := {
  tokens : list Token;
  pos : nat
}.

Definition current (p : parser) : Token := nth (pos p) (tokens p) EOF0.

(** [self.tokens[self.pos+1] if self.pos+1 < len(self.tokens) else None] *)
Definition next_tok (p : parser) : option Token :=
  nth_error (tokens p) (S (pos p)).

(** The exceptions of the parser: its own [ParserError] (two messages)
    and what the host's [int], [float] and [ast.literal_eval] raise on a
    text they refuse. *)
Inductive parse_exn :=
| ParserErrorExpected (typ : string) (val : option string) (got : Token)
| ParserErrorFactor (tok : Token)
| NumberValueError (text : string)
| LiteralEvalError (text : string).

Inductive presult (A : Type) :=
| POk (a : A) (p : parser)
| PRaised (e : parse_exn)
| POutOfFuel.

Arguments POk {A} a p.
Arguments PRaised {A} e.
Arguments POutOfFuel {A}.

Definition P (A : Type) : Type := parser -> presult A.

Definition pret {A} (a : A) : P A := fun p => POk a p.

Definition praise {A} (e : parse_exn) : P A := fun _ => PRaised e.

Definition pbind {A B} (m : P A) (k : A -> P B) : P B :=
  fun p =>
    match m p with
    | POk a p' => k a p'
    | PRaised e => PRaised e
    | POutOfFuel => POutOfFuel
    end.

Notation "'do!' x ':=' m 'in' k" := (pbind m (fun x => k))
  (at level 10, x name, m at level 100, k at level 200).

Definition advance : P unit :=
  fun p => POk tt {| tokens := tokens p; pos := S (pos p) |}.

Definition matches (typ : string) (val : option string) (t : Token) : bool :=
  String.eqb (type t) typ &&
  match val with
  | None => true
  | Some v => String.eqb (value t) v
  end.

Definition accept (typ : string) (val : option string) : P (option Token) :=
  fun p =>
    if matches typ val (current p)
    then (do! _ := advance in pret (Some (current p))) p
    else POk None p.

Definition expect (typ : string) (val : option string) : P Token :=
  fun p =>
    (do! tok := accept typ val in
     match tok with
     | Some t => pret t
     | None => praise (ParserErrorExpected typ val (current p))
     end) p.

Definition is_op (v : string) (t : Token) : bool :=
  String.eqb (type t) "OP" && String.eqb (value t) v.

Definition is_name (v : string) (t : Token) : bool :=
  String.eqb (type t) "NAME" && String.eqb (value t) v.

Definition op_in (ops : list string) (t : Token) : bool :=
  String.eqb (type t) "OP" && existsb (String.eqb (value t)) ops.

(** [if self.current.type == "NEWLINE": self.advance()] *)
Definition skip_newline : P unit :=
  fun p =>
    if String.eqb (type (current p)) "NEWLINE" then advance p else POk tt p.

(** *** The host's [int(text)] on a decimal literal *)

Definition digit_value (c : ascii) : option Z :=
  let n := nat_of_ascii c in
  if (48 <=? n)%nat && (n <=? 57)%nat then Some (Z.of_nat (n - 48)) else None.

Definition is_underscore (c : ascii) : bool := Ascii.eqb c "_"%char.

(** Digits with single underscores between them, after a first digit
    that has been read into [acc]. *)
Fixpoint int_digits (s : string) (acc : Z) : option Z :=
  match s with
  | EmptyString => Some acc
  | String c rest =>
      match digit_value c with
      | Some d => int_digits rest (10 * acc + d)
      | None =>
          if is_underscore c then
            match rest with
            | String c' rest' =>
                match digit_value c' with
                | Some d => int_digits rest' (10 * acc + d)
                | None => None
                end
            | EmptyString => None
            end
          else None
      end
  end.

(** [int(text)] on the text of a NUMBER token: decimal digits with
    single underscores between them; anything else (a hexadecimal,
    an exponent, an imaginary suffix) is a ValueError. Signs,
    surrounding blanks and non-ASCII digits, which [int] accepts too,
    never occur in a token and are not read. *)
Definition py_int (s : string) : option Z :=
  match s with
  | String c rest =>
      match digit_value c with
      | Some d => int_digits rest d
      | None => None
      end
  | EmptyString => None
  end.

Fixpoint contains_dot (s : string) : bool :=
  match s with
  | EmptyString => false
  | String c rest => Ascii.eqb c "."%char || contains_dot rest
  end.

Section Grammar.

(** The host's [float(text)] and [ast.literal_eval(text)] on the text
    of a token: [None] when they raise. *)
Variable py_float : string -> option float.
Variable literal_eval : string -> option string.

(** The NUMBER branch of [factor] *)
Definition number_node (tok : Token) : P node :=
  let r := if contains_dot (value tok)
           then option_map NFloat (py_float (value tok))
           else option_map NInt (py_int (value tok)) in
  match r with
  | Some n =>
      do! _ := advance in
      pret (NumberNode (Some (lineno tok)) (Some (col tok)) n)
  | None => praise (NumberValueError (value tok))
  end.

(** The STRING branch of [factor] *)
Definition string_node (tok : Token) : P node :=
  match literal_eval (value tok) with
  | Some s =>
      do! _ := advance in
      pret (StringNode (Some (lineno tok)) (Some (col tok)) s)
  | None => praise (LiteralEvalError (value tok))
  end.

Definition binary (l : node) (op : string) (r : node) : node :=
  BinaryOpNode (lineno_of l) (col_of l) l op r.

(** The loop shared by [comparison], [arith] and [term]:
    [while self.current.type == "OP" and self.current.value in ops]. *)
Fixpoint binary_loop (fuel : nat) (ops : list string) (operand : P node)
    (acc : node) : P node :=
  fun p =>
    if op_in ops (current p) then
      match fuel with
      | O => POutOfFuel
      | S fuel' =>
          (do! _ := advance in
           do! r := operand in
           binary_loop fuel' ops operand (binary acc (value (current p)) r)) p
      end
    else POk acc p.

(** [while self.accept("OP", ","): args.append(self.expression())] *)
Fixpoint more_args (fuel : nat) (expression : P node) (acc : list node)
    : P (list node) :=
  fun p =>
    if is_op "," (current p) then
      match fuel with
      | O => POutOfFuel
      | S fuel' =>
          (do! _ := advance in
           do! a := expression in
           more_args fuel' expression (acc ++ [a])) p
      end
    else POk acc p.

(** [call] *)
Definition call (fuel : nat) (expression : P node) : P node :=
  do! name_tok := expect "NAME" None in
  do! _ := expect "OP" (Some "(") in
  do! args :=
    (fun p =>
       if is_op ")" (current p) then POk [] p
       else (do! a := expression in more_args fuel expression [a]) p) in
  do! _ := expect "OP" (Some ")") in
  pret (CallNode (Some (lineno name_tok)) (Some (col name_tok))
          (IdentifierNode (Some (lineno name_tok)) (Some (col name_tok))
             (value name_tok))
          args).

(** [factor] *)
Definition factor (fuel : nat) (expression : P node) : P node :=
  fun p =>
    let tok := current p in
    if String.eqb (type tok) "NUMBER" then number_node tok p
    else if String.eqb (type tok) "STRING" then string_node tok p
    else if String.eqb (type tok) "NAME" then
      match next_tok p with
      | Some nt =>
          if is_op "(" nt then call fuel expression p
          else (do! _ := advance in
                pret (IdentifierNode (Some (lineno tok)) (Some (col tok))
                        (value tok))) p
      | None =>
          (do! _ := advance in
           pret (IdentifierNode (Some (lineno tok)) (Some (col tok))
                   (value tok))) p
      end
    else if is_op "(" tok then
      (do! _ := advance in
       do! n := expression in
       do! _ := expect "OP" (Some ")") in
       pret n) p
    else PRaised (ParserErrorFactor tok).

(** [term] *)
Definition term (fuel : nat) (expression : P node) : P node :=
  do! n := factor fuel expression in
  binary_loop fuel ["*"; "/"] (factor fuel expression) n.

(** [arith] *)
Definition arith (fuel : nat) (expression : P node) : P node :=
  do! n := term fuel expression in
  binary_loop fuel ["+"; "-"] (term fuel expression) n.

(** [comparison] *)
Definition comparison (fuel : nat) (expression : P node) : P node :=
  do! n := arith fuel expression in
  binary_loop fuel ["=="; "!="; "<"; "<="; ">"; ">="] (arith fuel expression) n.

(** [expression]: [return self.comparison()] *)
Fixpoint expression (fuel : nat) : P node :=
  match fuel with
  | O => fun _ => POutOfFuel
  | S fuel' => comparison fuel' (expression fuel')
  end.

(** [block] *)
Fixpoint block_loop (fuel : nat) (statement : P node) (acc : list node)
    : P (list node) :=
  fun p =>
    let t := current p in
    if String.eqb (type t) "DEDENT" || String.eqb (type t) "EOF"
    then POk acc p
    else
      match fuel with
      | O => POutOfFuel
      | S fuel' =>
          if String.eqb (type t) "NEWLINE"
          then (do! _ := advance in block_loop fuel' statement acc) p
          else (do! s := statement in
                block_loop fuel' statement (acc ++ [s])) p
      end.

Definition block (fuel : nat) (statement : P node) : P (list node) :=
  do! stmts := block_loop fuel statement [] in
  do! _ := expect "DEDENT" None in
  pret stmts.

(** The header every block has: [":" NEWLINE INDENT], then the block. *)
Definition suite (fuel : nat) (statement : P node) : P (list node) :=
  do! _ := expect "OP" (Some ":") in
  do! _ := expect "NEWLINE" None in
  do! _ := expect "INDENT" None in
  block fuel statement.

(** [assignment] *)
Definition assignment (fuel : nat) : P node :=
  do! name_tok := expect "NAME" None in
  do! _ := expect "OP" (Some "=") in
  do! val := expression fuel in
  do! _ := skip_newline in
  pret (AssignmentNode (Some (lineno name_tok)) (Some (col name_tok))
          (value name_tok) val).

(** The [elif] loop of [if_stmt] *)
Fixpoint elif_loop (fuel : nat) (statement : P node)
    (acc : list (node * list node)) : P (list (node * list node)) :=
  fun p =>
    if is_name "elif" (current p) then
      match fuel with
      | O => POutOfFuel
      | S fuel' =>
          (do! _ := advance in
           do! econd := expression fuel in
           do! ebody := suite fuel statement in
           elif_loop fuel' statement (acc ++ [(econd, ebody)])) p
      end
    else POk acc p.

(** [if_stmt] *)
Definition if_stmt (fuel : nat) (statement : P node) : P node :=
  do! if_tok := expect "NAME" (Some "if") in
  do! cond := expression fuel in
  do! then_body := suite fuel statement in
  do! elifs := elif_loop fuel statement [] in
  do! else_body :=
    (fun p =>
       if is_name "else" (current p)
       then (do! _ := advance in
             do! b := suite fuel statement in
             pret (Some b)) p
       else POk None p) in
  pret (IfNode (Some (lineno if_tok)) (Some (col if_tok))
          cond then_body elifs else_body).

(** [while_stmt] *)
Definition while_stmt (fuel : nat) (statement : P node) : P node :=
  do! while_tok := expect "NAME" (Some "while") in
  do! cond := expression fuel in
  do! body := suite fuel statement in
  pret (WhileNode (Some (lineno while_tok)) (Some (col while_tok)) cond body).

(** [while self.accept("OP", ","): p = self.expect("NAME"); ...] *)
Fixpoint more_params (fuel : nat) (acc : list string) : P (list string) :=
  fun p =>
    if is_op "," (current p) then
      match fuel with
      | O => POutOfFuel
      | S fuel' =>
          (do! _ := advance in
           do! t := expect "NAME" None in
           more_params fuel' (acc ++ [value t])) p
      end
    else POk acc p.

(** [function_def] *)
Definition function_def (fuel : nat) (statement : P node) : P node :=
  do! def_tok := expect "NAME" (Some "def") in
  do! name_tok := expect "NAME" None in
  do! _ := expect "OP" (Some "(") in
  do! params :=
    (fun p =>
       if is_op ")" (current p) then POk [] p
       else (do! t := expect "NAME" None in more_params fuel [value t]) p) in
  do! _ := expect "OP" (Some ")") in
  do! body := suite fuel statement in
  pret (FunctionDefNode (Some (lineno def_tok)) (Some (col def_tok))
          (value name_tok) params body).

(** [return_stmt] *)
Definition return_stmt (fuel : nat) : P node :=
  do! ret_tok := expect "NAME" (Some "return") in
  do! val :=
    (fun p =>
       if String.eqb (type (current p)) "NEWLINE" then POk None p
       else (do! e := expression fuel in pret (Some e)) p) in
  do! _ := skip_newline in
  pret (ReturnNode (Some (lineno ret_tok)) (Some (col ret_tok)) val).

(** [statement] *)
Fixpoint statement (fuel : nat) : P node :=
  match fuel with
  | O => fun _ => POutOfFuel
  | S fuel' =>
      fun p =>
        let t := current p in
        if is_name "if" t then if_stmt fuel' (statement fuel') p
        else if is_name "while" t then while_stmt fuel' (statement fuel') p
        else if is_name "def" t then function_def fuel' (statement fuel') p
        else if is_name "return" t then return_stmt fuel' p
        else if String.eqb (type t) "NAME" &&
                match next_tok p with
                | Some nt => is_op "=" nt
                | None => false
                end
        then assignment fuel' p
        else (do! e := expression fuel' in
              do! _ := skip_newline in
              pret e) p
  end.

(** The loop of [parse] *)
Fixpoint parse_loop (fuel : nat) (acc : list node) : P (list node) :=
  fun p =>
    let t := current p in
    if String.eqb (type t) "EOF" then POk acc p
    else
      match fuel with
      | O => POutOfFuel
      | S fuel' =>
          if String.eqb (type t) "NEWLINE"
          then (do! _ := advance in parse_loop fuel' acc) p
          else (do! s := statement fuel in
                parse_loop fuel' (acc ++ [s])) p
      end.

(** [Parser.parse] *)
Definition parse (fuel : nat) : P Program :=
  do! stmts := parse_loop fuel [] in
  pret {| body := stmts |}.

(** [Parser.__init__]: [list(tokenize_source(source_text))] consumes
    the generator, so an exception of the host's tokenizer leaves the
    constructor. *)
Definition new_parser (gen : host_tokens) : parser + host_exception :=
  let lx := tokenize_source gen in
  match failure lx with
  | Some e => inr e
  | None => inl {| tokens := tokens_of lx; pos := 0 |}
  end.

(** The module's [parse(source_text)] *)
Definition parse_source (fuel : nat) (gen : host_tokens)
    : presult Program + host_exception :=
  match new_parser gen with
  | inl p => inl (parse fuel p)
  | inr e => inr e
  end.

End Grammar.

End Parser.

(** ** codegen_pyast.py *)

Module Codegen.

(** The nodes of the host's [ast] module that the generator builds:
    the operator and context markers, and the expression and statement
    classes. A node carries the four position attributes when
    [_copy_pos] has set them. Fields the generator always fills with
    the same value are left out ([keywords=[]], [decorator_list=[]],
    the empty parts of [ast.arguments], [type_ignores=[]]). The
    generator iterates [then_body] and the body of a while as they are;
    the lists of the embedding are never [None]. *)
Inductive py_operator := PyAdd | PySub | PyMult | PyDiv.

Inductive py_cmpop := PyEq | PyNotEq | PyLt | PyLtE | PyGt | PyGtE.

Inductive py_context := PyLoad | PyStore.

Record py_position := {
  py_lineno : nat;
  py_col_offset : nat;
  py_end_lineno : nat;
  py_end_col_offset : nat
}.

Inductive py_constant :=
| PyNumber (n : number)
| PyString (s : string).

Inductive py_node :=
| PyConstant (at_ : option py_position) (value : py_constant)
| PyName (at_ : option py_position) (id : string) (ctx : py_context)
| PyBinOp (at_ : option py_position)
    (left : py_node) (op : py_operator) (right : py_node)
| PyCompare (at_ : option py_position)
    (left : py_node) (ops : list py_cmpop) (comparators : list py_node)
| PyCall (at_ : option py_position) (func : py_node) (args : list py_node)
| PyAssign (at_ : option py_position) (targets : list py_node) (value : py_node)
| PyIf (at_ : option py_position)
    (test : py_node) (body : list py_node) (orelse : list py_node)
| PyWhile (at_ : option py_position)
    (test : py_node) (body : list py_node) (orelse : list py_node)
| PyFunctionDef (at_ : option py_position)
    (name : string) (args : list string) (body : list py_node)
| PyReturn (at_ : option py_position) (value : option py_node)
| PyExpr (at_ : option py_position) (value : py_node).

(** [ast.Module(body=..., type_ignores=[])] *)
Record py_module := { py_body : list py_node }.

(** The generator raises [NotImplementedError] for an operator it does
    not know ("Operator op not supported in codegen"); every node class
    has its [visit_] method, so the error of [visit] itself is never
    raised. *)
Inductive codegen_error :=
| NotImplementedError (operator : string).

Definition generated (A : Type) : Type := A + codegen_error.

Definition gbind {A B} (r : generated A) (k : A -> generated B) : generated B :=
  match r with
  | inl a => k a
  | inr e => inr e
  end.

Notation "'gen!' x ':=' m 'in' k" := (gbind m (fun x => k))
  (at level 10, x name, m at level 100, k at level 200).

(** [_copy_pos]: the attributes it sets on the new node, when the
    source node has a line; [col] is read as 0 when it is [None], and
    the end is the start (the source nodes have no end attributes). *)
Definition _copy_pos (lineno col : option nat) : option py_position :=
  match lineno with
  | Some l =>
      let c := match col with Some c => c | None => 0 end in
      Some {| py_lineno := l; py_col_offset := c;
              py_end_lineno := l; py_end_col_offset := c |}
  | None => None
  end.

(** The two tables of [visit_BinaryOpNode]. *)
Definition arith_ops (op : string) : option py_operator :=
  if String.eqb op "+" then Some PyAdd
  else if String.eqb op "-" then Some PySub
  else if String.eqb op "*" then Some PyMult
  else if String.eqb op "/" then Some PyDiv
  else None.

Definition compare_ops_map (op : string) : option py_cmpop :=
  if String.eqb op "==" then Some PyEq
  else if String.eqb op "!=" then Some PyNotEq
  else if String.eqb op "<" then Some PyLt
  else if String.eqb op "<=" then Some PyLtE
  else if String.eqb op ">" then Some PyGt
  else if String.eqb op ">=" then Some PyGtE
  else None.

Section Methods.

(** [self.visit] and [self._stmt_or_expr], which the methods call
    back. *)
Variable visit : node -> generated py_node.
Variable _stmt_or_expr : node -> generated py_node.

(** [[self.visit(a) for a in ...]] *)
Fixpoint visit_all (l : list node) : generated (list py_node) :=
  match l with
  | [] => inl []
  | a :: rest =>
      gen! a' := visit a in
      gen! rest' := visit_all rest in
      inl (a' :: rest')
  end.

(** [[self._stmt_or_expr(s) for s in ...]] *)
Fixpoint statements (l : list node) : generated (list py_node) :=
  match l with
  | [] => inl []
  | s :: rest =>
      gen! s' := _stmt_or_expr s in
      gen! rest' := statements rest in
      inl (s' :: rest')
  end.

Definition visit_BinaryOpNode (lineno col : option nat)
    (l : node) (operator : string) (r : node) : generated py_node :=
  gen! left := visit l in
  gen! right := visit r in
  match arith_ops operator with
  | Some op => inl (PyBinOp (_copy_pos lineno col) left op right)
  | None =>
      match compare_ops_map operator with
      | Some op => inl (PyCompare (_copy_pos lineno col) left [op] [right])
      | None => inr (NotImplementedError operator)
      end
  end.

Definition visit_AssignmentNode (lineno col : option nat)
    (name : string) (rhs : node) : generated py_node :=
  let target := PyName None name PyStore in
  gen! value := visit rhs in
  inl (PyAssign (_copy_pos lineno col) [target] value).

Definition visit_CallNode (lineno col : option nat)
    (func : node) (args : list node) : generated py_node :=
  gen! func' := visit func in
  gen! args' := visit_all args in
  inl (PyCall (_copy_pos lineno col) func' args').

(** The loop over [node.elifs] of [visit_IfNode]: what ends up in the
    [orelse] of the If before. Each elif is a new If in the [orelse]
    of the one before it, and what the else body gives, which is
    generated after the last elif, is the [orelse] of the last. *)
Fixpoint chain (elifs : list (node * list node))
    (else_part : generated (list py_node)) : generated (list py_node) :=
  match elifs with
  | (cond, body_nodes) :: rest =>
      gen! elif_test := visit cond in
      gen! elif_body := statements body_nodes in
      gen! orelse := chain rest else_part in
      inl [PyIf None elif_test elif_body orelse]
  | [] => else_part
  end.

Definition visit_IfNode (lineno col : option nat) (condition : node)
    (then_body : list node) (elifs : list (node * list node))
    (else_body : option (list node)) : generated py_node :=
  gen! test := visit condition in
  gen! body := statements then_body in
  gen! orelse := chain elifs
                   match else_body with
                   | Some (s :: ss) => statements (s :: ss)
                   | Some [] | None => inl []
                   end in
  inl (PyIf (_copy_pos lineno col) test body orelse).

Definition visit_WhileNode (lineno col : option nat)
    (condition : node) (body : list node) : generated py_node :=
  gen! test := visit condition in
  gen! body' := statements body in
  inl (PyWhile (_copy_pos lineno col) test body' []).

Definition visit_FunctionDefNode (lineno col : option nat)
    (name : string) (params : list string) (body : list node)
    : generated py_node :=
  gen! body' := statements body in
  inl (PyFunctionDef (_copy_pos lineno col) name params body').

Definition visit_ReturnNode (lineno col : option nat) (rv : option node)
    : generated py_node :=
  gen! val := match rv with
              | Some e => gen! e' := visit e in inl (Some e')
              | None => inl None
              end in
  inl (PyReturn (_copy_pos lineno col) val).

End Methods.

(** [visit], with [_stmt_or_expr] as it is written: a call becomes an
    [ast.Expr] statement around its [ast.Call], every other node is
    what [visit] makes of it. *)
Fixpoint visit (n : node) : generated py_node :=
  let _stmt_or_expr := fun s =>
    match s with
    | CallNode lineno col _ _ =>
        gen! call_expr := visit s in
        inl (PyExpr (_copy_pos lineno col) call_expr)
    | _ => visit s
    end in
  match n with
  | NumberNode lineno col value =>
      inl (PyConstant (_copy_pos lineno col) (PyNumber value))
  | StringNode lineno col value =>
      inl (PyConstant (_copy_pos lineno col) (PyString value))
  | IdentifierNode lineno col name =>
      inl (PyName (_copy_pos lineno col) name PyLoad)
  | BinaryOpNode lineno col l operator r =>
      visit_BinaryOpNode visit lineno col l operator r
  | AssignmentNode lineno col name rhs =>
      visit_AssignmentNode visit lineno col name rhs
  | CallNode lineno col func args => visit_CallNode visit lineno col func args
  | IfNode lineno col condition then_body elifs else_body =>
      visit_IfNode visit _stmt_or_expr lineno col
        condition then_body elifs else_body
  | WhileNode lineno col condition body =>
      visit_WhileNode visit _stmt_or_expr lineno col condition body
  | FunctionDefNode lineno col name params body =>
      visit_FunctionDefNode _stmt_or_expr lineno col name params body
  | ReturnNode lineno col rv => visit_ReturnNode visit lineno col rv
  end.

(** [_stmt_or_expr] *)
Definition _stmt_or_expr (n : node) : generated py_node :=
  match n with
  | CallNode lineno col _ _ =>
      gen! call_expr := visit n in
      inl (PyExpr (_copy_pos lineno col) call_expr)
  | _ => visit n
  end.

(** [generate]: the statements of the program, each through
    [_stmt_or_expr], in a module that the host's
    [ast.fix_missing_locations] completes. *)
Definition generate (fix_missing_locations : py_module -> py_module)
    (root : Program) : generated py_module :=
  gen! module_body := statements _stmt_or_expr (body root) in
  inl (fix_missing_locations {| py_body := module_body |}).

End Codegen.

(** * The objects the theorems speak of *)

(** ** The interpreter *)

Module InterpreterSpec.

(** [v] is an int, a bool or a float. *)
Definition is_number (v : value) : bool :=
  match as_num v with Some _ => true | None => false end.

(** [v] is a number the host can turn into a float: a float, or an
    int within the range of floats. *)
Definition fits_float (v : value) : bool :=
  match as_num v with
  | Some a => match num_to_float a with inl _ => true | inr _ => false end
  | None => false
  end.

(** [v] is an int or a bool. *)
Definition is_int_like (v : value) : bool :=
  match as_int v with Some _ => true | None => false end.

(** The claim on division as the specification words it: whenever the
    right operand evaluates to zero, the error is ZeroDivisionError. *)
Definition division_by_zero_claim : Prop :=
  forall fuel ln c lhs rhs st l st1 r st2,
    eval_expr fuel lhs st = Normal l st1 ->
    eval_expr fuel rhs st1 = Normal r st2 ->
    is_zero_value r = true ->
    eval_expr (S fuel) (BinaryOpNode ln c lhs "/" rhs) st
    = Raised (HostError ZeroDivisionError) st2.

(** The state after [push_env(newenv)]. *)
Definition pushed (newenv : gmap string value) (st : state) : state :=
  set_env_stack (newenv :: env_stack st) st.

(** The outcome of a call once the body has run. *)
Definition finish_call (body_outcome : outcome unit) : outcome value :=
  match body_outcome with
  | Raised (ReturnException v) st' => (let! _ := pop_env in ret v) st'
  | Raised e st' => Raised e st'
  | Normal _ st' => (let! _ := pop_env in ret VNone) st'
  | OutOfFuel => OutOfFuel
  end.

(** [m2] does what [m1] does wherever [m1] has fuel enough. *)
Definition refines {A} (m1 m2 : M A) : Prop :=
  forall st, m1 st = OutOfFuel \/ m2 st = m1 st.

Definition ev_refines (ev1 ev2 : evaluator) : Prop :=
  forall n, refines (ev1 n) (ev2 n).

(** Nodes without positions, for the programs below. *)
Abbreviation lit z := (NumberNode None None (NInt z)) (only parsing).
Abbreviation ident x := (IdentifierNode None None x) (only parsing).
Abbreviation binop l op r := (BinaryOpNode None None l op r) (only parsing).
Abbreviation assign x e := (AssignmentNode None None x e) (only parsing).
Abbreviation call_named f args :=
  (CallNode None None (IdentifierNode None None f) args) (only parsing).
Abbreviation print_ e :=
  (CallNode None None (IdentifierNode None None "print") [e]) (only parsing).
Abbreviation ret_ e := (ReturnNode None None (Some e)) (only parsing).

(** x = 10; print(x); if 1: x = 5; then print(x) after the block *)
Definition variables_scope : Program :=
  {| body := [ assign "x" (lit 10);
               print_ (ident "x");
               IfNode None None (lit 1) [assign "x" (lit 5)] [] None;
               print_ (ident "x") ] |}.

(** total = 0; i = 1; while i <= 4: total = total + i; i = i + 1;
    then print(total) *)
Definition while_loop : node :=
  WhileNode None None (binop (ident "i") "<=" (lit 4))
    [ assign "total" (binop (ident "total") "+" (ident "i"));
      assign "i" (binop (ident "i") "+" (lit 1)) ].

Definition while_sum : Program :=
  {| body := [ assign "total" (lit 0);
               assign "i" (lit 1);
               while_loop;
               print_ (ident "total") ] |}.

(** The environment in which the loop of [while_sum] is entered. *)
Definition loop_frame : gmap string value :=
  <["i" := VInt 1]> (<["total" := VInt 0]> global_env).

Definition loop_state : state :=
  {| env_stack := [loop_frame]; stdout := []; next_fid := 0 |}.

(** def f(): if 1: return 7 *)
Definition returns_inside_if : node :=
  FunctionDefNode None None "f" []
    [IfNode None None (lit 1) [ret_ (lit 7)] [] None].

(** def g(): return 7 *)
Definition returns_directly : node :=
  FunctionDefNode None None "g" [] [ret_ (lit 7)].

(** The state after [returns_inside_if] and [returns_directly] have
    run on a fresh interpreter. *)
Definition after_definitions : state :=
  {| env_stack :=
       [ <["g" := FunctionValue 1 [] [ret_ (lit 7)]
                    (<["f" := FunctionValue 0 []
                               [IfNode None None (lit 1) [ret_ (lit 7)] [] None]
                               global_env]> global_env)]>
         (<["f" := FunctionValue 0 []
                    [IfNode None None (lit 1) [ret_ (lit 7)] [] None]
                    global_env]> global_env) ];
     stdout := [];
     next_fid := 2 |}.

(** def fact(n):
        if n <= 1:
            return 1
        return n * fact(n - 1) *)
Definition fact_body : list node :=
  [ IfNode None None (binop (ident "n") "<=" (lit 1)) [ret_ (lit 1)] [] None;
    ret_ (binop (ident "n") "*"
            (call_named "fact" [binop (ident "n") "-" (lit 1)])) ].

Definition fact_def : node := FunctionDefNode None None "fact" ["n"] fact_body.

(** The function value the definition makes on a fresh interpreter: it
    captures the global environment as it is before [fact] is bound. *)
Definition fact_value : value := FunctionValue 0 ["n"] fact_body global_env.

(** The environment of a call [fact(k)]. *)
Definition fact_frame (k : nat) : gmap string value :=
  <["n" := VInt (Z.of_nat k)]> global_env.

(** The definition, then [print(fact(k))]. *)
Definition fact_program (k : nat) : Program :=
  {| body := [fact_def; print_ (call_named "fact" [lit (Z.of_nat k)])] |}.

Definition after_fact_def : state :=
  {| env_stack := [<["fact" := fact_value]> global_env];
     stdout := [];
     next_fid := 1 |}.

(** def second(a, b): return b *)
Definition second_value : value :=
  FunctionValue 0 ["a"; "b"] [ret_ (ident "b")] global_env.

Definition after_second : state :=
  {| env_stack := [<["second" := second_value]> global_env];
     stdout := [];
     next_fid := 1 |}.

(** A fresh interpreter after [x = 1]. *)
Definition x_is_one : state :=
  {| env_stack := [<["x" := VInt 1]> global_env]; stdout := []; next_fid := 0 |}.

(** def outer():
        x = 1
        def inner():
            return x
        x = 2
        return inner()
    print(outer()) *)
Definition closure_program : Program :=
  {| body :=
       [ FunctionDefNode None None "outer" []
           [ assign "x" (lit 1);
             FunctionDefNode None None "inner" [] [ret_ (ident "x")];
             assign "x" (lit 2);
             ret_ (call_named "inner" []) ];
         print_ (call_named "outer" []) ] |}.

(** The state an evaluation ends in, when it ends. *)
Definition final_state {A} (r : outcome A) : option state :=
  match r with
  | Normal _ st' | Raised _ st' => Some st'
  | OutOfFuel => None
  end.

(** From every state with [pre], [m] ends in a state related to it by
    [R], and what it raises has [E]. *)
Definition ensures {A} (pre : state -> Prop) (R : state -> state -> Prop)
    (E : exn -> Prop) (m : M A) : Prop :=
  forall st, pre st ->
    match m st with
    | Normal _ st' => R st st'
    | Raised e st' => R st st' /\ E e
    | OutOfFuel => True
    end.

(** [env_stack] has a current frame. *)
Definition has_frame (st : state) : Prop := env_stack st <> [].

(** Every frame below a frame of [st] is still in place in [st']: what
    lies under any non-empty top part of the stack lies under a
    non-empty top part afterwards. *)
Definition kept (st st' : state) : Prop :=
  forall above below,
    env_stack st = (above ++ below)%list -> above <> [] ->
    exists above', above' <> [] /\ env_stack st' = (above' ++ below)%list.

(** The whole stack of [st] is still in place in [st'], under the
    frames that were pushed and not popped. *)
Definition extends (st st' : state) : Prop :=
  exists extra, env_stack st' = (extra ++ env_stack st)%list.

Definition not_IndexError (e : exn) : Prop := e <> IndexError.

(** assign x 1 *)
Definition store_one : node :=
  AssignmentNode None None "x" (NumberNode None None (NInt 1)).

(** The node stores into no frame that exists when its evaluation
    begins: it is neither an assignment nor a function definition, and
    neither are the nodes it evaluates in the current frame (operands,
    conditions, the callee, arguments, a returned value). The
    statements of if and while bodies are free: they run in a frame of
    their own. *)
Fixpoint stores_nothing (n : node) : bool :=
  match n with
  | NumberNode _ _ _ | StringNode _ _ _ | IdentifierNode _ _ _ => true
  | BinaryOpNode _ _ l _ r => stores_nothing l && stores_nothing r
  | AssignmentNode _ _ _ _ | FunctionDefNode _ _ _ _ _ => false
  | IfNode _ _ cond _ elifs _ =>
      stores_nothing cond
      && forallb (fun cb => let '(c, _) := cb in stores_nothing c) elifs
  | WhileNode _ _ cond _ => stores_nothing cond
  | ReturnNode _ _ rv =>
      match rv with Some e => stores_nothing e | None => true end
  | CallNode _ _ func args =>
      stores_nothing func && forallb stores_nothing args
  end.

(** if 1: x = 1 *)
Definition store_in_block : node :=
  IfNode None None (NumberNode None None (NInt 1)) [store_one] [] None.

(** No frame of the list binds [x]. *)
Definition unbound_in (x : string) (frames : list (gmap string value)) : Prop :=
  Forall (fun frame => frame !! x = None) frames.

(** x = 1 on top of the global frame, which holds x = 2 *)
Definition shadowing_state : state :=
  {| env_stack := [ {[ "x" := VInt 1 ]};  <[ "x" := VInt 2 ]> global_env ];
     stdout := [];
     next_fid := 0 |}.

(** An expression without a call: literals, names and operators. *)
Fixpoint is_simple_expr (n : node) : bool :=
  match n with
  | NumberNode _ _ _ | StringNode _ _ _ | IdentifierNode _ _ _ => true
  | BinaryOpNode _ _ l _ r => is_simple_expr l && is_simple_expr r
  | _ => false
  end.

(** No call is evaluated when the node is: there is none in it, the
    bodies of the functions it defines apart (a definition runs no
    body). *)
Fixpoint call_free (n : node) : bool :=
  match n with
  | NumberNode _ _ _ | StringNode _ _ _ | IdentifierNode _ _ _ => true
  | BinaryOpNode _ _ l _ r => call_free l && call_free r
  | AssignmentNode _ _ _ rhs => call_free rhs
  | IfNode _ _ cond then_body elifs else_body =>
      call_free cond && forallb call_free then_body
      && forallb (fun cb => let '(c, b) := cb in
                            call_free c && forallb call_free b) elifs
      && match else_body with
         | Some b => forallb call_free b
         | None => true
         end
  | WhileNode _ _ cond body => call_free cond && forallb call_free body
  | FunctionDefNode _ _ _ _ _ => true
  | ReturnNode _ _ rv => match rv with Some e => call_free e | None => true end
  | CallNode _ _ _ _ => false
  end.

(** The evaluation, when it ends normally, leaves a stack with a new
    current frame at most: the frames below are the same, and no frame
    was added. *)
Definition settles {A} (m : M A) : Prop :=
  forall st a st', has_frame st -> m st = Normal a st' ->
    has_frame st' /\ tail (env_stack st') = tail (env_stack st).

(** while x: x = 0, where x is 0 *)
Definition idle_loop : node :=
  WhileNode None None (IdentifierNode None None "x")
    [AssignmentNode None None "x" (NumberNode None None (NInt 0))].

Definition x_is_zero : state :=
  {| env_stack := [ <[ "x" := VInt 0 ]> global_env ];
     stdout := [];
     next_fid := 0 |}.

(** def f(): return y, defined on the global frame before y exists; then y = 5 *)
Definition late_binding_state : state :=
  {| env_stack :=
       [ <[ "y" := VInt 5 ]>
           (<[ "f" := FunctionValue 0 []
                        [ReturnNode None None (Some (IdentifierNode None None "y"))]
                        global_env ]> global_env) ];
     stdout := [];
     next_fid := 1 |}.

(** The expressions [args] are evaluated one after the other from the
    left, each in the state the one before it left: [vs] are their
    values, in their order, and the last one leaves the state [st']. *)
Inductive evaluated_in_order (ev : evaluator)
    : list node -> state -> list value -> state -> Prop :=
  | no_argument st : evaluated_in_order ev [] st [] st
  | next_argument a rest st v st1 vs st2 :
      ev a st = Normal v st1 ->
      evaluated_in_order ev rest st1 vs st2 ->
      evaluated_in_order ev (a :: rest) st (v :: vs) st2.

(** def outer():
        x = v
        def inner():
            return x
        x = w
        return inner()
    print(outer()) *)
Definition closure_called_later (v w : Z) : Program :=
  {| body :=
       [ FunctionDefNode None None "outer" []
           [ assign "x" (lit v);
             FunctionDefNode None None "inner" [] [ret_ (ident "x")];
             assign "x" (lit w);
             ret_ (call_named "inner" []) ];
         print_ (call_named "outer" []) ] |}.

(** def g(x):
        if 1:
            return 0
    def outer():
        x = v
        def inner():
            g(u)
            return x
        x = w
        return inner()
    print(outer()) *)
Definition closure_after_a_call (v w u : Z) : Program :=
  {| body :=
       [ FunctionDefNode None None "g" ["x"]
           [ IfNode None None (lit 1) [ret_ (lit 0)] [] None ];
         FunctionDefNode None None "outer" []
           [ assign "x" (lit v);
             FunctionDefNode None None "inner" []
               [ call_named "g" [lit u]; ret_ (ident "x") ];
             assign "x" (lit w);
             ret_ (call_named "inner" []) ];
         print_ (call_named "outer" []) ] |}.

(** def fact(n):
        if n <= 1:
            return 1
        return fact(n - 1) * n *)
Definition fact_swapped_body : list node :=
  [ IfNode None None (binop (ident "n") "<=" (lit 1)) [ret_ (lit 1)] [] None;
    ret_ (binop (call_named "fact" [binop (ident "n") "-" (lit 1)]) "*"
            (ident "n")) ].

Definition fact_swapped_def : node :=
  FunctionDefNode None None "fact" ["n"] fact_swapped_body.

Definition fact_swapped_value : value :=
  FunctionValue 0 ["n"] fact_swapped_body global_env.

(** The definition, then [print(fact(k))]. *)
Definition fact_swapped_program (k : nat) : Program :=
  {| body := [ fact_swapped_def;
               print_ (call_named "fact" [lit (Z.of_nat k)]) ] |}.

(** def fib(n):
        if n <= 1:
            return n
        return fib(n - 1) + fib(n - 2)
    print(fib(6)) *)
Definition fib_program : Program :=
  {| body :=
       [ FunctionDefNode None None "fib" ["n"]
           [ IfNode None None (binop (ident "n") "<=" (lit 1))
               [ret_ (ident "n")] [] None;
             ret_ (binop (call_named "fib" [binop (ident "n") "-" (lit 1)]) "+"
                     (call_named "fib" [binop (ident "n") "-" (lit 2)])) ];
         print_ (call_named "fib" [lit 6]) ] |}.

End InterpreterSpec.

(** ** The scope checker *)

Module SemanticSpec.

Import Semantic.

Section Decls.

Variable decls : node -> gset string.

Definition decls_list (l : list node) : gset string :=
  ⋃ (map decls l).

Definition decls_elifs (l : list (node * list node)) : gset string :=
  ⋃ (map (fun cb => decls (fst cb) ∪ decls_list (snd cb)) l).

End Decls.

(** The names a node binds in the scope it stands in: the targets of
    its assignments and the names of its function definitions, through
    if and while bodies but not into a function's body (whose bindings
    belong to the function's own scope). *)
Fixpoint decls (n : node) : gset string :=
  match n with
  | NumberNode _ _ _ | StringNode _ _ _ | IdentifierNode _ _ _ => ∅
  | BinaryOpNode _ _ l _ r => decls l ∪ decls r
  | AssignmentNode _ _ name rhs => decls rhs ∪ {[ name ]}
  | IfNode _ _ cond then_body elifs else_body =>
      decls cond ∪ decls_list decls then_body ∪ decls_elifs decls elifs
      ∪ match else_body with
        | Some b => decls_list decls b
        | None => ∅
        end
  | WhileNode _ _ cond body => decls cond ∪ decls_list decls body
  | FunctionDefNode _ _ name _ _ => {[ name ]}
  | ReturnNode _ _ rv => match rv with Some e => decls e | None => ∅ end
  | CallNode _ _ func args =>
      match func with
      | IdentifierNode _ _ _ => ∅
      | _ => decls func
      end ∪ decls_list decls args
  end.

(** One identifier read as a value: its name, its line, and whether
    the name is bound in a scope around the read. *)
Record read := {
  read_name : string;
  read_line : option nat;
  read_bound : bool
}.

Section Reads.

Variable scoped_reads : gset string -> node -> list read.

Definition scoped_reads_list (ctx : gset string) (l : list node) : list read :=
  flat_map (scoped_reads ctx) l.

Definition scoped_reads_elifs (ctx : gset string)
    (l : list (node * list node)) : list read :=
  flat_map
    (fun cb => scoped_reads ctx (fst cb) ++ scoped_reads_list ctx (snd cb))%list
    l.

End Reads.

(** The identifiers a node reads as values, in the order the checker
    visits them; the identifier a call names as its target is not one
    of them. [ctx] holds every name bound in a scope around the node
    (anywhere in that scope, before or after the read); a function body
    adds the function's parameters and the names its own body binds. *)
Fixpoint scoped_reads (ctx : gset string) (n : node) : list read :=
  match n with
  | NumberNode _ _ _ | StringNode _ _ _ => []
  | IdentifierNode lineno _ name =>
      [ {| read_name := name; read_line := lineno;
           read_bound := bool_decide (name ∈ ctx) |} ]
  | BinaryOpNode _ _ l _ r => scoped_reads ctx l ++ scoped_reads ctx r
  | AssignmentNode _ _ _ rhs => scoped_reads ctx rhs
  | IfNode _ _ cond then_body elifs else_body =>
      scoped_reads ctx cond ++ scoped_reads_list scoped_reads ctx then_body
      ++ scoped_reads_elifs scoped_reads ctx elifs
      ++ match else_body with
         | Some b => scoped_reads_list scoped_reads ctx b
         | None => []
         end
  | WhileNode _ _ cond body =>
      scoped_reads ctx cond ++ scoped_reads_list scoped_reads ctx body
  | FunctionDefNode _ _ _ params body =>
      scoped_reads_list scoped_reads
        (ctx ∪ list_to_set params ∪ decls_list decls body) body
  | ReturnNode _ _ rv =>
      match rv with Some e => scoped_reads ctx e | None => [] end
  | CallNode _ _ func args =>
      match func with
      | IdentifierNode _ _ _ => []
      | _ => scoped_reads ctx func
      end ++ scoped_reads_list scoped_reads ctx args
  end%list.

(** The names bound in the program's own scope: the builtin and what
    its statements bind. *)
Definition program_scope (p : Program) : gset string :=
  {[ "print" ]} ∪ decls_list decls (body p).

Definition program_reads (p : Program) : list read :=
  scoped_reads_list scoped_reads (program_scope p) (body p).

(** The claim as the specification words it: every unbound read is the
    one the error names. *)
Definition every_unbound_read_is_named : Prop :=
  forall p x l,
    {| read_name := x; read_line := l; read_bound := false |}
      ∈ program_reads p ->
    analyze p = Rejected x l.

(** An induction principle that reaches the nodes inside the lists. *)
Section NodeInduction.

Variable Q : node -> Prop.

Hypothesis HNumber : forall l c v, Q (NumberNode l c v).
Hypothesis HString : forall l c v, Q (StringNode l c v).
Hypothesis HIdentifier : forall l c x, Q (IdentifierNode l c x).
Hypothesis HBinaryOp :
  forall l c a op b, Q a -> Q b -> Q (BinaryOpNode l c a op b).
Hypothesis HAssignment : forall l c x e, Q e -> Q (AssignmentNode l c x e).
Hypothesis HIf :
  forall l c cond tb el eb,
    Q cond -> Forall Q tb ->
    Forall (fun cb => Q (fst cb) /\ Forall Q (snd cb)) el ->
    match eb with Some b => Forall Q b | None => True end ->
    Q (IfNode l c cond tb el eb).
Hypothesis HWhile :
  forall l c cond b, Q cond -> Forall Q b -> Q (WhileNode l c cond b).
Hypothesis HFunctionDef :
  forall l c f ps b, Forall Q b -> Q (FunctionDefNode l c f ps b).
Hypothesis HReturn :
  forall l c rv,
    match rv with Some e => Q e | None => True end -> Q (ReturnNode l c rv).
Hypothesis HCall :
  forall l c f args, Q f -> Forall Q args -> Q (CallNode l c f args).

Fixpoint node_induction (n : node) : Q n :=
  let all := fix all (l : list node) : Forall Q l :=
    match l with
    | [] => @List.Forall_nil node Q
    | x :: r => @List.Forall_cons node Q x r (node_induction x) (all r)
    end in
  match n with
  | NumberNode l c v => HNumber l c v
  | StringNode l c v => HString l c v
  | IdentifierNode l c x => HIdentifier l c x
  | BinaryOpNode l c a op b =>
      HBinaryOp l c a op b (node_induction a) (node_induction b)
  | AssignmentNode l c x e => HAssignment l c x e (node_induction e)
  | IfNode l c cond tb el eb =>
      HIf l c cond tb el eb (node_induction cond) (all tb)
        ((fix all_elifs (l : list (node * list node)) :=
            match l return Forall (fun cb => Q (fst cb) /\ Forall Q (snd cb)) l
            with
            | [] => @List.Forall_nil _ _
            | cb :: r =>
                @List.Forall_cons _ _ cb r
                  (conj (node_induction (fst cb)) (all (snd cb)))
                  (all_elifs r)
            end) el)
        (match eb return match eb with Some b => Forall Q b | None => True end
         with
         | Some b => all b
         | None => I
         end)
  | WhileNode l c cond b => HWhile l c cond b (node_induction cond) (all b)
  | FunctionDefNode l c f ps b => HFunctionDef l c f ps b (all b)
  | ReturnNode l c rv =>
      HReturn l c rv
        (match rv return match rv with Some e => Q e | None => True end with
         | Some e => node_induction e
         | None => I
         end)
  | CallNode l c f args => HCall l c f args (node_induction f) (all args)
  end.

End NodeInduction.

(** Every name the table holds is bound in a scope around the node. *)
Definition covered (ctx : gset string) (t : SymbolTable) : Prop :=
  forall name, lookup name t = true -> name ∈ ctx.

(** Every read is of a name bound around it. *)
Definition all_bound (rs : list read) : Prop :=
  Forall (fun rd => read_bound rd = true) rs.

(** What a visit does on a table whose names are all bound around the
    node: it succeeds, adding the node's bindings to the top scope, when
    every read is of a bound name and was declared in time; otherwise it
    stops at a read with only bound reads before it, and names it. *)
Definition visited (rs : list read) (D top : gset string) (below : SymbolTable)
    (r : visit_result) : Prop :=
  (r = inl ((D ∪ top) :: below) /\ all_bound rs)
  \/ (exists pre rd post,
        rs = (pre ++ rd :: post)%list /\ all_bound pre
        /\ r = inr (CompilerError (read_name rd) (read_line rd))).

(** The statement proved of every node, and of every list of them. *)
Definition visit_spec (ctx : gset string) (n : node) : Prop :=
  forall top below,
    covered ctx (top :: below) -> decls n ⊆ ctx ->
    visited (scoped_reads ctx n) (decls n) top below (visit n (top :: below)).

(** Nodes on a given line. *)
Abbreviation ident_at l x := (IdentifierNode (Some l) None x) (only parsing).
Abbreviation print_at l e :=
  (CallNode (Some l) None (IdentifierNode (Some l) None "print") [e])
  (only parsing).

(** print(a + b), on line 1 *)
Definition two_unbound_reads : Program :=
  {| body := [ print_at 1 (BinaryOpNode (Some 1) None
                             (ident_at 1 "a") "+" (ident_at 1 "b")) ] |}.

(** y = print, on line 1 *)
Definition reads_the_builtin : Program :=
  {| body := [ AssignmentNode (Some 1) None "y" (ident_at 1 "print") ] |}.

(** def f(a): b = a, followed by nothing *)
Definition local_binding : node :=
  FunctionDefNode None None "f" ["a"]
    [AssignmentNode None None "b" (IdentifierNode None None "a")].

(** The names some scope of the table holds. *)
Definition visible (t : SymbolTable) : gset string := ⋃ t.

Section Order.

Variable decls' : node -> gset string.
Variable reads_in_order : gset string -> node -> list read.

(** The reads of a list of nodes visited one after the other: each
    node is read with the names the ones before it have bound. *)
Fixpoint reads_in_order_list (seen : gset string) (l : list node)
    : list read :=
  match l with
  | [] => []
  | n :: rest =>
      (reads_in_order seen n
       ++ reads_in_order_list (seen ∪ decls' n) rest)%list
  end.

Fixpoint reads_in_order_elifs (seen : gset string)
    (l : list (node * list node)) : list read :=
  match l with
  | [] => []
  | (c, b) :: rest =>
      (reads_in_order seen c
       ++ reads_in_order_list (seen ∪ decls' c) b
       ++ reads_in_order_elifs
            (seen ∪ decls' c ∪ decls_list decls' b) rest)%list
  end.

End Order.

(** The identifiers a node reads as values, in the order of the visit,
    each marked with whether its name is in [seen] by then: [seen]
    holds the names visible when the visit of the node begins, and
    grows by what the visit has bound so far; the body of a function
    is read with the function's name and its parameters added. *)
Fixpoint reads_in_order (seen : gset string) (n : node) : list read :=
  match n with
  | NumberNode _ _ _ | StringNode _ _ _ => []
  | IdentifierNode lineno _ name =>
      [ {| read_name := name; read_line := lineno;
           read_bound := bool_decide (name ∈ seen) |} ]
  | BinaryOpNode _ _ l _ r =>
      reads_in_order seen l ++ reads_in_order (seen ∪ decls l) r
  | AssignmentNode _ _ _ rhs => reads_in_order seen rhs
  | IfNode _ _ cond then_body elifs else_body =>
      reads_in_order seen cond
      ++ reads_in_order_list decls reads_in_order (seen ∪ decls cond) then_body
      ++ reads_in_order_elifs decls reads_in_order
           (seen ∪ decls cond ∪ decls_list decls then_body) elifs
      ++ match else_body with
         | Some b =>
             reads_in_order_list decls reads_in_order
               (seen ∪ decls cond ∪ decls_list decls then_body
                ∪ decls_elifs decls elifs) b
         | None => []
         end
  | WhileNode _ _ cond body =>
      reads_in_order seen cond
      ++ reads_in_order_list decls reads_in_order (seen ∪ decls cond) body
  | FunctionDefNode _ _ name params body =>
      reads_in_order_list decls reads_in_order
        (seen ∪ {[ name ]} ∪ list_to_set params) body
  | ReturnNode _ _ rv =>
      match rv with Some e => reads_in_order seen e | None => [] end
  | CallNode _ _ func args =>
      match func with
      | IdentifierNode _ _ _ =>
          reads_in_order_list decls reads_in_order seen args
      | _ =>
          reads_in_order seen func
          ++ reads_in_order_list decls reads_in_order (seen ∪ decls func) args
      end
  end%list.

(** The first read of the list whose name was not bound in time. *)
Fixpoint first_untimely (rs : list read) : option read :=
  match rs with
  | [] => None
  | rd :: rest => if read_bound rd then first_untimely rest else Some rd
  end.

(** What the checker answers on reads marked in order. *)
Definition verdict (rs : list read) : analysis :=
  match first_untimely rs with
  | None => Accepted
  | Some rd => Rejected (read_name rd) (read_line rd)
  end.

(** x = y, then y = 1 *)
Definition use_before_assignment : Program :=
  {| body := [ AssignmentNode (Some 1) None "x"
                 (IdentifierNode (Some 1) None "y");
               AssignmentNode (Some 2) None "y"
                 (NumberNode (Some 2) None (NInt 1)) ] |}.

(** The result of visiting what reads [rs] and binds [D], from the
    table [top :: below] in which the reads are marked: the table with
    [D] added when every read is timely, the error that names the
    first read that is not otherwise. *)
Definition checked (rs : list read) (D top : gset string) (below : SymbolTable)
    (r : visit_result) : Prop :=
  match first_untimely rs with
  | None => r = inl ((D ∪ top) :: below)
  | Some rd => r = inr (CompilerError (read_name rd) (read_line rd))
  end.

Definition check_spec (n : node) : Prop :=
  forall top below,
    checked (reads_in_order (visible (top :: below)) n) (decls n) top below
      (visit n (top :: below)).

(** [r'] is the read [r], marked with whether its name is bound when
    the visit comes to it: a name bound nowhere around the read is not
    bound by then either. *)
Definition same_read (r r' : read) : Prop :=
  read_name r' = read_name r /\ read_line r' = read_line r
  /\ (read_bound r = false -> read_bound r' = false).

(** x = y on line 1, y = 1 on line 2, print(z) on line 3 *)
Definition late_and_unbound : Program :=
  {| body := [ AssignmentNode (Some 1) None "x" (ident_at 1 "y");
               AssignmentNode (Some 2) None "y"
                 (NumberNode (Some 2) None (NInt 1));
               print_at 3 (ident_at 3 "z") ] |}.

Definition reads_agree (n : node) : Prop :=
  forall ctx seen : gset string,
    seen ⊆ ctx -> decls n ⊆ ctx ->
    Forall2 same_read (scoped_reads ctx n) (reads_in_order seen n).

End SemanticSpec.

(** ** The lexer and the parser *)

Module ParserSpec.

Import Lexer Parser.

(** The characters a Rocq string cannot spell. *)
Definition newline : string := String (ascii_of_nat 10) "".
Definition double_quote : string := String (ascii_of_nat 34) "".

(** A host token that starts at line [l], column [c]. *)
Definition host_token (ty : tok_type) (s : string) (l c : nat) (line : string)
    : TokenInfo :=
  {| tok_type_of := ty; tok_str := s; tok_start := (l, c);
     tok_end := (l, c + String.length s); tok_line := line |}.

(** What the host's tokenizer (CPython 3.11) yields for the one-line
    text [x = $]: the character it does not recognise is an ERRORTOKEN
    (and so is the blank before it), and nothing is raised. *)
Definition unrecognized_character : host_tokens :=
  let line := "x = $" ++ newline in
  {| yielded :=
       [ host_token NAME "x" 1 0 line; host_token OP "=" 1 2 line;
         host_token ERRORTOKEN " " 1 3 line; host_token ERRORTOKEN "$" 1 4 line;
         host_token NEWLINE newline 1 5 line; host_token ENDMARKER "" 2 0 "" ];
     raised := None |}.

(** What it yields for the one-line text made of [x = ], a double
    quote and [abc], a string literal left open: the quote is an
    ERRORTOKEN and the rest a NAME. *)
Definition unterminated_string : host_tokens :=
  let line := "x = " ++ double_quote ++ "abc" ++ newline in
  {| yielded :=
       [ host_token NAME "x" 1 0 line; host_token OP "=" 1 2 line;
         host_token ERRORTOKEN " " 1 3 line;
         host_token ERRORTOKEN double_quote 1 4 line;
         host_token NAME "abc" 1 5 line;
         host_token NEWLINE newline 1 8 line; host_token ENDMARKER "" 2 0 "" ];
     raised := None |}.

(** The claim as the specification words it, on the host's report of
    the offending character: tokenization fails. *)
Definition lexical_errors_fail : Prop :=
  forall gen t,
    t ∈ yielded gen -> tok_type_of t = ERRORTOKEN ->
    failure (tokenize_source gen) <> None.

(** The host token types the lexer lets fall to its [else] branch. *)
Definition dropped (ty : tok_type) : bool :=
  match ty with
  | COMMENT | NL | ERRORTOKEN | OTHER _ => true
  | _ => false
  end.

(** Tokens as the lexer makes them. *)
Definition name_token (x : string) (l c : nat) : Token :=
  {| type := "NAME"; value := x; lineno := l; col := c |}.
Definition op_token (x : string) (l c : nat) : Token :=
  {| type := "OP"; value := x; lineno := l; col := c |}.
Definition newline_token (l c : nat) : Token :=
  {| type := "NEWLINE"; value := newline; lineno := l; col := c |}.

(** The ten binary operators of the grammar, their symbols and their
    levels. *)
Inductive binary_operator :=
| Mul | Div | Add | Sub | Eq | Ne | Lt | Le | Gt | Ge.

Definition symbol (o : binary_operator) : string :=
  match o with
  | Mul => "*" | Div => "/" | Add => "+" | Sub => "-"
  | Eq => "==" | Ne => "!=" | Lt => "<" | Le => "<=" | Gt => ">" | Ge => ">="
  end.

Definition level (o : binary_operator) : nat :=
  match o with
  | Mul | Div => 3
  | Add | Sub => 2
  | _ => 1
  end.

(** Which of two operators in a row takes the operand between them:
    the first, unless the second is of a higher level. *)
Definition grouped (o1 o2 : binary_operator) (a b c : node) : node :=
  if (level o2 <=? level o1)%nat
  then binary (binary a (symbol o1) b) (symbol o2) c
  else binary a (symbol o1) (binary b (symbol o2) c).

(** The tokens of [x o1 y o2 z] and the end of the line. *)
Definition two_operators (o1 o2 : binary_operator) (x y z : Token)
    (rest : list Token) : list Token :=
  x :: op_token (symbol o1) (lineno x) (col x + 2)
    :: y :: op_token (symbol o2) (lineno y) (col y + 2)
    :: z :: newline_token (lineno z) (col z + 1) :: rest.

Definition identifier_of (t : Token) : node :=
  IdentifierNode (Some (lineno t)) (Some (col t)) (value t).

(** What the host's tokenizer yields for the one-line text
    [2 + 3 * 4]. *)
Definition precedence_text : host_tokens :=
  let line := "2 + 3 * 4" ++ newline in
  {| yielded :=
       [ host_token NUMBER "2" 1 0 line; host_token OP "+" 1 2 line;
         host_token NUMBER "3" 1 4 line; host_token OP "*" 1 6 line;
         host_token NUMBER "4" 1 8 line;
         host_token NEWLINE newline 1 9 line; host_token ENDMARKER "" 2 0 "" ];
     raised := None |}.

(** [2 + (3 * 4)], with the positions of the text. *)
Definition precedence_tree : node :=
  BinaryOpNode (Some 1) (Some 0)
    (NumberNode (Some 1) (Some 0) (NInt 2)) "+"
    (BinaryOpNode (Some 1) (Some 4)
       (NumberNode (Some 1) (Some 4) (NInt 3)) "*"
       (NumberNode (Some 1) (Some 8) (NInt 4))).

(** The tokens from the current one to the end of the list. *)
Definition remaining (p : parser) : nat := length (tokens p) - pos p.

(** [p'] is [p] after at least [least] tokens were consumed: the same
    tokens, a position not before the one of [p] and not past the end
    of the tokens (unless [p] was), and [least] tokens fewer ahead. *)
Definition consumed (least : nat) (p p' : parser) : Prop :=
  tokens p' = tokens p /\ pos p <= pos p'
  /\ pos p' <= Nat.max (pos p) (length (tokens p))
  /\ remaining p' + least <= remaining p.

(** Whenever [m] returns, it has consumed [least] tokens at least and
    its result has [Q]. *)
Definition returns_at {A} (least : nat) (Q : A -> Prop) (m : P A)
    (p : parser) : Prop :=
  forall a p', m p = POk a p' -> consumed least p p' /\ Q a.

Definition returns {A} (least : nat) (Q : A -> Prop) (m : P A) : Prop :=
  forall p, returns_at least Q m p.

(** The fuel was enough. *)
Definition ends {A} (m : P A) (p : parser) : Prop := m p <> POutOfFuel.

(** The ten operators of [comparison], [arith] and [term]. *)
Definition operators : list string :=
  ["*"; "/"; "+"; "-"; "=="; "!="; "<"; "<="; ">"; ">="].

Definition is_operator (op : string) : bool :=
  existsb (String.eqb op) operators.

(** The trees of the grammar's expressions: literals, names, the ten
    operators on two expressions, and calls of a name on expressions. *)
Fixpoint is_expression (n : node) : bool :=
  match n with
  | NumberNode _ _ _ | StringNode _ _ _ | IdentifierNode _ _ _ => true
  | BinaryOpNode _ _ l op r =>
      is_operator op && is_expression l && is_expression r
  | CallNode _ _ func args =>
      match func with
      | IdentifierNode _ _ _ => forallb is_expression args
      | _ => false
      end
  | _ => false
  end.

(** The trees of the grammar's statements: an expression, or an
    assignment, a return, an if, a while or a def whose conditions and
    values are expressions and whose bodies are statements. *)
Fixpoint is_statement (n : node) : bool :=
  match n with
  | AssignmentNode _ _ _ rhs => is_expression rhs
  | IfNode _ _ cond then_body elifs else_body =>
      is_expression cond && forallb is_statement then_body
      && forallb (fun cb => let '(c, b) := cb in
                            is_expression c && forallb is_statement b) elifs
      && match else_body with
         | Some b => forallb is_statement b
         | None => true
         end
  | WhileNode _ _ cond body => is_expression cond && forallb is_statement body
  | FunctionDefNode _ _ _ _ body => forallb is_statement body
  | ReturnNode _ _ rv =>
      match rv with Some e => is_expression e | None => true end
  | e => is_expression e
  end.

Definition expression_shaped (n : node) : Prop := is_expression n = true.
Definition statement_shaped (n : node) : Prop := is_statement n = true.
Definition expressions_shaped (l : list node) : Prop :=
  forallb is_expression l = true.
Definition statements_shaped (l : list node) : Prop :=
  forallb is_statement l = true.
Definition anything {A} (a : A) : Prop := True.

Definition elifs_shaped (l : list (node * list node)) : Prop :=
  forallb (fun cb => let '(c, b) := cb in
                     is_expression c && forallb is_statement b) l = true.

Definition else_shaped (eb : option (list node)) : Prop :=
  match eb with Some b => statements_shaped b | None => True end.

Definition returned_shaped (rv : option node) : Prop :=
  match rv with Some e => expression_shaped e | None => True end.

(** The tokens of [( x o1 y ) o2 z] and of [x o1 ( y o2 z )], each
    followed by the end of the line. *)
Definition left_parenthesized (o1 o2 : binary_operator) (x y z : Token)
    (rest : list Token) : list Token :=
  op_token "(" (lineno x) (col x) :: x
    :: op_token (symbol o1) (lineno x) (col x + 2)
    :: y :: op_token ")" (lineno y) (col y + 1)
    :: op_token (symbol o2) (lineno y) (col y + 3)
    :: z :: newline_token (lineno z) (col z + 1) :: rest.

Definition right_parenthesized (o1 o2 : binary_operator) (x y z : Token)
    (rest : list Token) : list Token :=
  x :: op_token (symbol o1) (lineno x) (col x + 2)
    :: op_token "(" (lineno y) (col y) :: y
    :: op_token (symbol o2) (lineno y) (col y + 2)
    :: z :: op_token ")" (lineno z) (col z + 1)
    :: newline_token (lineno z) (col z + 2) :: rest.

(** [m2] does what [m1] does wherever [m1] has fuel enough. *)
Definition prefines {A} (m1 m2 : P A) : Prop :=
  forall p, m1 p = POutOfFuel \/ m2 p = m1 p.

End ParserSpec.

(** ** The generator *)

Module CodegenSpec.

Import Codegen.

(** The generator knows the operator. *)
Definition known_operator (op : string) : bool :=
  match arith_ops op, compare_ops_map op with
  | None, None => false
  | _, _ => true
  end.

(** Every operator of the tree, the bodies included, is known. *)
Fixpoint supported (n : node) : bool :=
  match n with
  | NumberNode _ _ _ | StringNode _ _ _ | IdentifierNode _ _ _ => true
  | BinaryOpNode _ _ l op r => supported l && supported r && known_operator op
  | AssignmentNode _ _ _ rhs => supported rhs
  | IfNode _ _ cond then_body elifs else_body =>
      supported cond && forallb supported then_body
      && forallb (fun cb => let '(c, b) := cb in
                            supported c && forallb supported b) elifs
      && match else_body with
         | Some b => forallb supported b
         | None => true
         end
  | WhileNode _ _ cond body => supported cond && forallb supported body
  | FunctionDefNode _ _ _ _ body => forallb supported body
  | ReturnNode _ _ rv => match rv with Some e => supported e | None => true end
  | CallNode _ _ func args => supported func && forallb supported args
  end.

Definition succeeds {A} (r : generated A) : bool :=
  match r with inl _ => true | inr _ => false end.

(** The statement classes of the host's [ast] among the nodes the
    generator builds. *)
Definition is_py_statement (p : py_node) : bool :=
  match p with
  | PyAssign _ _ _ | PyIf _ _ _ _ | PyWhile _ _ _ _
  | PyFunctionDef _ _ _ _ | PyReturn _ _ | PyExpr _ _ => true
  | _ => false
  end.

(** A literal, a name or an operator on two operands. *)
Definition is_bare_expression (n : node) : bool :=
  match n with
  | NumberNode _ _ _ | StringNode _ _ _ | IdentifierNode _ _ _
  | BinaryOpNode _ _ _ _ _ => true
  | _ => false
  end.

End CodegenSpec.

(** ** The stages together *)

Module PipelineSpec.

Import Lexer Parser ParserSpec.

(** An assignment or a function definition: the statements that store
    a name in the current frame. *)
Definition is_binding (n : node) : bool :=
  match n with
  | AssignmentNode _ _ _ _ | FunctionDefNode _ _ _ _ _ => true
  | _ => false
  end.

(** The tokens of the line [1 + 2]. *)
Definition bare_sum : list Token :=
  [ {| type := "NUMBER"; value := "1"; lineno := 1; col := 0 |};
    op_token "+" 1 2;
    {| type := "NUMBER"; value := "2"; lineno := 1; col := 4 |};
    newline_token 1 5;
    {| type := "EOF"; value := ""; lineno := 2; col := 0 |} ].

(** The program of that line. *)
Definition bare_sum_program : Program :=
  {| body := [ BinaryOpNode (Some 1) (Some 0)
                 (NumberNode (Some 1) (Some 0) (NInt 1)) "+"
                 (NumberNode (Some 1) (Some 4) (NInt 2)) ] |}.

(** The tokens of [if x:] with the body [x = 1]. *)
Definition if_with_assignment : list Token :=
  [ name_token "if" 1 0; name_token "x" 1 3; op_token ":" 1 4;
    newline_token 1 5;
    {| type := "INDENT"; value := "    "; lineno := 2; col := 0 |};
    name_token "x" 2 4; op_token "=" 2 6;
    {| type := "NUMBER"; value := "1"; lineno := 2; col := 8 |};
    newline_token 2 9;
    {| type := "DEDENT"; value := ""; lineno := 3; col := 0 |};
    {| type := "EOF"; value := ""; lineno := 3; col := 0 |} ].

(** A host that refuses every text as a float and as a string
    literal; the sample texts have neither. *)
Definition refuse_float (s : string) : option float := None.
Definition refuse_literal (s : string) : option string := None.

(** A statement of a straight-line program: an expression of the
    grammar, or the assignment of one. *)
Definition is_straight (n : node) : bool :=
  match n with
  | AssignmentNode _ _ _ rhs => is_expression rhs
  | e => is_expression e
  end.

Definition is_function (v : Host.value) : bool :=
  match v with
  | FunctionValue _ _ _ _ => true
  | _ => false
  end.

(** The table of the checker and the state of the interpreter agree:
    the stack is one frame, which binds every name the table holds,
    and binds no name to a function. *)
Definition agrees (t : Semantic.SymbolTable) (st : state) : Prop :=
  exists g,
    env_stack st = [g]
    /\ (forall x, Semantic.lookup x t = true -> is_Some (g !! x))
    /\ (forall x v, g !! x = Some v -> is_function v = false).

Definition not_NameNotFound (e : exn) : Prop :=
  forall x l, e <> NameError (NameNotFound x l).

(** What an evaluation that started in agreement with the table [t]
    ends with, when [t'] is the table after the visit: it ends, in
    agreement with [t'] or by an exception that is not the NameError
    of a name. *)
Definition sound {A} (t' : Semantic.SymbolTable) (Q : A -> Prop)
    (r : outcome A) : Prop :=
  match r with
  | Normal a st' => agrees t' st' /\ Q a
  | Raised e _ => not_NameNotFound e
  | OutOfFuel => False
  end.

(** The depth of the evaluator's recursion on a node of a straight-line
    program: one more than on the deepest node it evaluates. *)
Fixpoint height (n : node) : nat :=
  match n with
  | BinaryOpNode _ _ l _ r => S (Nat.max (height l) (height r))
  | AssignmentNode _ _ _ rhs => S (height rhs)
  | CallNode _ _ _ args => S (list_max (map height args))
  | _ => 1
  end.

Definition no_function (v : Host.value) : Prop := is_function v = false.

(** x = 1, then print(x) *)
Definition assign_and_print : Program :=
  {| body := [ AssignmentNode (Some 1) (Some 0) "x"
                 (NumberNode (Some 1) (Some 4) (NInt 1));
               CallNode (Some 2) (Some 0)
                 (IdentifierNode (Some 2) (Some 0) "print")
                 [IdentifierNode (Some 2) (Some 6) "x"] ] |}.

End PipelineSpec.

(** * Theorems *)

Set Warnings "-clear-no-such-hyp".

(** ** The interpreter *)

Module InterpreterFacts.

Import InterpreterSpec.

Lemma is_zero_value_cases r :
  is_zero_value r = true ->
  as_num r = Some (NumInt 0) \/ exists f, as_num r = Some (NumFloat f) /\ is_zero f = true.
Proof.
  unfold is_zero_value. destruct (as_num r) as [[z|f]|]; intros H; try discriminate.
  - left. apply Z.eqb_eq in H. by subst.
  - right. eauto.
Qed.

(** What the host raises for [l / r] when [r] is zero. *)
Lemma py_truediv_by_zero l r :
  is_zero_value r = true ->
  py_truediv l r =
    inr (match as_num l with
         | None => TypeError
         | Some a =>
             if is_int_like r then ZeroDivisionError
             else match num_to_float a with
                  | inl _ => ZeroDivisionError
                  | inr e => e
                  end
         end).
Proof.
  intros Hz. unfold py_truediv, is_int_like.
  destruct (is_zero_value_cases r Hz) as [Hr | (f & Hr & Hf)].
  - assert (Hi : as_int r = Some 0%Z).
    { destruct r as [| |[]| | | |]; simpl in *; congruence. }
    rewrite Hr, Hi. destruct (as_num l) as [[a|x]|]; try reflexivity.
  - assert (Hi : as_int r = None).
    { destruct r as [| |[]| | | |]; simpl in *; congruence. }
    rewrite Hr, Hi. destruct (as_num l) as [[a|x]|]; simpl; try reflexivity.
    + destruct (int_to_float a); [by rewrite Hf | reflexivity].
    + by rewrite Hf.
Qed.

Lemma eval_BinaryOpNode_values ev lhs op rhs st l st1 r st2 :
  ev lhs st = Normal l st1 ->
  ev rhs st1 = Normal r st2 ->
  eval_BinaryOpNode ev lhs op rhs st = apply_operator op l r st2.
Proof.
  intros Hl Hr. unfold eval_BinaryOpNode, bind. by rewrite Hl, Hr.
Qed.

(** C5 (amended). When the right operand of [/] evaluates to zero the
    operation raises a host error and yields no value. The error is
    ZeroDivisionError when the left operand is a number (and, where the
    zero is a float, an int that fits a float); it is TypeError when the
    left operand is not a number. *)
Theorem division_by_zero_raises fuel ln c lhs rhs st l st1 r st2 :
  eval_expr fuel lhs st = Normal l st1 ->
  eval_expr fuel rhs st1 = Normal r st2 ->
  is_zero_value r = true ->
  exists e,
    eval_expr (S fuel) (BinaryOpNode ln c lhs "/" rhs) st
    = Raised (HostError e) st2
    /\ (is_number l = true ->
        is_int_like r = true \/ fits_float l = true ->
        e = ZeroDivisionError)
    /\ (is_number l = false -> e = TypeError).
Proof.
  intros Hl Hr Hz. unfold eval_expr in *.
  change (eval_stmt (S fuel) (BinaryOpNode ln c lhs "/" rhs))
    with (eval_BinaryOpNode (eval_stmt fuel) lhs "/" rhs).
  rewrite (eval_BinaryOpNode_values _ _ _ _ _ _ _ _ _ Hl Hr).
  unfold apply_operator. simpl String.eqb. cbv iota.
  rewrite (py_truediv_by_zero l r Hz). simpl.
  eexists. split; [reflexivity|].
  unfold is_number, fits_float.
  destruct (as_num l) as [a|]; split; intros H1; try discriminate; try reflexivity.
  intros [H2|H2].
  - by rewrite H2.
  - destruct (num_to_float a); [|discriminate].
    by destruct (is_int_like r).
Qed.

(** C5, an instance: [1 / 0]. *)
Lemma division_by_zero_raises_witness :
  exists e,
    eval_expr 2 (BinaryOpNode None None (NumberNode None None (NInt 1)) "/"
                   (NumberNode None None (NInt 0))) initial_state
    = Raised (HostError e) initial_state
    /\ (is_number (VInt 1) = true ->
        is_int_like (VInt 0) = true \/ fits_float (VInt 1) = true ->
        e = ZeroDivisionError)
    /\ (is_number (VInt 1) = false -> e = TypeError).
Proof.
  apply (division_by_zero_raises 1 None None
           (NumberNode None None (NInt 1)) (NumberNode None None (NInt 0))
           initial_state (VInt 1) initial_state (VInt 0) initial_state);
    reflexivity.
Defined.

(** C5, as worded, fails: a string divided by [0] raises TypeError. *)
Lemma division_by_zero_claim_fails : ~ division_by_zero_claim.
Proof.
  intros H.
  specialize (H 1 None None (StringNode None None "a")
                (NumberNode None None (NInt 0))
                initial_state (VStr "a") initial_state (VInt 0) initial_state
                eq_refl eq_refl eq_refl).
  vm_compute in H. discriminate H.
Qed.

Lemma eval_stmt_CallNode fuel ln c func args :
  eval_stmt (S fuel) (CallNode ln c func args)
  = eval_CallNode (eval_stmt fuel) ln func args.
Proof. reflexivity. Qed.

Lemma eval_CallNode_user ev ln l' c' name args st fid params body env vs st1 :
  lookup_stack name (env_stack st) = Some (FunctionValue fid params body env) ->
  eval_args ev args st = Normal vs st1 ->
  eval_CallNode ev ln (IdentifierNode l' c' name) args st
  = call_function ev params body env vs st1.
Proof.
  intros Hf Ha. unfold eval_CallNode, bind, resolve_callee.
  by rewrite Hf, Ha.
Qed.

Lemma bind_params_not_param (p : string) params vs (env : gmap string value) :
  p ∉ params -> bind_params params vs env !! p = env !! p.
Proof.
  revert vs env. induction params as [|q ps IH]; intros vs env Hp; [done|].
  apply not_elem_of_cons in Hp as [Hne Hp].
  destruct vs as [|a rest]; simpl; rewrite IH by done;
    by rewrite lookup_insert_ne.
Qed.

Lemma bind_params_no_args (p : string) params (env : gmap string value) :
  p ∈ params \/ env !! p = Some VNone ->
  bind_params params [] env !! p = Some VNone.
Proof.
  revert env. induction params as [|q ps IH]; intros env H; simpl.
  - destruct H as [H|H]; [by apply elem_of_nil in H | done].
  - apply IH. destruct (decide (p = q)) as [->|Hne].
    + right. apply lookup_insert_eq.
    + destruct H as [H|H].
      * apply elem_of_cons in H as [H|H]; [done | by left].
      * right. by rewrite lookup_insert_ne.
Qed.

Lemma bind_params_missing params vs (env : gmap string value) (i : nat) (p : string) :
  length vs <= i -> params !! i = Some p ->
  bind_params params vs env !! p = Some VNone.
Proof.
  revert vs env i. induction params as [|q ps IH]; intros vs env i Hi Hp.
  - by rewrite lookup_nil in Hp.
  - destruct vs as [|a rest].
    + apply (bind_params_no_args p (q :: ps)). left.
      by apply list_elem_of_lookup_2 in Hp.
    + destruct i as [|i]; simpl in Hi; [lia|].
      simpl. apply (IH rest _ i); [lia | done].
Qed.

Lemma bind_params_take params vs (env : gmap string value) :
  bind_params params vs env = bind_params params (take (length params) vs) env.
Proof.
  revert vs env. induction params as [|q ps IH]; intros vs env; [done|].
  destruct vs as [|a rest]; simpl; [done | apply IH].
Qed.

Lemma bind_params_positional params vs (env : gmap string value) (i : nat) (p : string) v :
  NoDup params -> params !! i = Some p -> vs !! i = Some v ->
  bind_params params vs env !! p = Some v.
Proof.
  revert vs env i. induction params as [|q ps IH]; intros vs env i Hnd Hp Hv.
  - by rewrite lookup_nil in Hp.
  - apply NoDup_cons in Hnd as [Hq Hnd].
    destruct vs as [|a rest]; [by rewrite lookup_nil in Hv|].
    destruct i as [|i]; simpl in *.
    + injection Hp as ->. injection Hv as ->.
      rewrite bind_params_not_param by done. apply lookup_insert_eq.
    + by apply (IH rest _ i).
Qed.

Lemma eval_args_app ev xs ys st :
  eval_args ev (xs ++ ys) st
  = (let! v1 := eval_args ev xs in
     let! v2 := eval_args ev ys in
     ret (v1 ++ v2)%list) st.
Proof.
  revert st. induction xs as [|x xs IH]; intros st; simpl;
    unfold bind, ret in *; simpl.
  - by destruct (eval_args ev ys st).
  - destruct (ev x st) as [v st'| |]; try done.
    rewrite IH.
    destruct (eval_args ev xs st') as [v1 st1| |]; try done.
    by destruct (eval_args ev ys st1).
Qed.

Lemma call_function_unfold ev params body env vs st :
  call_function ev params body env vs st
  = match exec_stmts ev body (pushed (bind_params params vs env) st) with
    | Raised (ReturnException v) st' => (let! _ := pop_env in ret v) st'
    | Raised e st' => Raised e st'
    | Normal _ st' => (let! _ := pop_env in ret VNone) st'
    | OutOfFuel => OutOfFuel
    end.
Proof. reflexivity. Qed.

Lemma eval_CallNode_identifier ev ln l' c' name args st fid params body env :
  lookup_stack name (env_stack st) = Some (FunctionValue fid params body env) ->
  eval_CallNode ev ln (IdentifierNode l' c' name) args st
  = match eval_args ev args st with
    | Normal vs st1 => call_function ev params body env vs st1
    | Raised e st1 => Raised e st1
    | OutOfFuel => OutOfFuel
    end.
Proof.
  intros Hf. unfold eval_CallNode, bind, resolve_callee. rewrite Hf.
  by destruct (eval_args ev args st).
Qed.

Lemma pop_pushed_Normal (v : value) newenv st :
  (let! _ := pop_env in ret v) (pushed newenv st) = Normal v st.
Proof. by destruct st. Qed.

Lemma refines_refl {A} (m : M A) : refines m m.
Proof. intros st. by right. Qed.

Lemma refines_bind {A B} (m1 m2 : M A) (k1 k2 : A -> M B) :
  refines m1 m2 -> (forall a, refines (k1 a) (k2 a)) ->
  refines (bind m1 k1) (bind m2 k2).
Proof.
  intros Hm Hk st. unfold bind.
  destruct (Hm st) as [H|H]; [left; by rewrite H|].
  rewrite H. destruct (m1 st) as [a st'| |]; [apply Hk | by right | by left].
Qed.

Create HintDb fuel.
#[local] Hint Resolve refines_refl refines_bind : fuel.

Section Monotone.

Variables ev1 ev2 : evaluator.
Hypothesis Hev : ev_refines ev1 ev2.

Lemma exec_stmts_refines body :
  refines (exec_stmts ev1 body) (exec_stmts ev2 body).
Proof.
  induction body as [|s rest IH]; simpl; auto with fuel.
Qed.

Lemma eval_args_refines args :
  refines (eval_args ev1 args) (eval_args ev2 args).
Proof.
  induction args as [|a rest IH]; simpl; auto 6 with fuel.
Qed.

Lemma run_block_refines body :
  refines (run_block ev1 body) (run_block ev2 body).
Proof.
  unfold run_block. auto 8 using exec_stmts_refines with fuel.
Qed.

Lemma eval_elifs_refines elifs else_body :
  refines (eval_elifs ev1 elifs else_body) (eval_elifs ev2 elifs else_body).
Proof.
  induction elifs as [|[c b] rest IH]; simpl.
  - destruct else_body as [[|s ss]|]; auto using run_block_refines with fuel.
  - apply refines_bind; [apply Hev|]. intros v.
    destruct (truthy v); auto using run_block_refines.
Qed.

Lemma call_function_refines params body env vs :
  refines (call_function ev1 params body env vs)
          (call_function ev2 params body env vs).
Proof.
  intros st. rewrite !call_function_unfold.
  destruct (exec_stmts_refines body (pushed (bind_params params vs env) st))
    as [H|H]; [left; by rewrite H|].
  rewrite H. right. reflexivity.
Qed.

Lemma resolve_callee_refines ln func :
  refines (resolve_callee ev1 ln func) (resolve_callee ev2 ln func).
Proof.
  destruct func; simpl; auto with fuel.
Qed.

Lemma eval_CallNode_refines ln func args :
  refines (eval_CallNode ev1 ln func args) (eval_CallNode ev2 ln func args).
Proof.
  unfold eval_CallNode.
  apply refines_bind; [apply resolve_callee_refines|]. intros fn.
  apply refines_bind; [apply eval_args_refines|]. intros vs.
  destruct fn; auto using call_function_refines with fuel.
Qed.

Lemma eval_IfNode_refines cond then_body elifs else_body :
  refines (eval_IfNode ev1 cond then_body elifs else_body)
          (eval_IfNode ev2 cond then_body elifs else_body).
Proof.
  unfold eval_IfNode. apply refines_bind; [apply Hev|]. intros v.
  destruct (truthy v); auto using run_block_refines, eval_elifs_refines.
Qed.

Lemma eval_WhileNode_refines self cond body :
  refines (eval_WhileNode ev1 self cond body)
          (eval_WhileNode ev2 self cond body).
Proof.
  unfold eval_WhileNode. apply refines_bind; [apply Hev|]. intros v.
  destruct (truthy v); auto using run_block_refines with fuel.
Qed.

End Monotone.

(** One more unit of fuel changes no outcome but [OutOfFuel]. *)
Lemma eval_stmt_refines_S fuel : ev_refines (eval_stmt fuel) (eval_stmt (S fuel)).
Proof.
  induction fuel as [|fuel IH]; intros n.
  - intros st. by left.
  - destruct n as [? ? ?|? ? ?|? ? ?|? ? l op r|? ? x e|? ? c tb el eb
                  |? ? c b|? ? f ps b|? ? rv|ln ? f a];
      try apply refines_refl.
    + change (refines (eval_BinaryOpNode (eval_stmt fuel) l op r)
                     (eval_BinaryOpNode (eval_stmt (S fuel)) l op r)).
      unfold eval_BinaryOpNode. auto 6 with fuel.
    + change (refines (eval_AssignmentNode (eval_stmt fuel) x e)
                     (eval_AssignmentNode (eval_stmt (S fuel)) x e)).
      unfold eval_AssignmentNode. auto 6 with fuel.
    + by apply eval_IfNode_refines.
    + by apply eval_WhileNode_refines.
    + change (refines (eval_ReturnNode (eval_stmt fuel) rv)
                     (eval_ReturnNode (eval_stmt (S fuel)) rv)).
      unfold eval_ReturnNode. destruct rv; auto 6 with fuel.
    + by apply eval_CallNode_refines.
Qed.

Lemma eval_stmt_more_fuel fuel extra n st r :
  eval_stmt fuel n st = r -> r <> OutOfFuel ->
  eval_stmt (extra + fuel) n st = r.
Proof.
  intros Hr Hne. induction extra as [|k IH]; [done|].
  destruct (eval_stmt_refines_S (k + fuel) n st) as [H|H].
  - rewrite IH in H. by subst.
  - change (S k + fuel) with (S (k + fuel)). by rewrite H.
Qed.

Lemma eval_stmt_fuel_le fuel fuel' n st r :
  fuel <= fuel' -> eval_stmt fuel n st = r -> r <> OutOfFuel ->
  eval_stmt fuel' n st = r.
Proof.
  intros Hle Hr Hne. replace fuel' with ((fuel' - fuel) + fuel) by lia.
  by apply eval_stmt_more_fuel.
Qed.

(** A family of computations indexed by fuel, each refined by the next. *)
Lemma refines_more_fuel {A} (m : nat -> M A) :
  (forall f, refines (m f) (m (S f))) ->
  forall f extra st r, m f st = r -> r <> OutOfFuel -> m (extra + f) st = r.
Proof.
  intros Hm f extra st r Hr Hne. induction extra as [|k IH]; [done|].
  destruct (Hm (k + f) st) as [H|H].
  - rewrite IH in H. by subst.
  - change (S k + f) with (S (k + f)). by rewrite H.
Qed.

Lemma refines_fuel_cases {A} (m : nat -> M A) :
  (forall f, refines (m f) (m (S f))) ->
  forall f0 st r, m f0 st = r -> r <> OutOfFuel ->
  forall f, m f st = OutOfFuel \/ m f st = r.
Proof.
  intros Hm f0 st r Hr Hne f.
  destruct (Nat.le_gt_cases f0 f) as [Hle|Hgt].
  - right. replace f with ((f - f0) + f0) by lia.
    by apply refines_more_fuel.
  - destruct (m f st) as [a st'|e st'|] eqn:E; [right|right|by left].
    + rewrite <- Hr. replace f0 with ((f0 - f) + f) by lia.
      symmetry. by apply refines_more_fuel.
    + rewrite <- Hr. replace f0 with ((f0 - f) + f) by lia.
      symmetry. by apply refines_more_fuel.
Qed.

Lemma exec_stmts_refines_S body f :
  refines (exec_stmts (eval_stmt f) body) (exec_stmts (eval_stmt (S f)) body).
Proof. apply exec_stmts_refines, eval_stmt_refines_S. Qed.

Lemma run_block_refines_S body f :
  refines (run_block (eval_stmt f) body) (run_block (eval_stmt (S f)) body).
Proof. apply run_block_refines, eval_stmt_refines_S. Qed.

Lemma run_more_fuel fuel extra p r :
  run fuel p = r -> r <> OutOfFuel -> run (extra + fuel) p = r.
Proof.
  unfold run. apply (refines_more_fuel (fun f => exec_stmts (eval_stmt f) (body p))).
  intros f. apply exec_stmts_refines_S.
Qed.

Lemma bind_Normal {A B} (m : M A) (k : A -> M B) st a st' :
  m st = Normal a st' -> bind m k st = k a st'.
Proof. intros H. unfold bind. by rewrite H. Qed.

Lemma bind_Raised {A B} (m : M A) (k : A -> M B) st e st' :
  m st = Raised e st' -> bind m k st = Raised e st'.
Proof. intros H. unfold bind. by rewrite H. Qed.

Lemma bind_OutOfFuel {A B} (m : M A) (k : A -> M B) st :
  m st = OutOfFuel -> bind m k st = OutOfFuel.
Proof. intros H. unfold bind. by rewrite H. Qed.

Lemma while_condition_holds :
  eval_stmt 2 (binop (ident "i") "<=" (lit 4)) loop_state
  = Normal (VBool true) loop_state.
Proof. reflexivity. Qed.

Lemma while_body_discarded :
  run_block (eval_stmt 3)
    [ assign "total" (binop (ident "total") "+" (ident "i"));
      assign "i" (binop (ident "i") "+" (lit 1)) ] loop_state
  = Normal VNone loop_state.
Proof. reflexivity. Qed.

(** Every iteration starts from the same state. *)
Lemma while_loop_never_ends fuel :
  eval_stmt fuel while_loop loop_state = OutOfFuel.
Proof.
  induction fuel as [|fuel IH]; [done|].
  change (eval_stmt (S fuel) while_loop)
    with (eval_WhileNode (eval_stmt fuel) while_loop
            (binop (ident "i") "<=" (lit 4))
            [ assign "total" (binop (ident "total") "+" (ident "i"));
              assign "i" (binop (ident "i") "+" (lit 1)) ]).
  unfold eval_WhileNode.
  destruct (refines_fuel_cases (fun f => eval_stmt f _)
              (fun f => eval_stmt_refines_S f _)
              _ _ _ while_condition_holds ltac:(done) fuel) as [H|H];
    [by apply bind_OutOfFuel|].
  rewrite (bind_Normal _ _ _ _ _ H). cbn [truthy].
  destruct (refines_fuel_cases (fun f => run_block (eval_stmt f) _)
              (run_block_refines_S _)
              _ _ _ while_body_discarded ltac:(done) fuel) as [H'|H'];
    [by apply bind_OutOfFuel|].
  rewrite (bind_Normal _ _ _ _ _ H'). exact IH.
Qed.

Lemma while_sum_never_ends fuel : run fuel while_sum = OutOfFuel.
Proof.
  unfold run, while_sum. simpl body.
  assert (H1 : eval_stmt 2 (assign "total" (lit 0)) initial_state
               = Normal VNone
                   {| env_stack := [<["total" := VInt 0]> global_env];
                      stdout := []; next_fid := 0 |}) by reflexivity.
  assert (H2 : eval_stmt 2 (assign "i" (lit 1))
                 {| env_stack := [<["total" := VInt 0]> global_env];
                    stdout := []; next_fid := 0 |}
               = Normal VNone loop_state) by reflexivity.
  cbn [exec_stmts].
  destruct (refines_fuel_cases (fun f => eval_stmt f _)
              (fun f => eval_stmt_refines_S f _)
              _ _ _ H1 ltac:(done) fuel) as [H|H];
    [by apply bind_OutOfFuel|].
  rewrite (bind_Normal _ _ _ _ _ H).
  destruct (refines_fuel_cases (fun f => eval_stmt f _)
              (fun f => eval_stmt_refines_S f _)
              _ _ _ H2 ltac:(done) fuel) as [H'|H'];
    [by apply bind_OutOfFuel|].
  rewrite (bind_Normal _ _ _ _ _ H').
  apply bind_OutOfFuel, while_loop_never_ends.
Qed.

(** C1. The claim does not hold of the interpreter. An executed if or
    while body runs in a copy of the current environment, and the copy
    is dropped when the body ends: the program
    [x = 10; print(x); if 1: x = 5], then [print(x)] after the block,
    prints 10 and 10 with any fuel from 3 on, and the program that sums
    1..4 in a while loop and prints the sum afterwards never ends,
    whatever the fuel, for the counter the loop tests is never advanced
    in the enclosing environment. *)
Theorem block_assignment_not_visible_after_block :
  (forall extra,
     run (3 + extra) variables_scope
     = Normal tt
         {| env_stack := [<["x" := VInt 10]> global_env];
            stdout := [[VInt 10]; [VInt 10]];
            next_fid := 0 |})
  /\ (forall fuel, run fuel while_sum = OutOfFuel).
Proof.
  split.
  - intros extra. rewrite Nat.add_comm. by apply run_more_fuel.
  - apply while_sum_never_ends.
Qed.

Lemma definitions_run :
  exec_stmts (eval_stmt 1) [returns_inside_if; returns_directly] initial_state
  = Normal tt after_definitions.
Proof. reflexivity. Qed.

Lemma eval_expr_more_fuel fuel extra n st r :
  eval_expr fuel n st = r -> r <> OutOfFuel ->
  eval_expr (fuel + extra) n st = r.
Proof.
  rewrite Nat.add_comm. apply eval_stmt_more_fuel.
Qed.

(** C2. The claim does not hold when the Return stands inside a block.
    The call of [f], whose body is [if 1: return 7], yields 7, but the
    handler at the call site pops one frame, the block's, and the frame
    of the call stays on the stack: the stack after the call is the
    stack before it with one more frame. The call of [g], whose body is
    [return 7], leaves the stack as it was. *)
Theorem return_inside_block_leaves_call_frame :
  (forall extra,
     eval_expr (5 + extra) (call_named "f" []) after_definitions
     = Normal (VInt 7) (pushed global_env after_definitions))
  /\ env_stack (pushed global_env after_definitions)
     <> env_stack after_definitions
  /\ (forall extra,
        eval_expr (3 + extra) (call_named "g" []) after_definitions
        = Normal (VInt 7) after_definitions).
Proof.
  split; [|split].
  - intros extra. by apply eval_expr_more_fuel.
  - simpl. intros H. apply (f_equal length) in H. discriminate H.
  - intros extra. by apply eval_expr_more_fuel.
Qed.

Lemma eval_stmt_FunctionDefNode fuel ln c name params body st top rest :
  env_stack st = top :: rest ->
  eval_stmt (S fuel) (FunctionDefNode ln c name params body) st
  = Normal VNone
      {| env_stack :=
           <[name := FunctionValue (next_fid st) params body top]> top :: rest;
         stdout := stdout st;
         next_fid := S (next_fid st) |}.
Proof.
  intros Hs. simpl. unfold eval_FunctionDefNode, bind, current_env, store, ret.
  rewrite Hs. simpl. by rewrite Hs.
Qed.

Lemma eval_stmt_assign_number fuel ln c x l' c' z st top rest :
  env_stack st = top :: rest ->
  eval_stmt (S (S fuel)) (AssignmentNode ln c x (NumberNode l' c' (NInt z))) st
  = Normal VNone (set_env_stack (<[x := VInt z]> top :: rest) st).
Proof.
  intros Hs. simpl. unfold eval_AssignmentNode, bind, store, ret. simpl.
  by rewrite Hs.
Qed.

Lemma call_returning_captured_variable
    fuel ln c l' c' f args st fid params l1 c1 l2 c2 x env vs st1 v :
  lookup_stack f (env_stack st)
  = Some (FunctionValue fid params
            [ReturnNode l1 c1 (Some (IdentifierNode l2 c2 x))] env) ->
  eval_args (eval_expr (2 + fuel)) args st = Normal vs st1 ->
  env !! x = Some v ->
  x ∉ params ->
  eval_expr (3 + fuel) (CallNode ln c (IdentifierNode l' c' f) args) st
  = Normal v st1.
Proof.
  intros Hf Ha Hx Hp. unfold eval_expr in *.
  change (3 + fuel) with (S (2 + fuel)).
  rewrite eval_stmt_CallNode.
  rewrite (eval_CallNode_user _ _ _ _ _ _ _ _ _ _ _ _ _ Hf Ha).
  rewrite call_function_unfold.
  assert (Hb : exec_stmts (eval_stmt (2 + fuel))
                 [ReturnNode l1 c1 (Some (IdentifierNode l2 c2 x))]
                 (pushed (bind_params params vs env) st1)
               = Raised (ReturnException v)
                   (pushed (bind_params params vs env) st1)).
  { simpl. unfold bind, eval_ReturnNode, bind, eval_IdentifierNode. simpl.
    rewrite bind_params_not_param by done. by rewrite Hx. }
  rewrite Hb. apply pop_pushed_Normal.
Qed.

(** The environment a definition captures is a copy: when the current
    environment binds [x] to [v], [f] is defined with the body
    [return x] (of which [x] is no parameter) and [x] is reassigned
    afterwards, then [x] reads as the new value, the function value
    still holds the bindings of the definition time, and a call of [f]
    made right then yields [v]. *)
Lemma closure_keeps_definition_time_value
    (fuel : nat) (st : state) (top : gmap string value) rest
    (x f : string) (params : list string) (v : value) (w : Z) :
  env_stack st = top :: rest ->
  top !! x = Some v ->
  x <> f ->
  x ∉ params ->
  exists st2,
    exec_stmts (eval_stmt (2 + fuel))
      [ FunctionDefNode None None f params [ret_ (ident x)];
        assign x (lit w) ] st
    = Normal tt st2
    /\ lookup_stack f (env_stack st2)
       = Some (FunctionValue (next_fid st) params [ret_ (ident x)] top)
    /\ lookup_stack x (env_stack st2) = Some (VInt w)
    /\ eval_expr (3 + fuel) (call_named f []) st2 = Normal v st2.
Proof.
  intros Hs Hx Hxf Hp.
  set (fv := FunctionValue (next_fid st) params [ret_ (ident x)] top).
  set (st2 := {| env_stack := <[x := VInt w]> (<[f := fv]> top) :: rest;
                 stdout := stdout st;
                 next_fid := S (next_fid st) |}).
  assert (Hf : lookup_stack f (env_stack st2) = Some fv).
  { simpl. rewrite lookup_insert_ne by done. by rewrite lookup_insert_eq. }
  exists st2. split; [|split; [|split]].
  - cbn [exec_stmts]. change (2 + fuel) with (S (S fuel)).
    rewrite (bind_Normal _ _ _ _ _
               (eval_stmt_FunctionDefNode _ _ _ _ _ _ _ _ _ Hs)).
    erewrite bind_Normal; [|by apply eval_stmt_assign_number]. done.
  - exact Hf.
  - simpl. by rewrite lookup_insert_eq.
  - apply (call_returning_captured_variable fuel None None None None f []
             st2 (next_fid st) params None None None None x top [] st2 v);
      done.
Qed.

Lemma eval_stmt_IdentifierNode fuel ln c x st v :
  lookup_stack x (env_stack st) = Some v ->
  eval_stmt (S fuel) (IdentifierNode ln c x) st = Normal v st.
Proof.
  intros H. simpl. unfold eval_IdentifierNode. by rewrite H.
Qed.

Lemma eval_stmt_BinaryOpNode fuel ln c l op r st a st1 b st2 :
  eval_stmt fuel l st = Normal a st1 ->
  eval_stmt fuel r st1 = Normal b st2 ->
  eval_stmt (S fuel) (BinaryOpNode ln c l op r) st = apply_operator op a b st2.
Proof.
  intros Hl Hr.
  exact (eval_BinaryOpNode_values _ _ _ _ _ _ _ _ _ Hl Hr).
Qed.

Lemma eval_stmt_ReturnNode fuel ln c e st v st1 :
  eval_stmt fuel e st = Normal v st1 ->
  eval_stmt (S fuel) (ReturnNode ln c (Some e)) st
  = Raised (ReturnException v) st1.
Proof.
  intros H. simpl. unfold eval_ReturnNode. by rewrite (bind_Normal _ _ _ _ _ H).
Qed.

Lemma eval_stmt_IfNode fuel ln c cond tb el eb st v st1 :
  eval_stmt fuel cond st = Normal v st1 ->
  eval_stmt (S fuel) (IfNode ln c cond tb el eb) st
  = (if truthy v then run_block (eval_stmt fuel) tb
     else eval_elifs (eval_stmt fuel) el eb) st1.
Proof.
  intros H. simpl. unfold eval_IfNode. by rewrite (bind_Normal _ _ _ _ _ H).
Qed.

Lemma run_block_raised ev body st top rest e st' :
  env_stack st = top :: rest ->
  exec_stmts ev body (pushed top st) = Raised e st' ->
  run_block ev body st = Raised e st'.
Proof.
  intros Hs Hb. unfold run_block.
  rewrite (bind_Normal _ _ st top st) by (unfold current_env; by rewrite Hs).
  rewrite (bind_Normal _ _ st tt (pushed top st)) by reflexivity.
  by apply bind_Raised.
Qed.

Lemma operator_le a b st :
  apply_operator "<=" (VInt a) (VInt b) st = Normal (VBool (a <=? b)%Z) st.
Proof.
  unfold apply_operator. simpl. unfold Z.leb. by destruct (a ?= b)%Z.
Qed.

Lemma operator_mul a b st :
  apply_operator "*" (VInt a) (VInt b) st = Normal (VInt (a * b)) st.
Proof. reflexivity. Qed.

Lemma operator_sub a b st :
  apply_operator "-" (VInt a) (VInt b) st = Normal (VInt (a - b)) st.
Proof. reflexivity. Qed.

Lemma fact_frame_n k : fact_frame k !! "n" = Some (VInt (Z.of_nat k)).
Proof. apply lookup_insert_eq. Qed.

Lemma fact_frame_fact k : fact_frame k !! "fact" = None.
Proof. reflexivity. Qed.

Lemma lookup_n_pushed k st :
  lookup_stack "n" (env_stack (pushed (fact_frame k) st))
  = Some (VInt (Z.of_nat k)).
Proof. cbn [pushed set_env_stack env_stack lookup_stack]. by rewrite fact_frame_n. Qed.

Lemma lookup_fact_pushed k st fv :
  lookup_stack "fact" (env_stack st) = Some fv ->
  lookup_stack "fact" (env_stack (pushed (fact_frame k) st)) = Some fv.
Proof.
  intros H. cbn [pushed set_env_stack env_stack lookup_stack].
  by rewrite fact_frame_fact.
Qed.

(** The test [n <= 1] in the frame of a call. *)
Lemma fact_test fuel k st :
  eval_stmt (2 + fuel) (binop (ident "n") "<=" (lit 1))
    (pushed (fact_frame k) st)
  = Normal (VBool (Z.of_nat k <=? 1)%Z) (pushed (fact_frame k) st).
Proof.
  change (2 + fuel) with (S (S fuel)).
  erewrite eval_stmt_BinaryOpNode;
    [apply operator_le | apply eval_stmt_IdentifierNode, lookup_n_pushed | done].
Qed.

(** The call of [fact] when the body takes the branch [n <= 1]. *)
Lemma fact_call_base fuel k st arg fa :
  k <= 1 ->
  lookup_stack "fact" (env_stack st) = Some fact_value ->
  eval_stmt fa arg st = Normal (VInt (Z.of_nat k)) st ->
  eval_stmt (5 + fa + fuel) (call_named "fact" [arg]) st
  = Normal (VInt 1) (pushed (fact_frame k) st).
Proof.
  intros Hk Hf Ha.
  change (5 + fa + fuel) with (S (S (S (S (S (fa + fuel)))))).
  rewrite eval_stmt_CallNode.
  set (g := S (S (S (S (fa + fuel))))).
  assert (Hargs : eval_args (eval_stmt g) [arg] st
                  = Normal [VInt (Z.of_nat k)] st).
  { cbn [eval_args]. erewrite bind_Normal; [done|].
    apply (eval_stmt_fuel_le fa); [unfold g; lia | done | done]. }
  erewrite eval_CallNode_user; [|exact Hf|exact Hargs].
  rewrite call_function_unfold.
  change (bind_params ["n"] [VInt (Z.of_nat k)] global_env) with (fact_frame k).
  set (st1 := pushed (fact_frame k) st).
  assert (Hb : exec_stmts (eval_stmt g) fact_body st1
               = Raised (ReturnException (VInt 1)) (pushed (fact_frame k) st1)).
  { unfold fact_body. cbn [exec_stmts]. apply bind_Raised.
    unfold g. erewrite eval_stmt_IfNode;
      [|apply (fact_test (S (fa + fuel)))].
    replace (Z.of_nat k <=? 1)%Z with true by (symmetry; apply Z.leb_le; lia).
    cbn [truthy].
    apply (run_block_raised _ _ _ (fact_frame k) (env_stack st)); [done|].
    cbn [exec_stmts]. apply bind_Raised. fold st1.
    by apply eval_stmt_ReturnNode. }
  rewrite Hb. apply pop_pushed_Normal.
Qed.

(** The call of [fact] when the body goes on to the recursive call. *)
Lemma fact_call_step fuel k st arg fa f1 v :
  2 <= k ->
  lookup_stack "fact" (env_stack st) = Some fact_value ->
  eval_stmt fa arg st = Normal (VInt (Z.of_nat k)) st ->
  eval_stmt f1 (call_named "fact" [binop (ident "n") "-" (lit 1)])
    (pushed (fact_frame k) st)
  = Normal (VInt v) (pushed (fact_frame (k - 1)) (pushed (fact_frame k) st)) ->
  eval_stmt (5 + fa + f1 + fuel) (call_named "fact" [arg]) st
  = Normal (VInt (Z.of_nat k * v)) (pushed (fact_frame k) st).
Proof.
  intros Hk Hf Ha Hrec.
  change (5 + fa + f1 + fuel) with (S (S (S (S (S (fa + f1 + fuel)))))).
  rewrite eval_stmt_CallNode.
  set (g := S (S (S (S (fa + f1 + fuel))))).
  assert (Hargs : eval_args (eval_stmt g) [arg] st
                  = Normal [VInt (Z.of_nat k)] st).
  { cbn [eval_args]. erewrite bind_Normal; [done|].
    apply (eval_stmt_fuel_le fa); [unfold g; lia | done | done]. }
  erewrite eval_CallNode_user; [|exact Hf|exact Hargs].
  rewrite call_function_unfold.
  change (bind_params ["n"] [VInt (Z.of_nat k)] global_env) with (fact_frame k).
  set (st1 := pushed (fact_frame k) st) in *.
  assert (Hb : exec_stmts (eval_stmt g) fact_body st1
               = Raised (ReturnException (VInt (Z.of_nat k * v)))
                   (pushed (fact_frame (k - 1)) st1)).
  { unfold fact_body. cbn [exec_stmts].
    erewrite bind_Normal.
    2:{ unfold g. erewrite eval_stmt_IfNode;
          [|apply (fact_test (S (fa + f1 + fuel)))].
        replace (Z.of_nat k <=? 1)%Z with false
          by (symmetry; apply Z.leb_gt; lia).
        reflexivity. }
    apply bind_Raised. unfold g.
    apply eval_stmt_ReturnNode.
    erewrite eval_stmt_BinaryOpNode;
      [apply operator_mul
      | apply eval_stmt_IdentifierNode, lookup_n_pushed
      | apply (eval_stmt_fuel_le f1); [lia | exact Hrec | done] ]. }
  rewrite Hb. apply pop_pushed_Normal.
Qed.

(** A call of [fact] on an argument that evaluates to [k] yields the
    factorial of [k] and leaves the frame of the call on the stack
    (the return comes from inside the [if], or after a recursive call
    that left its own frame there and had it popped in its place). *)
Lemma fact_call k :
  exists N, forall st arg fa,
    lookup_stack "fact" (env_stack st) = Some fact_value ->
    eval_stmt fa arg st = Normal (VInt (Z.of_nat k)) st ->
    eval_stmt (N + fa) (call_named "fact" [arg]) st
    = Normal (VInt (Z.of_nat (fact k))) (pushed (fact_frame k) st).
Proof.
  induction k as [|k [N IH]].
  - exists 5. intros st arg fa Hf Ha.
    rewrite <- (Nat.add_0_r (5 + fa)).
      apply fact_call_base; [lia|done|done].
  - destruct k as [|k].
    + exists 5. intros st arg fa Hf Ha.
      rewrite <- (Nat.add_0_r (5 + fa)).
      apply fact_call_base; [lia|done|done].
    + exists (5 + (N + 3)). intros st arg fa Hf Ha.
      set (m := S (S k)) in *.
      assert (Hrec :
        eval_stmt (N + 3) (call_named "fact" [binop (ident "n") "-" (lit 1)])
          (pushed (fact_frame m) st)
        = Normal (VInt (Z.of_nat (fact (S k))))
            (pushed (fact_frame (m - 1)) (pushed (fact_frame m) st))).
      { replace (m - 1) with (S k) by (unfold m; lia).
        apply IH; [by apply lookup_fact_pushed|].
        erewrite eval_stmt_BinaryOpNode;
          [|apply eval_stmt_IdentifierNode, lookup_n_pushed|done].
        rewrite operator_sub. do 2 f_equal. unfold m. lia. }
      replace (5 + (N + 3) + fa) with (5 + fa + (N + 3) + 0) by lia.
      erewrite (fact_call_step 0 m); [|unfold m; lia|done|done|exact Hrec].
      do 2 f_equal. unfold m.
      change (fact (S (S k))) with (S (S k) * fact (S k)).
      by rewrite Nat2Z.inj_mul.
Qed.

(** With the operands in this order, [n * fact(n - 1)], the program
    prints the factorial of [k]: [n] is read before the recursive call
    leaves its frame on the stack. The environment the function
    captured does not bind [fact]; the name is found by the walk down
    the stack. *)
Lemma factorial_recursion_is_correct (k : nat) :
  exists fuel,
    run fuel (fact_program k)
    = Normal tt
        {| env_stack := [fact_frame k; <["fact" := fact_value]> global_env];
           stdout := [[VInt (Z.of_nat (fact k))]];
           next_fid := 1 |}
    /\ (exists captured,
          eval_stmt fuel fact_def initial_state = Normal VNone after_fact_def
          /\ lookup_stack "fact" (env_stack after_fact_def)
             = Some (FunctionValue 0 ["n"] fact_body captured)
          /\ captured !! "fact" = None).
Proof.
  destruct (fact_call k) as [N HN].
  exists (S (N + 1)). split.
  - unfold run, fact_program. cbn [body exec_stmts].
    erewrite bind_Normal.
    2:{ apply (eval_stmt_FunctionDefNode _ _ _ _ _ _ _ global_env []). done. }
    fold fact_value. change (S (next_fid initial_state)) with 1.
    change (stdout initial_state) with (@nil (list value)).
    fold after_fact_def.
    erewrite bind_Normal; [reflexivity|].
    rewrite eval_stmt_CallNode.
    unfold eval_CallNode. cbn [resolve_callee].
    erewrite bind_Normal; [|reflexivity].
    erewrite bind_Normal.
    2:{ cbn [eval_args]. erewrite bind_Normal; [reflexivity|].
        apply HN; done. }
    reflexivity.
  - exists global_env. split; [|split]; reflexivity.
Qed.

Example second_of_one_argument :
  eval_expr 4 (call_named "second" [lit 1]) after_second
  = Normal VNone after_second.
Proof. reflexivity. Qed.

Example second_of_three_arguments :
  eval_expr 4 (call_named "second" [lit 1; lit 2; lit 3]) after_second
  = Normal (VInt 2) after_second.
Proof. reflexivity. Qed.

(** An extra argument is evaluated although no parameter takes it. *)
Example extra_argument_is_evaluated :
  eval_expr 4 (call_named "second"
                 [lit 1; lit 2; binop (lit 1) "/" (lit 0)]) after_second
  = Raised (HostError ZeroDivisionError) after_second.
Proof. reflexivity. Qed.

(** An instance: [x = 1], then [def f(): return x], [x = 2] and
    [f()]. *)
Example closure_keeps_definition_time_value_instance :
  exists st2,
    exec_stmts (eval_stmt (2 + 0))
      [ FunctionDefNode None None "f" [] [ret_ (ident "x")];
        assign "x" (lit 2) ] x_is_one
    = Normal tt st2
    /\ lookup_stack "f" (env_stack st2)
       = Some (FunctionValue (next_fid x_is_one) [] [ret_ (ident "x")]
                 (<["x" := VInt 1]> global_env))
    /\ lookup_stack "x" (env_stack st2) = Some (VInt 2)
    /\ eval_expr (3 + 0) (call_named "f" []) st2 = Normal (VInt 1) st2.
Proof.
  apply (closure_keeps_definition_time_value 0 x_is_one
           (<["x" := VInt 1]> global_env) [] "x" "f" [] (VInt 1) 2).
  - reflexivity.
  - reflexivity.
  - discriminate.
  - apply not_elem_of_nil.
Qed.

Example closure_program_prints_1 :
  exists st, run 8 closure_program = Normal tt st /\ stdout st = [[VInt 1]].
Proof. eexists. split; reflexivity. Qed.

(** 10**400 / 0.0: the conversion of the left operand fails first. *)
Example huge_int_by_float_zero :
  eval_expr 2 (binop (lit (10 ^ 400)) "/" (NumberNode None None (NFloat 0)))
    initial_state
  = Raised (HostError OverflowError) initial_state.
Proof. reflexivity. Qed.

Lemma kept_refl st : kept st st.
Proof. intros above below H Hne. by exists above. Qed.

Lemma kept_trans a b c : kept a b -> kept b c -> kept a c.
Proof.
  intros Hab Hbc above below H Hne.
  destruct (Hab _ _ H Hne) as (above1 & Hne1 & H1).
  exact (Hbc _ _ H1 Hne1).
Qed.

Lemma kept_has_frame a b : has_frame a -> kept a b -> has_frame b.
Proof.
  unfold has_frame. intros Ha Hk.
  destruct (Hk (env_stack a) []) as (above' & Hne & H);
    [by rewrite app_nil_r | done |].
  rewrite H, app_nil_r. done.
Qed.

Lemma extends_refl st : extends st st.
Proof. by exists []. Qed.

Lemma extends_trans a b c : extends a b -> extends b c -> extends a c.
Proof.
  intros [x Hx] [y Hy]. exists (y ++ x)%list. by rewrite Hy, Hx, app_assoc.
Qed.

Lemma extends_has_frame a b : has_frame a -> extends a b -> has_frame b.
Proof.
  unfold has_frame. intros Ha [x Hx]. rewrite Hx.
  destruct x; [done|]. simpl. done.
Qed.

Lemma extends_kept a b : has_frame a -> extends a b -> kept a b.
Proof.
  intros _ [x Hx] above below H Hne. exists (x ++ above)%list. split.
  - destruct x; [done|]. simpl. done.
  - by rewrite Hx, H, app_assoc.
Qed.

Lemma kept_cons st st' top rest :
  env_stack st = top :: rest -> kept st st' ->
  exists extra top', env_stack st' = (extra ++ top' :: rest)%list.
Proof.
  intros H Hk. destruct (Hk [top] rest H ltac:(done)) as (above' & Hne & H').
  destruct (exists_last Hne) as (extra & top' & ->).
  exists extra, top'. by rewrite H', <- app_assoc.
Qed.

Section Ensures.

Variable pre : state -> Prop.
Variable R : state -> state -> Prop.
Variable E : exn -> Prop.
Hypothesis R_refl : forall st, R st st.
Hypothesis R_trans : forall a b c, R a b -> R b c -> R a c.
Hypothesis pre_R : forall a b, pre a -> R a b -> pre b.

Lemma ensures_ret {A} (a : A) : ensures pre R E (ret a).
Proof. intros st _. apply R_refl. Qed.

Lemma ensures_raise {A} e : E e -> ensures pre R E (@raise A e).
Proof. intros He st _. split; [apply R_refl | done]. Qed.

Lemma ensures_bind {A B} (m : M A) (k : A -> M B) :
  ensures pre R E m -> (forall a, ensures pre R E (k a)) ->
  ensures pre R E (bind m k).
Proof.
  intros Hm Hk st Hpre. unfold bind. specialize (Hm st Hpre).
  destruct (m st) as [a st1|e st1|]; [|done|done].
  specialize (Hk a st1 (pre_R _ _ Hpre Hm)).
  destruct (k a st1) as [b st2|e st2|]; [|split|done].
  - by eapply R_trans.
  - by eapply R_trans; [|apply Hk].
  - apply Hk.
Qed.

Lemma ensures_lift_host {A} (r : host_result A) :
  (forall e, E (HostError e)) -> ensures pre R E (lift_host r).
Proof.
  intros He. destruct r; [apply ensures_ret | by apply ensures_raise].
Qed.

Variable ev : evaluator.
Hypothesis Hev : forall n, ensures pre R E (ev n).

Lemma ensures_exec_stmts body : ensures pre R E (exec_stmts ev body).
Proof.
  induction body as [|s rest IH]; simpl.
  - apply ensures_ret.
  - apply ensures_bind; [apply Hev | intros _; apply IH].
Qed.

Lemma ensures_eval_args args : ensures pre R E (eval_args ev args).
Proof.
  induction args as [|a rest IH]; simpl.
  - apply ensures_ret.
  - apply ensures_bind; [apply Hev|]. intros v.
    apply ensures_bind; [apply IH|]. intros vs. apply ensures_ret.
Qed.

Lemma ensures_apply_operator op l r :
  (forall e, E (HostError e)) -> (forall s, E (RuntimeError s)) ->
  ensures pre R E (apply_operator op l r).
Proof.
  intros Hh Hr. unfold apply_operator.
  repeat (match goal with |- context [if ?b then _ else _] => destruct b end;
          [first [by apply ensures_lift_host | apply ensures_ret]|]).
  by apply ensures_raise.
Qed.

Lemma ensures_eval_elifs elifs else_body :
  (forall body, ensures pre R E (run_block ev body)) ->
  ensures pre R E (eval_elifs ev elifs else_body).
Proof.
  intros Hb. induction elifs as [|[c b] rest IH]; simpl.
  - destruct else_body as [[|s ss]|]; [apply ensures_ret | apply Hb | apply ensures_ret].
  - apply ensures_bind; [apply Hev|]. intros v.
    destruct (truthy v); [apply Hb | apply IH].
Qed.

End Ensures.

(** The evaluator keeps every relation that its steps keep: the stores
    into the current frame, the output, the allocation of a function
    identity, and the bracket of a push and a pop around a block or a
    function body. *)
Section Evaluator.

Variable pre : state -> Prop.
Variable R : state -> state -> Prop.
Variable E : exn -> Prop.
Hypothesis R_refl : forall st, R st st.
Hypothesis R_trans : forall a b c, R a b -> R b c -> R a c.
Hypothesis pre_R : forall a b, pre a -> R a b -> pre b.
Hypothesis E_return : forall v, E (ReturnException v).
Hypothesis E_name : forall m, E (NameError m).
Hypothesis E_host : forall e, E (HostError e).
Hypothesis E_runtime : forall s, E (RuntimeError s).
Hypothesis R_store : forall x v, ensures pre R E (store x v).
Hypothesis R_define :
  forall x ps b, ensures pre R E (eval_FunctionDefNode x ps b).
Hypothesis R_print : forall vs, ensures pre R E (host_print vs).
Hypothesis R_block :
  forall ev, (forall n, ensures pre R E (ev n)) ->
  forall body, ensures pre R E (run_block ev body).
Hypothesis R_call :
  forall ev, (forall n, ensures pre R E (ev n)) ->
  forall ps body env vs, ensures pre R E (call_function ev ps body env vs).

Ltac bind_step :=
  apply (ensures_bind pre R E R_trans pre_R); [|intros ?].

Ltac ret_step := apply (ensures_ret pre R E R_refl).

Ltac raise_step := apply (ensures_raise pre R E R_refl).

Lemma ensures_resolve_callee ev ln func :
  (forall n, ensures pre R E (ev n)) ->
  ensures pre R E (resolve_callee ev ln func).
Proof.
  intros Hev. destruct func; simpl; try apply Hev.
  intros st _. destruct (lookup_stack name (env_stack st)) as [[]|];
    first [apply R_refl | split; [apply R_refl | apply E_name]].
Qed.

Lemma ensures_eval_stmt fuel n : ensures pre R E (eval_stmt fuel n).
Proof.
  revert n. induction fuel as [|fuel IH]; intros n; [by intros st _|].
  destruct n as [? ? v|? ? v|ln ? x|? ? l op r|? ? x e|? ? c tb el eb
                |? ? c b|? ? f ps b|? ? rv|ln ? f a]; simpl.
  - ret_step.
  - ret_step.
  - intros st _. unfold eval_IdentifierNode.
    destruct (lookup_stack x (env_stack st));
      [apply R_refl | split; [apply R_refl | apply E_name]].
  - unfold eval_BinaryOpNode.
    bind_step; [apply IH|]. bind_step; [apply IH|].
    by apply ensures_apply_operator.
  - unfold eval_AssignmentNode.
    bind_step; [apply IH|]. bind_step; [apply R_store|]. ret_step.
  - unfold eval_IfNode.
    bind_step; [apply IH|].
    destruct (truthy _); [by apply R_block|].
    apply ensures_eval_elifs; try done. by apply R_block.
  - unfold eval_WhileNode.
    bind_step; [apply IH|].
    destruct (truthy _); [|ret_step].
    bind_step; [by apply R_block | apply IH].
  - apply R_define.
  - unfold eval_ReturnNode.
    bind_step; [destruct rv; [apply IH | ret_step]|].
    raise_step. apply E_return.
  - unfold eval_CallNode.
    bind_step; [by apply ensures_resolve_callee|].
    bind_step; [by apply ensures_eval_args|].
    match goal with |- ensures _ _ _ (match ?fn with _ => _ end) =>
      destruct fn end;
      try (raise_step; apply E_runtime); [apply R_print | by apply R_call].
Qed.

End Evaluator.

Lemma kept_same_stack st st' : env_stack st' = env_stack st -> kept st st'.
Proof. intros H above below Hs Hne. exists above. by rewrite H. Qed.

Lemma kept_new_top st st' top top' rest :
  env_stack st = top :: rest -> env_stack st' = top' :: rest -> kept st st'.
Proof.
  intros H H' above below Hs Hne. rewrite H in Hs.
  destruct above as [|a above]; [done|]. injection Hs as -> ->.
  exists (top' :: above). by rewrite H'.
Qed.

Lemma store_kept x v : ensures has_frame kept not_IndexError (store x v).
Proof.
  intros st Hf. unfold store. destruct (env_stack st) as [|top rest] eqn:Hs; [done|].
  by eapply kept_new_top.
Qed.

Lemma define_kept x ps b :
  ensures has_frame kept not_IndexError (eval_FunctionDefNode x ps b).
Proof.
  intros st Hf. unfold eval_FunctionDefNode, bind, current_env, store.
  destruct (env_stack st) as [|top rest] eqn:Hs; [done|]. simpl.
  rewrite Hs. simpl. by eapply kept_new_top.
Qed.

Lemma print_kept vs : ensures has_frame kept not_IndexError (host_print vs).
Proof. intros st Hf. by apply kept_same_stack. Qed.

(** What ran between a push and the matching pop left the frames under
    the pushed one in place. *)
Lemma kept_pushed env st st2 :
  kept (pushed env st) st2 ->
  exists top above, env_stack st2 = top :: (above ++ env_stack st)%list.
Proof.
  intros Hk. destruct (Hk [env] (env_stack st)) as (above' & Hne & H); [done..|].
  destruct above' as [|top above]; [done|]. by exists top, above.
Qed.

Lemma run_block_extends ev body :
  (forall n, ensures has_frame kept not_IndexError (ev n)) ->
  ensures has_frame extends not_IndexError (run_block ev body).
Proof.
  intros Hev st Hf. unfold run_block, bind, current_env, push_env.
  destruct (env_stack st) as [|top rest] eqn:Hs; [done|].
  fold (pushed top st).
  pose proof (ensures_exec_stmts _ _ _ kept_refl kept_trans kept_has_frame
                ev Hev body (pushed top st) ltac:(done)) as Hb.
  destruct (exec_stmts ev body (pushed top st)) as [[] st2|e st2|]; [| |done].
  - destruct (kept_pushed _ _ _ Hb) as (t2 & above & H2).
    unfold pop_env, ret. rewrite H2. exists above. simpl. by rewrite Hs.
  - destruct Hb as [Hb He]. split; [|done].
    destruct (kept_pushed _ _ _ Hb) as (t2 & above & H2).
    exists (t2 :: above). by rewrite H2, Hs.
Qed.

Lemma call_function_extends ev ps body env vs :
  (forall n, ensures has_frame kept not_IndexError (ev n)) ->
  ensures has_frame extends not_IndexError (call_function ev ps body env vs).
Proof.
  intros Hev st Hf. rewrite call_function_unfold.
  pose proof (ensures_exec_stmts _ _ _ kept_refl kept_trans kept_has_frame
                ev Hev body (pushed (bind_params ps vs env) st) ltac:(done)) as Hb.
  destruct (exec_stmts ev body (pushed (bind_params ps vs env) st))
    as [[] st2|e st2|]; [| |done].
  - destruct (kept_pushed _ _ _ Hb) as (t2 & above & H2).
    unfold bind, pop_env, ret. rewrite H2. by exists above.
  - destruct Hb as [Hb He].
    destruct (kept_pushed _ _ _ Hb) as (t2 & above & H2).
    destruct e; try (split; [exists (t2 :: above); by rewrite H2 | done]).
    unfold bind, pop_env, ret. rewrite H2. by exists above.
Qed.

Lemma ensures_weaken {A} (m : M A) :
  ensures has_frame extends not_IndexError m ->
  ensures has_frame kept not_IndexError m.
Proof.
  intros H st Hf. specialize (H st Hf).
  destruct (m st) as [a st'|e st'|]; [|split|done].
  - by apply extends_kept.
  - apply extends_kept; [done | apply H].
  - apply H.
Qed.

Lemma eval_stmt_kept fuel n :
  ensures has_frame kept not_IndexError (eval_stmt fuel n).
Proof.
  apply ensures_eval_stmt; try done.
  - apply kept_refl.
  - apply kept_trans.
  - apply kept_has_frame.
  - apply store_kept.
  - apply define_kept.
  - apply print_kept.
  - intros ev Hev body. by apply ensures_weaken, run_block_extends.
  - intros ev Hev ps body env vs. by apply ensures_weaken, call_function_extends.
Qed.

Lemma exec_stmts_kept fuel body :
  ensures has_frame kept not_IndexError (exec_stmts (eval_stmt fuel) body).
Proof.
  apply ensures_exec_stmts;
    [apply kept_refl | apply kept_trans | apply kept_has_frame |].
  intros n. apply eval_stmt_kept.
Qed.

(** X1. Evaluating a node from a stack with a current frame leaves
    every frame below the current one in place: the stack it ends with,
    normally or by an exception, is the frames that lay below the
    current frame, a current frame on them, and the frames that were
    pushed and not popped. It never raises the IndexError of an empty
    stack. *)
Theorem frames_below_the_current_one_are_kept fuel n st top rest :
  env_stack st = top :: rest ->
  (forall st', final_state (eval_stmt fuel n st) = Some st' ->
     exists extra top', env_stack st' = (extra ++ top' :: rest)%list)
  /\ (forall st', eval_stmt fuel n st <> Raised IndexError st').
Proof.
  intros Hs.
  pose proof (eval_stmt_kept fuel n st ltac:(unfold has_frame; by rewrite Hs)) as H.
  split.
  - intros st' Hfin.
    destruct (eval_stmt fuel n st) as [v s|e s|]; [| |done];
      injection Hfin as ->; eapply kept_cons; try done. apply H.
  - intros st' Heq. rewrite Heq in H. by destruct H as [_ H].
Qed.

Lemma frames_below_the_current_one_are_kept_witness :
  (forall st', final_state (eval_stmt 2 store_one initial_state) = Some st' ->
     exists extra top', env_stack st' = (extra ++ [top'])%list)
  /\ (forall st', eval_stmt 2 store_one initial_state <> Raised IndexError st').
Proof.
  exact (frames_below_the_current_one_are_kept 2 store_one initial_state
           global_env [] eq_refl).
Defined.

(** X2. A run of a program never pops the global frame and never fails
    on an empty stack: it ends, normally or by an exception, with a
    stack whose bottom is one frame, in the place of the global one. *)
Theorem run_never_empties_the_stack fuel p :
  (forall st', final_state (run fuel p) = Some st' ->
     exists extra top', env_stack st' = (extra ++ [top'])%list)
  /\ (forall st', run fuel p <> Raised IndexError st').
Proof.
  pose proof (exec_stmts_kept fuel (body p) initial_state ltac:(done)) as H.
  fold (run fuel p) in H. split.
  - intros st' Hfin.
    destruct (run fuel p) as [v s|e s|]; [| |done];
      injection Hfin as ->;
      eapply (kept_cons initial_state _ global_env []); try done. apply H.
  - intros st' Heq. rewrite Heq in H. by destruct H as [_ H].
Qed.

Section Extends.

Variable ev : evaluator.
Hypothesis Hkept : forall n, ensures has_frame kept not_IndexError (ev n).

Ltac bind_ext :=
  apply (ensures_bind has_frame extends not_IndexError
           extends_trans extends_has_frame); [|intros ?].

Ltac ret_ext := apply (ensures_ret has_frame extends not_IndexError extends_refl).

Lemma eval_args_extends args :
  Forall (fun a => ensures has_frame extends not_IndexError (ev a)) args ->
  ensures has_frame extends not_IndexError (eval_args ev args).
Proof.
  induction 1 as [|a rest Ha _ IH]; simpl; [ret_ext|].
  bind_ext; [exact Ha|]. bind_ext; [exact IH|]. ret_ext.
Qed.

Lemma eval_elifs_extends elifs else_body :
  Forall (fun cb => ensures has_frame extends not_IndexError (ev (fst cb))) elifs ->
  ensures has_frame extends not_IndexError (eval_elifs ev elifs else_body).
Proof.
  induction 1 as [|[c b] rest Hc _ IH]; simpl.
  - destruct else_body as [[|s ss]|]; [ret_ext | by apply run_block_extends | ret_ext].
  - bind_ext; [exact Hc|].
    destruct (truthy _); [by apply run_block_extends | exact IH].
Qed.

End Extends.

Lemma eval_stmt_extends fuel n :
  stores_nothing n = true ->
  ensures has_frame extends not_IndexError (eval_stmt fuel n).
Proof.
  revert n. induction fuel as [|fuel IH]; intros n Hn; [by intros st _|].
  pose proof (eval_stmt_kept fuel) as Hk.
  assert (Hbind : forall A B (m : M A) (k : A -> M B),
            ensures has_frame extends not_IndexError m ->
            (forall a, ensures has_frame extends not_IndexError (k a)) ->
            ensures has_frame extends not_IndexError (bind m k)).
  { intros A B. apply ensures_bind; [apply extends_trans | apply extends_has_frame]. }
  assert (Hret : forall A (a : A), ensures has_frame extends not_IndexError (ret a)).
  { intros A. apply ensures_ret, extends_refl. }
  destruct n as [? ? v|? ? v|ln ? x|? ? l op r|? ? x e|? ? c tb el eb
                |? ? c b|? ? f ps b|? ? rv|ln ? f a]; simpl in Hn |- *;
    try discriminate Hn.
  - apply Hret.
  - apply Hret.
  - intros st _. unfold eval_IdentifierNode.
    destruct (lookup_stack x (env_stack st));
      [apply extends_refl | split; [apply extends_refl | done]].
  - apply andb_prop in Hn as [Hl Hr]. unfold eval_BinaryOpNode.
    apply Hbind; [by apply IH|]. intros lv.
    apply Hbind; [by apply IH|]. intros rv.
    apply ensures_apply_operator; try done. apply extends_refl.
  - apply andb_prop in Hn as [Hc Hel]. unfold eval_IfNode.
    apply Hbind; [by apply IH|]. intros v.
    destruct (truthy v); [by apply run_block_extends|].
    apply eval_elifs_extends; [done|].
    rewrite forallb_forall in Hel. apply Forall_forall. intros [c' b'] Hin.
    apply IH. apply (Hel (c', b')). by apply list_elem_of_In.
  - unfold eval_WhileNode.
    apply Hbind; [by apply IH|]. intros v.
    destruct (truthy v); [|apply Hret].
    apply Hbind; [by apply run_block_extends|]. intros _.
    by apply IH.
  - unfold eval_ReturnNode.
    apply Hbind; [destruct rv; [by apply IH | apply Hret]|]. intros v.
    apply ensures_raise; [apply extends_refl | done].
  - apply andb_prop in Hn as [Hf Ha]. unfold eval_CallNode.
    apply Hbind.
    { destruct f; simpl; try (by apply IH).
      intros st _. destruct (lookup_stack name (env_stack st)) as [[]|];
        first [apply extends_refl | split; [apply extends_refl | done]]. }
    intros fn. apply Hbind.
    { apply eval_args_extends. rewrite forallb_forall in Ha.
      apply Forall_forall. intros a' Hin. apply IH, Ha. by apply list_elem_of_In. }
    intros vs.
    destruct fn; try (apply ensures_raise; [apply extends_refl | done]).
    + intros st _. by exists [].
    + by apply call_function_extends.
Qed.

(** X3. Only assignments and function definitions store into the
    frames of the stack. A node that is neither, and evaluates neither
    outside the bodies of its blocks (an if, a while, a return, a call,
    an operator, a name, a literal), leaves every frame it started with
    as it was: the stack afterwards is the stack before with, at most,
    frames left on top of it. What the body of an if or of a while, or
    the body of a called function, assigns goes into a frame pushed for
    it, never into a frame that was there before; a frame left on top
    can still shadow the ones below. *)
Theorem blocks_and_calls_change_no_frame fuel n st st' :
  stores_nothing n = true ->
  env_stack st <> [] ->
  final_state (eval_stmt fuel n st) = Some st' ->
  exists extra, env_stack st' = (extra ++ env_stack st)%list.
Proof.
  intros Hn Hf Hfin. pose proof (eval_stmt_extends fuel n Hn st Hf) as H.
  destruct (eval_stmt fuel n st) as [v s|e s|]; [| |done];
    injection Hfin as ->; apply H.
Qed.

Lemma blocks_and_calls_change_no_frame_witness :
  exists extra,
    env_stack (State [global_env] [] 0) = (extra ++ env_stack initial_state)%list.
Proof.
  apply (blocks_and_calls_change_no_frame 3 store_in_block initial_state);
    [reflexivity | discriminate | reflexivity].
Defined.

Lemma lookup_stack_innermost x above frame below v :
  unbound_in x above -> frame !! x = Some v ->
  lookup_stack x (above ++ frame :: below) = Some v.
Proof.
  induction 1 as [|a above Ha _ IH]; intros Hv; simpl.
  - by rewrite Hv.
  - rewrite Ha. by apply IH.
Qed.

Lemma lookup_stack_None x frames :
  lookup_stack x frames = None <-> unbound_in x frames.
Proof.
  induction frames as [|a rest IH]; simpl.
  - split; [intros _; apply List.Forall_nil | done].
  - destruct (a !! x) as [v|] eqn:Ha.
    + split; [done|]. intros H. apply Forall_cons in H as [H _]. congruence.
    + rewrite IH. split.
      * intros H. by apply List.Forall_cons.
      * intros H. by apply Forall_cons in H as [_ H].
Qed.

(** X4. A name is read from the innermost frame that binds it. The
    read fails exactly when no frame of the stack binds the name, with
    the NameError that carries the name and the line of the node, and
    it leaves the state as it was. *)
Theorem identifier_reads_the_innermost_binding fuel ln c x st :
  (forall above frame below v,
     env_stack st = (above ++ frame :: below)%list ->
     unbound_in x above -> frame !! x = Some v ->
     eval_stmt (S fuel) (IdentifierNode ln c x) st = Normal v st)
  /\ (unbound_in x (env_stack st) <->
      eval_stmt (S fuel) (IdentifierNode ln c x) st
      = Raised (NameError (NameNotFound x ln)) st)
  /\ (forall e st',
        eval_stmt (S fuel) (IdentifierNode ln c x) st = Raised e st' ->
        e = NameError (NameNotFound x ln) /\ st' = st).
Proof.
  simpl. unfold eval_IdentifierNode. split; [|split].
  - intros above frame below v Hs Ha Hv.
    by rewrite Hs, (lookup_stack_innermost x above frame below v).
  - rewrite <- lookup_stack_None.
    destruct (lookup_stack x (env_stack st)); split; done.
  - intros e st'. destruct (lookup_stack x (env_stack st)); [done|].
    by intros [= <- <-].
Qed.

Lemma identifier_reads_the_innermost_binding_witness :
  eval_stmt 1 (IdentifierNode None None "x") shadowing_state
  = Normal (VInt 1) shadowing_state.
Proof.
  apply (proj1 (identifier_reads_the_innermost_binding 0 None None "x"
                  shadowing_state) [] {[ "x" := VInt 1 ]}
           [ <[ "x" := VInt 2 ]> global_env ] (VInt 1));
    [reflexivity | apply List.Forall_nil | reflexivity].
Defined.

Lemma lookup_stack_store_eq x v top rest :
  lookup_stack x (<[x := v]> top :: rest) = Some v.
Proof. simpl. by rewrite lookup_insert_eq. Qed.

Lemma lookup_stack_store_ne x y v top rest :
  y <> x ->
  lookup_stack y (<[x := v]> top :: rest) = lookup_stack y (top :: rest).
Proof. intros Hne. simpl. by rewrite lookup_insert_ne. Qed.

(** X5. After an assignment whose right-hand side evaluates to [v],
    the name reads as [v], every other name reads as it did after the
    evaluation of the right-hand side, the frames below the current one
    and the output are the same, and the assignment itself yields
    [None]. *)
Theorem assignment_is_read_back fuel ln c x e st v st1 :
  env_stack st <> [] ->
  eval_stmt fuel e st = Normal v st1 ->
  exists st2,
    eval_stmt (S fuel) (AssignmentNode ln c x e) st = Normal VNone st2
    /\ (forall fuel' ln' c',
          eval_stmt (S fuel') (IdentifierNode ln' c' x) st2 = Normal v st2)
    /\ (forall y, y <> x ->
          lookup_stack y (env_stack st2) = lookup_stack y (env_stack st1))
    /\ tail (env_stack st2) = tail (env_stack st1)
    /\ stdout st2 = stdout st1.
Proof.
  intros Hf He.
  pose proof (eval_stmt_kept fuel e st Hf) as Hk. rewrite He in Hk.
  apply (kept_has_frame _ _ Hf) in Hk. unfold has_frame in Hk.
  destruct (env_stack st1) as [|top rest] eqn:Hs; [done|].
  exists (set_env_stack (<[x := v]> top :: rest) st1).
  split; [|split; [|split; [|split]]].
  - simpl. unfold eval_AssignmentNode. rewrite (bind_Normal _ _ _ _ _ He).
    unfold bind, store, ret. by rewrite Hs.
  - intros fuel' ln' c'. simpl. unfold eval_IdentifierNode. simpl.
    by rewrite lookup_insert_eq.
  - intros y Hne. simpl. by rewrite lookup_insert_ne.
  - done.
  - done.
Qed.

Lemma assignment_is_read_back_witness :
  exists st2,
    eval_stmt 2 store_one initial_state = Normal VNone st2
    /\ (forall fuel' ln' c',
          eval_stmt (S fuel') (IdentifierNode ln' c' "x") st2
          = Normal (VInt 1) st2)
    /\ (forall y, y <> "x" ->
          lookup_stack y (env_stack st2)
          = lookup_stack y (env_stack initial_state))
    /\ tail (env_stack st2) = tail (env_stack initial_state)
    /\ stdout st2 = stdout initial_state.
Proof.
  apply (assignment_is_read_back 1 None None "x"
           (NumberNode None None (NInt 1)) initial_state (VInt 1) initial_state);
    [discriminate | reflexivity].
Defined.

Lemma settles_ret {A} (a : A) : settles (ret a).
Proof. intros st a' st' Hf [= <- <-]. done. Qed.

Lemma settles_bind {A B} (m : M A) (k : A -> M B) :
  settles m -> (forall a, settles (k a)) -> settles (bind m k).
Proof.
  intros Hm Hk st b st' Hf. unfold bind.
  destruct (m st) as [a st1| |] eqn:E; [|done..]. intros Hb.
  destruct (Hm _ _ _ Hf E) as [Hf1 H1].
  destruct (Hk a _ _ _ Hf1 Hb) as [Hf2 H2]. split; [done | congruence].
Qed.

Lemma settles_apply_operator op l r : settles (apply_operator op l r).
Proof.
  unfold apply_operator.
  repeat (match goal with |- context [if ?b then _ else _] => destruct b end;
          [first [apply settles_ret
                 | match goal with |- settles (lift_host ?r) => destruct r end;
                   [apply settles_ret | by intros ? ? ? ? ?] ]|]).
  by intros ? ? ? ? ?.
Qed.

Lemma settles_store x v : settles (store x v).
Proof.
  intros st a st' Hf. unfold store.
  destruct (env_stack st) as [|top rest] eqn:Hs; [done|].
  intros [= <- <-]. done.
Qed.

Lemma settles_exec_stmts ev body :
  Forall (fun s => settles (ev s)) body -> settles (exec_stmts ev body).
Proof.
  induction 1 as [|s rest Hs _ IH]; simpl; [apply settles_ret|].
  apply settles_bind; [exact Hs | intros _; exact IH].
Qed.

(** A block whose statements settle leaves the stack as it was. *)
Lemma run_block_restores ev body st v st' :
  Forall (fun s => settles (ev s)) body ->
  has_frame st -> run_block ev body st = Normal v st' ->
  env_stack st' = env_stack st.
Proof.
  intros Hb Hf. unfold run_block, bind, current_env, push_env.
  destruct (env_stack st) as [|top rest] eqn:Hs; [done|].
  fold (pushed top st).
  destruct (exec_stmts ev body (pushed top st)) as [[] st2| |] eqn:E; [|done..].
  destruct (settles_exec_stmts ev body Hb (pushed top st) _ _ ltac:(done) E)
    as [Hf2 H2].
  unfold pop_env, ret. unfold has_frame in Hf2.
  destruct (env_stack st2) as [|t2 r2]; [done|]. simpl in H2.
  intros [= <- <-]. simpl. by rewrite H2, Hs.
Qed.

Lemma settles_run_block ev body :
  Forall (fun s => settles (ev s)) body -> settles (run_block ev body).
Proof.
  intros Hb st v st' Hf H.
  pose proof (run_block_restores _ _ _ _ _ Hb Hf H) as Hs.
  unfold has_frame in *. rewrite Hs. done.
Qed.

Lemma settles_eval_elifs ev elifs else_body :
  Forall (fun cb => settles (ev (fst cb))
                    /\ Forall (fun s => settles (ev s)) (snd cb)) elifs ->
  match else_body with
  | Some b => Forall (fun s => settles (ev s)) b
  | None => True
  end ->
  settles (eval_elifs ev elifs else_body).
Proof.
  intros Hel Heb. induction Hel as [|[c b] rest [Hc Hb] _ IH]; simpl.
  - destruct else_body as [[|s ss]|];
      [apply settles_ret | by apply settles_run_block | apply settles_ret].
  - apply settles_bind; [exact Hc|]. intros v.
    destruct (truthy v); [by apply settles_run_block | exact IH].
Qed.

Lemma forallb_settles fuel l :
  (forall n, call_free n = true -> settles (eval_stmt fuel n)) ->
  forallb call_free l = true ->
  Forall (fun s => settles (eval_stmt fuel s)) l.
Proof.
  intros IH Hl. rewrite forallb_forall in Hl. apply Forall_forall.
  intros s Hin. apply IH, Hl. by apply list_elem_of_In.
Qed.

Lemma eval_stmt_settles fuel n :
  call_free n = true -> settles (eval_stmt fuel n).
Proof.
  revert n. induction fuel as [|fuel IH]; intros n Hn; [by intros ? ? ? ? ?|].
  destruct n as [? ? v|? ? v|ln ? x|? ? l op r|? ? x e|? ? c tb el eb
                |? ? c b|? ? f ps b|? ? rv|ln ? f a]; simpl in Hn |- *;
    try discriminate Hn.
  - apply settles_ret.
  - apply settles_ret.
  - intros st v st' Hf. unfold eval_IdentifierNode.
    destruct (lookup_stack x (env_stack st)); [|done]. by intros [= <- <-].
  - apply andb_prop in Hn as [Hl Hr]. unfold eval_BinaryOpNode.
    apply settles_bind; [by apply IH|]. intros lv.
    apply settles_bind; [by apply IH|]. intros rv.
    apply settles_apply_operator.
  - unfold eval_AssignmentNode.
    apply settles_bind; [by apply IH|]. intros v.
    apply settles_bind; [apply settles_store|]. intros _. apply settles_ret.
  - apply andb_prop in Hn as [Hn Heb]. apply andb_prop in Hn as [Hn Hel].
    apply andb_prop in Hn as [Hc Htb]. unfold eval_IfNode.
    apply settles_bind; [by apply IH|]. intros v.
    destruct (truthy v); [by apply settles_run_block, forallb_settles|].
    apply settles_eval_elifs.
    + rewrite forallb_forall in Hel. apply Forall_forall. intros [c' b'] Hin.
      specialize (Hel (c', b') ltac:(by apply list_elem_of_In)).
      apply andb_prop in Hel as [Hc' Hb']. simpl.
      split; [by apply IH | by apply forallb_settles].
    + destruct eb; [by apply forallb_settles | done].
  - apply andb_prop in Hn as [Hc Hb]. unfold eval_WhileNode.
    apply settles_bind; [by apply IH|]. intros v.
    destruct (truthy v); [|apply settles_ret].
    apply settles_bind; [by apply settles_run_block, forallb_settles|].
    intros _. apply IH. simpl. by rewrite Hc, Hb.
  - intros st v st' Hf. unfold eval_FunctionDefNode, bind, current_env, store.
    destruct (env_stack st) as [|top rest] eqn:Hs; [done|]. simpl. rewrite Hs.
    unfold ret. intros [= <- <-]. done.
  - unfold eval_ReturnNode. intros st v st' Hf. unfold bind, raise.
    destruct rv as [e|]; [destruct (eval_stmt fuel e st)|]; done.
Qed.

(** An operator reads no state and leaves it as it is. *)
Lemma apply_operator_pure op l r :
  (exists v, forall st2, apply_operator op l r st2 = Normal v st2)
  \/ (exists e, forall st2, apply_operator op l r st2 = Raised e st2).
Proof.
  unfold apply_operator.
  repeat (match goal with |- context [if ?b then _ else _] => destruct b end;
          [first [ by left; eexists
                 | match goal with |- context [lift_host ?r] => destruct r end;
                   [by left; eexists | by right; eexists] ]|]).
  by right; eexists.
Qed.

(** The value of an expression without a call depends on the stack
    alone, and its evaluation changes nothing. *)
Lemma simple_expr_Normal fuel e st v st' :
  is_simple_expr e = true ->
  eval_stmt fuel e st = Normal v st' ->
  st' = st
  /\ forall st2, env_stack st2 = env_stack st ->
                 eval_stmt fuel e st2 = Normal v st2.
Proof.
  revert e st v st'. induction fuel as [|fuel IH]; intros e st v st' He; [done|].
  destruct e as [? ? z|? ? z|ln ? x|? ? l op r| | | | | |]; simpl in He |- *;
    try discriminate He.
  - by intros [= <- <-].
  - by intros [= <- <-].
  - unfold eval_IdentifierNode.
    destruct (lookup_stack x (env_stack st)) as [w|] eqn:Hl; [|done].
    intros [= <- <-]. split; [done|]. intros st2 ->. by rewrite Hl.
  - apply andb_prop in He as [Hl Hr]. unfold eval_BinaryOpNode, bind.
    destruct (eval_stmt fuel l st) as [a s1| |] eqn:El; [|done..].
    destruct (IH _ _ _ _ Hl El) as [-> Tl].
    destruct (eval_stmt fuel r st) as [b s2| |] eqn:Er; [|done..].
    destruct (IH _ _ _ _ Hr Er) as [-> Tr].
    intros Hop.
    destruct (apply_operator_pure op a b) as [[w Hw] | [x Hx]].
    + rewrite Hw in Hop. injection Hop as <- <-. split; [done|].
      intros st2 Hs. by rewrite (Tl _ Hs), (Tr _ Hs), Hw.
    + by rewrite Hx in Hop.
Qed.

(** X6. A while loop whose condition is an expression without a call
    and whose body evaluates no call ends normally only when its
    condition is false at the first test, and it has then changed
    nothing. Once the body has run, the loop does not end normally:
    an iteration runs in a copy of the frame, which is dropped, so the
    condition is tested on the same stack again. *)
Theorem while_loop_ends_only_without_an_iteration
    fuel ln c cond body st v st' :
  is_simple_expr cond = true ->
  forallb call_free body = true ->
  env_stack st <> [] ->
  eval_stmt fuel (WhileNode ln c cond body) st = Normal v st' ->
  st' = st /\ v = VNone
  /\ exists cv, eval_stmt fuel cond st = Normal cv st /\ truthy cv = false.
Proof.
  intros Hc Hb. revert st. induction fuel as [|fuel IH]; intros st Hf; [done|].
  simpl. unfold eval_WhileNode at 1. unfold bind.
  destruct (eval_stmt fuel cond st) as [cv s1| |] eqn:Ec; [|done..].
  destruct (simple_expr_Normal _ _ _ _ _ Hc Ec) as [-> Tc].
  destruct (truthy cv) eqn:Ht.
  - destruct (run_block (eval_stmt fuel) body st) as [w s2| |] eqn:Eb; [|done..].
    assert (Hs2 : env_stack s2 = env_stack st).
    { eapply run_block_restores; [|exact Hf|exact Eb].
      apply forallb_settles; [|exact Hb]. intros n. apply eval_stmt_settles. }
    intros Hw. destruct (IH s2 ltac:(by rewrite Hs2) Hw) as (_ & _ & cv2 & E2 & Ht2).
    destruct (simple_expr_Normal _ _ _ _ _ Hc E2) as [_ T2].
    specialize (T2 st (eq_sym Hs2)).
    congruence.
  - unfold ret. intros [= <- <-]. split; [done|]. split; [done|].
    exists cv. split; [|done].
    apply (eval_stmt_fuel_le fuel (S fuel)); [lia | done | done].
Qed.

Lemma while_loop_ends_only_without_an_iteration_witness :
  x_is_zero = x_is_zero /\ VNone = VNone
  /\ exists cv,
       eval_stmt 2 (IdentifierNode None None "x") x_is_zero = Normal cv x_is_zero
       /\ truthy cv = false.
Proof.
  apply (while_loop_ends_only_without_an_iteration 2 None None
           (IdentifierNode None None "x")
           [AssignmentNode None None "x" (NumberNode None None (NInt 0))]
           x_is_zero VNone x_is_zero);
    [reflexivity | reflexivity | discriminate | reflexivity].
Defined.

(** X7. A name that a function reads and that is neither one of its
    parameters nor bound in the environment it captured is looked up
    in the stack of the caller, at the time of the call: the call of a
    function whose body returns such a name yields what the stack of
    the caller binds the name to, and it fails with the NameError of
    the name when that stack binds nothing. *)
Theorem uncaptured_name_is_read_from_the_caller
    fuel ln c l' c' f args st fid params l1 c1 l2 c2 x env vs st1 :
  lookup_stack f (env_stack st)
  = Some (FunctionValue fid params
            [ReturnNode l1 c1 (Some (IdentifierNode l2 c2 x))] env) ->
  eval_args (eval_expr (2 + fuel)) args st = Normal vs st1 ->
  env !! x = None ->
  x ∉ params ->
  eval_expr (3 + fuel) (CallNode ln c (IdentifierNode l' c' f) args) st
  = match lookup_stack x (env_stack st1) with
    | Some v => Normal v st1
    | None => Raised (NameError (NameNotFound x l2))
                (pushed (bind_params params vs env) st1)
    end.
Proof.
  intros Hf Ha Hx Hp. unfold eval_expr in *.
  change (3 + fuel) with (S (2 + fuel)).
  rewrite eval_stmt_CallNode.
  rewrite (eval_CallNode_user _ _ _ _ _ _ _ _ _ _ _ _ _ Hf Ha).
  rewrite call_function_unfold.
  simpl. unfold bind, eval_ReturnNode, bind, eval_IdentifierNode. simpl.
  rewrite bind_params_not_param by done. rewrite Hx.
  destruct (lookup_stack x (env_stack st1)) as [v|]; [|done].
  simpl. by destruct st1.
Qed.

Lemma uncaptured_name_is_read_from_the_caller_witness :
  eval_expr 3 (CallNode None None (IdentifierNode None None "f") [])
    late_binding_state
  = match lookup_stack "y" (env_stack late_binding_state) with
    | Some v => Normal v late_binding_state
    | None => Raised (NameError (NameNotFound "y" None))
                (pushed (bind_params [] [] global_env) late_binding_state)
    end.
Proof.
  apply (uncaptured_name_is_read_from_the_caller 0 None None None None "f" []
           late_binding_state 0 [] None None None None "y" global_env []
           late_binding_state);
    [reflexivity | reflexivity | reflexivity | apply not_elem_of_nil].
Defined.

Lemma eval_args_in_order ev args st vs st1 :
  evaluated_in_order ev args st vs st1 ->
  eval_args ev args st = Normal vs st1.
Proof.
  induction 1 as [st|a rest st v st1 vs st2 Ha _ IH]; [done|].
  cbn [eval_args]. rewrite (bind_Normal _ _ _ _ _ Ha).
  by rewrite (bind_Normal _ _ _ _ _ IH).
Qed.

Lemma eval_args_first_error ev pre a post st vs s e st' :
  evaluated_in_order ev pre st vs s ->
  ev a s = Raised e st' ->
  eval_args ev (pre ++ a :: post) st = Raised e st'.
Proof.
  intros Hpre Ha. rewrite eval_args_app.
  rewrite (bind_Normal _ _ _ _ _ (eval_args_in_order _ _ _ _ _ Hpre)).
  apply bind_Raised. cbn [eval_args]. by apply bind_Raised.
Qed.

Lemma evaluated_in_order_length ev args st vs st1 :
  evaluated_in_order ev args st vs st1 -> length vs = length args.
Proof. induction 1; simpl; congruence. Qed.

(** The body [return p] in a frame that binds [p]. *)
Lemma exec_return_of_binding fuel l1 c1 l2 c2 (p : string) frame st v :
  frame !! p = Some v ->
  exec_stmts (eval_stmt (2 + fuel))
    [ReturnNode l1 c1 (Some (IdentifierNode l2 c2 p))] (pushed frame st)
  = Raised (ReturnException v) (pushed frame st).
Proof.
  intros Hp. simpl. unfold bind, eval_ReturnNode, bind, eval_IdentifierNode.
  simpl. by rewrite Hp.
Qed.

Lemma call_function_returns_binding
    fuel params l1 c1 l2 c2 (p : string) env vs st v :
  bind_params params vs env !! p = Some v ->
  call_function (eval_stmt (2 + fuel)) params
    [ReturnNode l1 c1 (Some (IdentifierNode l2 c2 p))] env vs st
  = Normal v st.
Proof.
  intros Hp. rewrite call_function_unfold.
  rewrite (exec_return_of_binding _ _ _ _ _ _ _ _ _ Hp).
  apply pop_pushed_Normal.
Qed.

(** The frame of a call is still on the stack when the body has run,
    so the [pop_env] at the end of the call finds it: what a call
    raises, its body has raised. *)
Lemma call_function_raises_with_the_body fuel params body env vs st e st' :
  call_function (eval_stmt fuel) params body env vs st = Raised e st' ->
  exec_stmts (eval_stmt fuel) body (pushed (bind_params params vs env) st)
  = Raised e st'.
Proof.
  rewrite call_function_unfold.
  pose proof (exec_stmts_kept fuel body
                (pushed (bind_params params vs env) st) ltac:(done)) as Hb.
  destruct (exec_stmts (eval_stmt fuel) body
              (pushed (bind_params params vs env) st))
    as [[] st2|e2 st2|]; [| |done].
  - destruct (kept_pushed _ _ _ Hb) as (t2 & above & H2).
    unfold bind, pop_env, ret. by rewrite H2.
  - destruct Hb as [Hb _].
    destruct (kept_pushed _ _ _ Hb) as (t2 & above & H2).
    destruct e2; try (by intros [= <- <-]).
    unfold bind, pop_env, ret. by rewrite H2.
Qed.

(** C9. A call of a user-defined function with fewer arguments than
    parameters, whose arguments evaluate from left to right to [vs],
    runs the body in the new environment with no check of their
    number: the outcome of the call is the outcome of the body, and
    what the call raises the body has raised. Every parameter from the
    position of the first missing argument on is bound to [None], the
    parameters before it to the values of the arguments (the
    parameter names being distinct), and every other name as in the
    captured environment. The body runs with these bindings: when it
    is [return p] for the parameter [p] at position [i], the call
    returns the value of the argument at [i], or [None] when there is
    none, and leaves the state the arguments left; with an empty body
    the call returns [None]. *)
Theorem missing_arguments_bound_to_None
    fuel ln c l' c' name args st fid params body env vs st1 :
  lookup_stack name (env_stack st) = Some (FunctionValue fid params body env) ->
  length args < length params ->
  evaluated_in_order (eval_expr (2 + fuel)) args st vs st1 ->
  eval_expr (3 + fuel) (CallNode ln c (IdentifierNode l' c' name) args) st
  = finish_call
      (exec_stmts (eval_stmt (2 + fuel)) body
         (pushed (bind_params params vs env) st1))
  /\ (forall e st',
        eval_expr (3 + fuel) (CallNode ln c (IdentifierNode l' c' name) args) st
        = Raised e st' ->
        exec_stmts (eval_stmt (2 + fuel)) body
          (pushed (bind_params params vs env) st1)
        = Raised e st')
  /\ (forall (i : nat) (p : string),
        length args <= i -> params !! i = Some p ->
        bind_params params vs env !! p = Some VNone)
  /\ (forall (i : nat) (p : string) v,
        NoDup params -> params !! i = Some p -> vs !! i = Some v ->
        bind_params params vs env !! p = Some v)
  /\ (forall p : string,
        p ∉ params -> bind_params params vs env !! p = env !! p)
  /\ (forall (i : nat) (p : string) l1 c1 l2 c2,
        NoDup params -> params !! i = Some p ->
        body = [ReturnNode l1 c1 (Some (IdentifierNode l2 c2 p))] ->
        eval_expr (3 + fuel) (CallNode ln c (IdentifierNode l' c' name) args) st
        = Normal (default VNone (vs !! i)) st1)
  /\ (body = [] ->
      eval_expr (3 + fuel) (CallNode ln c (IdentifierNode l' c' name) args) st
      = Normal VNone st1).
Proof.
  intros Hf Hlen Hargs. unfold eval_expr in *.
  pose proof (evaluated_in_order_length _ _ _ _ _ Hargs) as Hvs.
  assert (Hmissing : forall (i : nat) (p : string),
            length args <= i -> params !! i = Some p ->
            bind_params params vs env !! p = Some VNone).
  { intros i p Hi Hp. apply (bind_params_missing _ _ _ i); [lia | done]. }
  assert (Hcall :
            eval_stmt (3 + fuel) (CallNode ln c (IdentifierNode l' c' name) args) st
            = call_function (eval_stmt (2 + fuel)) params body env vs st1).
  { change (3 + fuel) with (S (2 + fuel)). rewrite eval_stmt_CallNode.
    apply (eval_CallNode_user _ _ _ _ _ _ _ _ _ _ _ _ _ Hf).
    by apply eval_args_in_order. }
  rewrite Hcall.
  split; [by rewrite call_function_unfold|].
  split; [intros e st'; apply call_function_raises_with_the_body|].
  split; [exact Hmissing|].
  split; [intros i p v Hnd Hp Hv; by apply (bind_params_positional _ _ _ i)|].
  split; [intros p Hp; by apply bind_params_not_param|].
  split.
  - intros i p l1 c1 l2 c2 Hnd Hp ->.
    apply call_function_returns_binding.
    destruct (vs !! i) as [v|] eqn:Hv; simpl.
    + by apply (bind_params_positional _ _ _ i).
    + apply (Hmissing i); [|done]. apply lookup_ge_None in Hv. lia.
  - intros ->. rewrite call_function_unfold. simpl. apply pop_pushed_Normal.
Qed.

(** C9, an instance: [second(1)], where [second(a, b)] returns [b]. *)
Lemma missing_arguments_bound_to_None_witness :
  evaluated_in_order (eval_expr 2) [lit 1] after_second [VInt 1] after_second
  /\ eval_expr 3 (call_named "second" [lit 1]) after_second
     = Normal VNone after_second.
Proof.
  assert (Hargs : evaluated_in_order (eval_expr 2) [lit 1] after_second
                    [VInt 1] after_second).
  { apply (next_argument _ _ _ _ (VInt 1) after_second); [reflexivity|].
    apply no_argument. }
  split; [exact Hargs|].
  destruct (missing_arguments_bound_to_None 0 None None None None "second"
              [lit 1] after_second 0 ["a"; "b"] [ret_ (ident "b")] global_env
              [VInt 1] after_second eq_refl ltac:(simpl; lia) Hargs)
    as (_ & _ & _ & _ & _ & H & _).
  apply (H 1 "b" None None None None); [|reflexivity|reflexivity].
  apply NoDup_cons. split; [|apply NoDup_singleton].
  intros Hin. apply list_elem_of_singleton in Hin. discriminate Hin.
Defined.

(** C10. A call of a user-defined function with more arguments than
    parameters evaluates every argument, one after the other from the
    left, each in the state the one before it left. When all of them
    yield values [vs], the body runs in the state the last argument
    left, in the environment that binds the parameters to the first
    values position by position (the parameter names being distinct)
    and every other name as captured; the extra values are bound to
    nothing, the call raises only what its body raises, and with the
    body [return p] it returns the value at the position of [p]. When
    an argument raises after the ones before it yielded values, be it
    an extra one, the call raises the same exception in the same state
    and the body does not run. *)
Theorem extra_arguments_discarded
    fuel ln c l' c' name args st fid params body env :
  lookup_stack name (env_stack st) = Some (FunctionValue fid params body env) ->
  length params < length args ->
  (forall vs st1,
     evaluated_in_order (eval_expr (2 + fuel)) args st vs st1 ->
     eval_expr (3 + fuel) (CallNode ln c (IdentifierNode l' c' name) args) st
     = finish_call
         (exec_stmts (eval_stmt (2 + fuel)) body
            (pushed (bind_params params (take (length params) vs) env) st1))
     /\ (forall e st',
           eval_expr (3 + fuel)
             (CallNode ln c (IdentifierNode l' c' name) args) st
           = Raised e st' ->
           exec_stmts (eval_stmt (2 + fuel)) body
             (pushed (bind_params params (take (length params) vs) env) st1)
           = Raised e st')
     /\ (forall (i : nat) (p : string),
           NoDup params -> params !! i = Some p ->
           bind_params params (take (length params) vs) env !! p = vs !! i)
     /\ (forall p : string,
           p ∉ params ->
           bind_params params (take (length params) vs) env !! p = env !! p)
     /\ (forall (i : nat) (p : string) l1 c1 l2 c2,
           NoDup params -> params !! i = Some p ->
           body = [ReturnNode l1 c1 (Some (IdentifierNode l2 c2 p))] ->
           exists v,
             vs !! i = Some v
             /\ eval_expr (3 + fuel)
                  (CallNode ln c (IdentifierNode l' c' name) args) st
                = Normal v st1))
  /\ (forall pre a post vs s e st',
        args = (pre ++ a :: post)%list ->
        evaluated_in_order (eval_expr (2 + fuel)) pre st vs s ->
        eval_expr (2 + fuel) a s = Raised e st' ->
        eval_expr (3 + fuel) (CallNode ln c (IdentifierNode l' c' name) args) st
        = Raised e st').
Proof.
  intros Hf Hlen. unfold eval_expr.
  change (3 + fuel) with (S (2 + fuel)). rewrite eval_stmt_CallNode.
  rewrite (eval_CallNode_identifier _ _ _ _ _ _ _ _ _ _ _ Hf).
  split.
  - intros vs st1 Hargs.
    pose proof (evaluated_in_order_length _ _ _ _ _ Hargs) as Hvs.
    rewrite (eval_args_in_order _ _ _ _ _ Hargs).
    assert (Hpos : forall (i : nat) (p : string),
              NoDup params -> params !! i = Some p ->
              bind_params params (take (length params) vs) env !! p = vs !! i).
    { intros i p Hnd Hp.
      assert (Hi : i < length params) by by eapply lookup_lt_Some.
      destruct (vs !! i) as [v|] eqn:Hv.
      - apply (bind_params_positional _ _ _ i); [done..|].
        by rewrite lookup_take_lt.
      - apply lookup_ge_None in Hv. lia. }
    split; [by rewrite call_function_unfold, bind_params_take|].
    split.
    { intros e st' H. rewrite <- bind_params_take.
      by apply call_function_raises_with_the_body. }
    split; [exact Hpos|].
    split; [intros p Hp; by apply bind_params_not_param|].
    intros i p l1 c1 l2 c2 Hnd Hp ->.
    assert (Hi : i < length params) by by eapply lookup_lt_Some.
    destruct (vs !! i) as [v|] eqn:Hv;
      [|apply lookup_ge_None in Hv; lia].
    exists v. split; [done|].
    apply call_function_returns_binding.
    rewrite bind_params_take, (Hpos i p) by done. done.
  - intros pre a post vs s e st' -> Hpre Ha.
    by rewrite (eval_args_first_error _ _ _ _ _ _ _ _ _ Hpre Ha).
Qed.

(** C10, an instance: [second(1, 2, 3)]. *)
Lemma extra_arguments_discarded_witness :
  evaluated_in_order (eval_expr 2) [lit 1; lit 2; lit 3] after_second
    [VInt 1; VInt 2; VInt 3] after_second
  /\ eval_expr 3 (call_named "second" [lit 1; lit 2; lit 3]) after_second
     = Normal (VInt 2) after_second.
Proof.
  assert (Hargs : evaluated_in_order (eval_expr 2) [lit 1; lit 2; lit 3]
                    after_second [VInt 1; VInt 2; VInt 3] after_second).
  { repeat (eapply next_argument; [reflexivity|]). apply no_argument. }
  split; [exact Hargs|].
  destruct (extra_arguments_discarded 0 None None None None "second"
              [lit 1; lit 2; lit 3] after_second 0 ["a"; "b"]
              [ret_ (ident "b")] global_env eq_refl ltac:(simpl; lia))
    as [H _].
  destruct (H [VInt 1; VInt 2; VInt 3] after_second Hargs)
    as (_ & _ & _ & _ & Hb).
  destruct (Hb 1 "b" None None None None) as (v & Hv & Hcall);
    [|reflexivity|reflexivity|].
  - apply NoDup_cons. split; [|apply NoDup_singleton].
    intros Hin. apply list_elem_of_singleton in Hin. discriminate Hin.
  - injection Hv as <-. exact Hcall.
Defined.

(** C3. The claim does not hold once another call has run inside the
    inner function. The function value does hold a copy of the
    bindings of the definition time, and in the program of the claim
    ([x = v], the definition of [inner] with the body [return x],
    [x = w], then [inner()]) the call yields [v]. But when [inner]
    first calls [g(u)], a function with a parameter [x] that returns
    from inside an [if], that call leaves its frame on the stack
    (as in C2), and [return x] reads [x] from the frame left there:
    the program prints [u], a value [x] never had in [outer], whatever
    [v], [w] and [u] are. *)
Theorem closure_reads_the_frame_a_call_left (v w u : Z) :
  (forall extra,
     exists st,
       run (6 + extra) (closure_called_later v w) = Normal tt st
       /\ stdout st = [[VInt v]])
  /\ (forall extra,
        exists st,
          run (8 + extra) (closure_after_a_call v w u) = Normal tt st
          /\ stdout st = [[VInt u]]).
Proof.
  split; intros extra; eexists; (split; [|shelve]).
  - rewrite Nat.add_comm. apply run_more_fuel; [vm_compute; reflexivity|done].
  - rewrite Nat.add_comm. apply run_more_fuel; [vm_compute; reflexivity|done].
  Unshelve. all: reflexivity.
Qed.

(** The call of the swapped [fact] when the body takes the branch
    [n <= 1]. *)
Lemma fact_swapped_call_base fuel k st arg fa :
  k <= 1 ->
  lookup_stack "fact" (env_stack st) = Some fact_swapped_value ->
  eval_stmt fa arg st = Normal (VInt (Z.of_nat k)) st ->
  eval_stmt (5 + fa + fuel) (call_named "fact" [arg]) st
  = Normal (VInt 1) (pushed (fact_frame k) st).
Proof.
  intros Hk Hf Ha.
  change (5 + fa + fuel) with (S (S (S (S (S (fa + fuel)))))).
  rewrite eval_stmt_CallNode.
  set (g := S (S (S (S (fa + fuel))))).
  assert (Hargs : eval_args (eval_stmt g) [arg] st
                  = Normal [VInt (Z.of_nat k)] st).
  { cbn [eval_args]. erewrite bind_Normal; [done|].
    apply (eval_stmt_fuel_le fa); [unfold g; lia | done | done]. }
  erewrite eval_CallNode_user; [|exact Hf|exact Hargs].
  rewrite call_function_unfold.
  change (bind_params ["n"] [VInt (Z.of_nat k)] global_env) with (fact_frame k).
  set (st1 := pushed (fact_frame k) st).
  assert (Hb : exec_stmts (eval_stmt g) fact_swapped_body st1
               = Raised (ReturnException (VInt 1)) (pushed (fact_frame k) st1)).
  { unfold fact_swapped_body. cbn [exec_stmts]. apply bind_Raised.
    unfold g. erewrite eval_stmt_IfNode;
      [|apply (fact_test (S (fa + fuel)))].
    replace (Z.of_nat k <=? 1)%Z with true by (symmetry; apply Z.leb_le; lia).
    cbn [truthy].
    apply (run_block_raised _ _ _ (fact_frame k) (env_stack st)); [done|].
    cbn [exec_stmts]. apply bind_Raised. fold st1.
    by apply eval_stmt_ReturnNode. }
  rewrite Hb. apply pop_pushed_Normal.
Qed.

(** The call of the swapped [fact] when the body goes on to the
    recursive call: the call comes first and leaves its frame on the
    stack, and [n] is then read from that frame. *)
Lemma fact_swapped_call_step fuel k st arg fa f1 v :
  2 <= k ->
  lookup_stack "fact" (env_stack st) = Some fact_swapped_value ->
  eval_stmt fa arg st = Normal (VInt (Z.of_nat k)) st ->
  eval_stmt f1 (call_named "fact" [binop (ident "n") "-" (lit 1)])
    (pushed (fact_frame k) st)
  = Normal (VInt v) (pushed (fact_frame (k - 1)) (pushed (fact_frame k) st)) ->
  eval_stmt (5 + fa + f1 + fuel) (call_named "fact" [arg]) st
  = Normal (VInt (v * Z.of_nat (k - 1))) (pushed (fact_frame k) st).
Proof.
  intros Hk Hf Ha Hrec.
  change (5 + fa + f1 + fuel) with (S (S (S (S (S (fa + f1 + fuel)))))).
  rewrite eval_stmt_CallNode.
  set (g := S (S (S (S (fa + f1 + fuel))))).
  assert (Hargs : eval_args (eval_stmt g) [arg] st
                  = Normal [VInt (Z.of_nat k)] st).
  { cbn [eval_args]. erewrite bind_Normal; [done|].
    apply (eval_stmt_fuel_le fa); [unfold g; lia | done | done]. }
  erewrite eval_CallNode_user; [|exact Hf|exact Hargs].
  rewrite call_function_unfold.
  change (bind_params ["n"] [VInt (Z.of_nat k)] global_env) with (fact_frame k).
  set (st1 := pushed (fact_frame k) st) in *.
  assert (Hb : exec_stmts (eval_stmt g) fact_swapped_body st1
               = Raised (ReturnException (VInt (v * Z.of_nat (k - 1))))
                   (pushed (fact_frame (k - 1)) st1)).
  { unfold fact_swapped_body. cbn [exec_stmts].
    erewrite bind_Normal.
    2:{ unfold g. erewrite eval_stmt_IfNode;
          [|apply (fact_test (S (fa + f1 + fuel)))].
        replace (Z.of_nat k <=? 1)%Z with false
          by (symmetry; apply Z.leb_gt; lia).
        reflexivity. }
    apply bind_Raised. unfold g.
    apply eval_stmt_ReturnNode.
    erewrite eval_stmt_BinaryOpNode;
      [apply operator_mul
      | apply (eval_stmt_fuel_le f1); [lia | exact Hrec | done]
      | apply eval_stmt_IdentifierNode, lookup_n_pushed ]. }
  rewrite Hb. apply pop_pushed_Normal.
Qed.

(** A call of the swapped [fact] on an argument that evaluates to [k]
    yields the factorial of [k - 1]. *)
Lemma fact_swapped_call k :
  exists N, forall st arg fa,
    lookup_stack "fact" (env_stack st) = Some fact_swapped_value ->
    eval_stmt fa arg st = Normal (VInt (Z.of_nat k)) st ->
    eval_stmt (N + fa) (call_named "fact" [arg]) st
    = Normal (VInt (Z.of_nat (fact (k - 1)))) (pushed (fact_frame k) st).
Proof.
  induction k as [|k [N IH]].
  - exists 5. intros st arg fa Hf Ha.
    rewrite <- (Nat.add_0_r (5 + fa)).
    apply fact_swapped_call_base; [lia|done|done].
  - destruct k as [|k].
    + exists 5. intros st arg fa Hf Ha.
      rewrite <- (Nat.add_0_r (5 + fa)).
      apply fact_swapped_call_base; [lia|done|done].
    + exists (5 + (N + 3)). intros st arg fa Hf Ha.
      set (m := S (S k)) in *.
      assert (Hrec :
        eval_stmt (N + 3) (call_named "fact" [binop (ident "n") "-" (lit 1)])
          (pushed (fact_frame m) st)
        = Normal (VInt (Z.of_nat (fact (S k - 1))))
            (pushed (fact_frame (m - 1)) (pushed (fact_frame m) st))).
      { replace (m - 1) with (S k) by (unfold m; lia).
        apply IH; [by apply lookup_fact_pushed|].
        erewrite eval_stmt_BinaryOpNode;
          [|apply eval_stmt_IdentifierNode, lookup_n_pushed|done].
        rewrite operator_sub. do 2 f_equal. unfold m. lia. }
      replace (5 + (N + 3) + fa) with (5 + fa + (N + 3) + 0) by lia.
      erewrite (fact_swapped_call_step 0 m); [|unfold m; lia|done|done|exact Hrec].
      do 2 f_equal. unfold m.
      replace (S k - 1) with k by lia. replace (S (S k) - 1) with (S k) by lia.
      change (fact (S k)) with (S k * fact k).
      rewrite Nat2Z.inj_mul. lia.
Qed.

Lemma fact_swapped_program_prints (k : nat) :
  exists fuel,
    run fuel (fact_swapped_program k)
    = Normal tt
        {| env_stack :=
             [fact_frame k; <["fact" := fact_swapped_value]> global_env];
           stdout := [[VInt (Z.of_nat (fact (k - 1)))]];
           next_fid := 1 |}.
Proof.
  destruct (fact_swapped_call k) as [N HN].
  exists (S (N + 1)).
  unfold run, fact_swapped_program. cbn [body exec_stmts].
  erewrite bind_Normal.
  2:{ apply (eval_stmt_FunctionDefNode _ _ _ _ _ _ _ global_env []). done. }
  fold fact_swapped_value. change (S (next_fid initial_state)) with 1.
  change (stdout initial_state) with (@nil (list value)).
  erewrite bind_Normal; [reflexivity|].
  rewrite eval_stmt_CallNode.
  unfold eval_CallNode. cbn [resolve_callee].
  erewrite bind_Normal; [|reflexivity].
  erewrite bind_Normal.
  2:{ cbn [eval_args]. erewrite bind_Normal; [reflexivity|].
      apply HN; done. }
  reflexivity.
Qed.

(** C4. The claim does not hold of every self-recursive function with
    a decreasing base case. With the body of the claim,
    [return n * fact(n - 1)], the program prints the factorial of [k]
    for every [k]. With the operands the other way round,
    [return fact(n - 1) * n], the recursive call runs first and leaves
    its frame on the stack (it returned from inside the [if], or after
    a call that did), [n] is then read from that frame, and
    [fact(k + 1)] prints the factorial of [k]: 2 for [fact(3)], 24 for
    [fact(5)]. For the same reason [fib(6)], with
    [return fib(n - 1) + fib(n - 2)], prints -4 with any fuel from 20
    on, where the Fibonacci number is 8. *)
Theorem recursive_call_result_depends_on_the_operand_order :
  (forall k,
     exists fuel st,
       run fuel (fact_program k) = Normal tt st
       /\ stdout st = [[VInt (Z.of_nat (fact k))]])
  /\ (forall k,
        exists fuel st,
          run fuel (fact_swapped_program (S k)) = Normal tt st
          /\ stdout st = [[VInt (Z.of_nat (fact k))]])
  /\ (forall extra,
        exists st,
          run (20 + extra) fib_program = Normal tt st
          /\ stdout st = [[VInt (-4)]]).
Proof.
  split; [|split].
  - intros k. destruct (factorial_recursion_is_correct k) as (fuel & H & _).
    eexists fuel, _. split; [exact H|reflexivity].
  - intros k. destruct (fact_swapped_program_prints (S k)) as (fuel & H).
    eexists fuel, _. split; [exact H|]. simpl. by rewrite Nat.sub_0_r.
  - intros extra. eexists. split.
    + rewrite Nat.add_comm. apply run_more_fuel; [vm_compute; reflexivity|done].
    + reflexivity.
Qed.

End InterpreterFacts.

(** ** The scope checker *)

Module SemanticFacts.

Import Semantic SemanticSpec.

Lemma lookup_true (name : string) (t : SymbolTable) :
  lookup name t = true <-> exists s, s ∈ t /\ name ∈ s.
Proof.
  induction t as [|s below IH]; simpl.
  - split; [done | intros (s & Hs & _); by apply elem_of_nil in Hs].
  - destruct (decide (name ∈ s)) as [Hin|Hout].
    + split; [|done]. intros _. exists s. split; [apply elem_of_cons; by left|done].
    + rewrite IH. split.
      * intros (s' & Hs' & Hn). exists s'. split; [apply elem_of_cons; by right|done].
      * intros (s' & Hs' & Hn). apply elem_of_cons in Hs' as [->|Hs']; [done|].
        by exists s'.
Qed.

Lemma covered_grow ctx (D top : gset string) below :
  covered ctx (top :: below) -> D ⊆ ctx -> covered ctx ((D ∪ top) :: below).
Proof.
  intros Hc HD name Hl. apply lookup_true in Hl as (s & Hs & Hn).
  apply elem_of_cons in Hs as [->|Hs].
  - apply elem_of_union in Hn as [Hn|Hn]; [set_solver|].
    apply Hc, lookup_true. exists top. split; [apply elem_of_cons; by left|done].
  - apply Hc, lookup_true. exists s. split; [apply elem_of_cons; by right|done].
Qed.

Lemma covered_weaken ctx ctx' t : ctx ⊆ ctx' -> covered ctx t -> covered ctx' t.
Proof. intros Hsub Hc name Hl. apply Hsub, Hc, Hl. Qed.

Lemma covered_enter ctx t : covered ctx t -> covered ctx (∅ :: t).
Proof.
  intros Hc name Hl. apply lookup_true in Hl as (s & Hs & Hn).
  apply elem_of_cons in Hs as [->|Hs]; [set_solver|].
  apply Hc, lookup_true. by exists s.
Qed.

Lemma insert_params_top params (top : gset string) below :
  insert_params params (top :: below)
  = inl ((list_to_set params ∪ top) :: below).
Proof.
  revert top. induction params as [|p ps IH]; intros top; simpl.
  - do 2 f_equal. set_solver.
  - rewrite IH. do 2 f_equal. set_solver.
Qed.

Lemma visited_nothing top below :
  visited [] ∅ top below (inl (top :: below)).
Proof.
  left. split; [|by apply List.Forall_nil]. do 2 f_equal. set_solver.
Qed.

Lemma visited_then rs1 rs2 (D1 D2 top : gset string) below r1 (k : visitor) :
  visited rs1 D1 top below r1 ->
  visited rs2 D2 (D1 ∪ top) below (k ((D1 ∪ top) :: below)) ->
  visited (rs1 ++ rs2) (D1 ∪ D2) top below (and_then r1 k).
Proof.
  intros [[-> H1] | (pre & rd & post & -> & Hpre & ->)] H2.
  - simpl. destruct H2 as [[-> H2] | (pre & rd & post & -> & Hpre & ->)].
    + left. split; [|by apply Forall_app]. do 2 f_equal. set_solver.
    + right. exists (rs1 ++ pre)%list, rd, post.
      split; [by rewrite <- app_assoc|]. split; [by apply Forall_app|done].
  - right. exists pre, rd, (post ++ rs2)%list.
    split; [by rewrite <- app_assoc|]. done.
Qed.

Lemma visit_stmts_spec ctx (l : list node) :
  Forall (fun n => forall ctx, visit_spec ctx n) l ->
  forall top below,
    covered ctx (top :: below) -> decls_list decls l ⊆ ctx ->
    visited (scoped_reads_list scoped_reads ctx l) (decls_list decls l)
      top below (visit_stmts visit l (top :: below)).
Proof.
  induction 1 as [|n rest Hn _ IH]; intros top below Hc HD.
  - apply visited_nothing.
  - unfold decls_list in *. simpl in *.
    apply visited_then.
    + apply Hn; [done | set_solver].
    + apply IH; [apply covered_grow; [done | set_solver] | set_solver].
Qed.

Lemma visit_elifs_spec ctx (l : list (node * list node)) :
  Forall (fun cb => (forall ctx, visit_spec ctx (fst cb))
                    /\ Forall (fun n => forall ctx, visit_spec ctx n) (snd cb)) l ->
  forall top below,
    covered ctx (top :: below) -> decls_elifs decls l ⊆ ctx ->
    visited (scoped_reads_elifs scoped_reads ctx l) (decls_elifs decls l)
      top below (visit_elifs visit l (top :: below)).
Proof.
  induction 1 as [|[c b] rest [Hc' Hb] _ IH]; intros top below Hc HD.
  - apply visited_nothing.
  - unfold decls_elifs in *. simpl in *.
    apply visited_then.
    + apply visited_then.
      * apply Hc'; [done | set_solver].
      * apply visit_stmts_spec;
          [done | apply covered_grow; [done | set_solver] | set_solver].
    + apply IH; [apply covered_grow; [done | set_solver] | set_solver].
Qed.

Lemma visit_node_spec (n : node) : forall ctx, visit_spec ctx n.
Proof.
  induction n as
    [l c v|l c v|l c x|l c a op b IHa IHb|l c x e IHe
    |l c cond tb el eb IHc IHtb IHel IHeb|l c cond b IHc IHb
    |l c f ps b IHb|l c rv IHrv|l c f args IHf IHargs]
    using node_induction;
    intros ctx top below Hc HD; simpl in HD.
  - apply visited_nothing.
  - apply visited_nothing.
  - simpl. unfold visit_IdentifierNode.
    destruct (lookup x (top :: below)) eqn:Hl.
    + left. split; [do 2 f_equal; set_solver|].
      apply Forall_singleton. simpl. apply bool_decide_eq_true, Hc, Hl.
    + right. eexists [], _, []. split; [done|]. split; [apply List.Forall_nil|done].
  - change (visit (BinaryOpNode l c a op b) (top :: below))
      with (and_then (visit a (top :: below)) (visit b)).
    apply visited_then.
    + apply IHa; [done | set_solver].
    + apply IHb; [apply covered_grow; [done | set_solver] | set_solver].
  - change (visit (AssignmentNode l c x e) (top :: below))
      with (and_then (visit e (top :: below)) (insert x)).
    simpl scoped_reads. simpl decls.
    rewrite <- (app_nil_r (scoped_reads ctx e)).
    apply visited_then.
    + apply IHe; [done | set_solver].
    + left. split; [done | apply List.Forall_nil].
  - change (visit (IfNode l c cond tb el eb) (top :: below))
      with (and_then (and_then (and_then (visit cond (top :: below))
                                  (visit_stmts visit tb))
                        (visit_elifs visit el))
              match eb with
              | Some (s :: ss) => visit_stmts visit (s :: ss)
              | Some [] | None => fun t' => inl t'
              end).
    simpl scoped_reads. simpl decls. rewrite !app_assoc.
    apply visited_then; [apply visited_then; [apply visited_then|]|].
    + apply IHc; [done | set_solver].
    + apply visit_stmts_spec;
        [done | apply covered_grow; [done | set_solver] | set_solver].
    + apply visit_elifs_spec;
        [done | apply covered_grow; [done | set_solver] | set_solver].
    + destruct eb as [[|s ss]|].
      * apply visited_nothing.
      * apply visit_stmts_spec;
          [done | apply covered_grow; [done | set_solver] | set_solver].
      * apply visited_nothing.
  - change (visit (WhileNode l c cond b) (top :: below))
      with (and_then (visit cond (top :: below)) (visit_stmts visit b)).
    apply visited_then.
    + apply IHc; [done | set_solver].
    + apply visit_stmts_spec;
        [done | apply covered_grow; [done | set_solver] | set_solver].
  - change (visit (FunctionDefNode l c f ps b) (top :: below))
      with (and_then
              (and_then (insert_params ps (∅ :: ({[f]} ∪ top) :: below))
                 (visit_stmts visit b))
              exit).
    rewrite insert_params_top. cbn [and_then].
    simpl scoped_reads. simpl decls.
    set (inner := ctx ∪ list_to_set ps ∪ decls_list decls b).
    set (outer := ({[f]} ∪ top) :: below).
    assert (Hin : covered inner ((list_to_set ps ∪ ∅) :: outer)).
    { apply covered_grow; [|set_solver].
      apply covered_enter. apply (covered_weaken ctx); [set_solver|].
      apply covered_grow; [done | set_solver]. }
    destruct (visit_stmts_spec inner b IHb _ _ Hin ltac:(set_solver))
      as [[-> Hall] | (pre & rd & post & Hrs & Hpre & ->)].
    + left. split; [done|]. exact Hall.
    + right. exists pre, rd, post. split; [exact Hrs|]. done.
  - destruct rv as [e|]; simpl.
    + apply IHrv; done.
    + apply visited_nothing.
  - change (visit (CallNode l c f args) (top :: below))
      with (and_then
              match f with
              | IdentifierNode _ _ _ => inl (top :: below)
              | _ => visit f (top :: below)
              end
              (visit_stmts visit args)).
    simpl scoped_reads. simpl decls.
    apply visited_then.
    + destruct f; try (apply IHf; [done | set_solver]).
      apply visited_nothing.
    + apply visit_stmts_spec;
        [done | apply covered_grow; [done | set_solver] | set_solver].
Qed.

(** The checker on a whole program. *)
Lemma analyze_spec (p : Program) :
  (analyze p = Accepted /\ all_bound (program_reads p))
  \/ (exists pre rd post,
        program_reads p = (pre ++ rd :: post)%list /\ all_bound pre
        /\ analyze p = Rejected (read_name rd) (read_line rd)).
Proof.
  unfold analyze, initial_symtab, new_symtab, visit_Program. simpl insert.
  simpl and_then.
  assert (Hc : covered (program_scope p) [{["print"]} ∪ ∅]).
  { intros name Hl. apply lookup_true in Hl as (s & Hs & Hn).
    apply list_elem_of_singleton in Hs as ->. unfold program_scope. set_solver. }
  destruct (visit_stmts_spec (program_scope p) (body p)
              ltac:(apply Forall_forall; intros; apply visit_node_spec)
              _ _ Hc ltac:(unfold program_scope; set_solver))
    as [[-> Hall] | (pre & rd & post & Hrs & Hpre & ->)].
  - by left.
  - right. by exists pre, rd, post.
Qed.

(** C6, as worded, fails: on [print(a + b)] the error names [a], never
    [b]; and a read of the builtin is accepted. *)
Lemma every_unbound_read_is_named_fails :
  ~ every_unbound_read_is_named
  /\ analyze two_unbound_reads = Rejected "a" (Some 1)
  /\ analyze reads_the_builtin = Accepted.
Proof.
  split; [|split; reflexivity].
  intros H. specialize (H two_unbound_reads "b" (Some 1)).
  assert (Hin : {| read_name := "b"; read_line := Some 1; read_bound := false |}
                ∈ program_reads two_unbound_reads).
  { vm_compute. apply elem_of_cons. right. apply elem_of_cons. by left. }
  specialize (H Hin). vm_compute in H. discriminate H.
Qed.

Lemma covered_by_union (t : SymbolTable) (D : gset string) :
  covered (⋃ t ∪ D) t.
Proof.
  intros name Hl. apply lookup_true in Hl as (s & Hs & Hn).
  apply elem_of_union. left. apply elem_of_union_list. by exists s.
Qed.

Lemma visit_outcome n top below :
  visit n (top :: below) = inl ((decls n ∪ top) :: below)
  \/ exists x l, visit n (top :: below) = inr (CompilerError x l).
Proof.
  destruct (visit_node_spec n (⋃ (top :: below) ∪ decls n) top below
              (covered_by_union _ _) ltac:(set_solver))
    as [[H _] | (pre & rd & post & _ & _ & H)].
  - by left.
  - right. by eexists _, _.
Qed.

(** X8. A visit that succeeds adds to the current scope the names the
    node binds in it (through if and while bodies; of a function
    definition the name of the function alone) and changes nothing
    else: every scope that was entered has been left. No visit fails
    on an empty stack of scopes, and the checker never crashes. *)
Theorem visit_adds_the_declarations_to_the_current_scope n top below :
  (forall t', visit n (top :: below) = inl t' ->
     t' = (decls n ∪ top) :: below)
  /\ visit n (top :: below) <> inr ScopeIndexError
  /\ (forall p, analyze p <> Crashed).
Proof.
  split; [|split].
  - intros t' H. destruct (visit_outcome n top below) as [H'|(x & l & H')];
      congruence.
  - destruct (visit_outcome n top below) as [H'|(x & l & H')]; congruence.
  - intros p. destruct (analyze_spec p) as [[H _] | (pre & rd & post & _ & _ & H)];
      congruence.
Qed.

Example function_scope_is_left :
  visit local_binding [{[ "print" ]}] = inl [{[ "f"; "print" ]}].
Proof.
  destruct (visit_outcome local_binding {[ "print" ]} []) as [H|(x & l & H)].
  - rewrite H. do 2 f_equal.
  - vm_compute in H. discriminate H.
Qed.

Lemma lookup_visible x t : lookup x t = bool_decide (x ∈ visible t).
Proof.
  unfold visible. destruct (lookup x t) eqn:E; symmetry.
  - apply bool_decide_eq_true. apply lookup_true in E as (s & Hs & Hx).
    apply elem_of_union_list. by exists s.
  - apply bool_decide_eq_false. intros H.
    apply elem_of_union_list in H as (s & Hs & Hx).
    assert (lookup x t = true) as E' by (apply lookup_true; by exists s).
    congruence.
Qed.

Lemma visible_cons (top : gset string) below :
  visible (top :: below) = top ∪ visible below.
Proof. reflexivity. Qed.

Lemma first_untimely_app rs1 rs2 :
  first_untimely (rs1 ++ rs2)
  = match first_untimely rs1 with
    | Some rd => Some rd
    | None => first_untimely rs2
    end.
Proof.
  induction rs1 as [|rd rest IH]; [done|]. simpl.
  by destruct (read_bound rd).
Qed.

Lemma checked_nothing top below : checked [] ∅ top below (inl (top :: below)).
Proof. unfold checked. simpl. do 2 f_equal. set_solver. Qed.

Lemma checked_then rs1 rs2 (D1 D2 top : gset string) below r1 (k : visitor) :
  checked rs1 D1 top below r1 ->
  checked rs2 D2 (D1 ∪ top) below (k ((D1 ∪ top) :: below)) ->
  checked (rs1 ++ rs2) (D1 ∪ D2) top below (and_then r1 k).
Proof.
  unfold checked. rewrite first_untimely_app.
  destruct (first_untimely rs1) as [rd|]; intros -> H2; [done|]. simpl.
  destruct (first_untimely rs2) as [rd|]; rewrite H2; [done|].
  do 2 f_equal. set_solver.
Qed.

Lemma checked_seen rs rs' D D' top below r :
  rs = rs' -> D = D' -> checked rs D top below r -> checked rs' D' top below r.
Proof. by intros -> ->. Qed.

Lemma seen_grows (D top : gset string) below :
  visible (top :: below) ∪ D = visible ((D ∪ top) :: below).
Proof. rewrite !visible_cons. set_solver. Qed.

Lemma check_stmts_spec (l : list node) :
  Forall check_spec l ->
  forall top below,
    checked (reads_in_order_list decls reads_in_order (visible (top :: below)) l)
      (decls_list decls l) top below (visit_stmts visit l (top :: below)).
Proof.
  induction 1 as [|n rest Hn _ IH]; intros top below.
  - apply checked_nothing.
  - unfold decls_list. cbn [map union_list reads_in_order_list visit_stmts].
    apply checked_then; [apply Hn|].
    rewrite seen_grows. apply IH.
Qed.

Lemma check_elifs_spec (l : list (node * list node)) :
  Forall (fun cb => check_spec (fst cb) /\ Forall check_spec (snd cb)) l ->
  forall top below,
    checked (reads_in_order_elifs decls reads_in_order (visible (top :: below)) l)
      (decls_elifs decls l) top below (visit_elifs visit l (top :: below)).
Proof.
  induction 1 as [|[c b] rest [Hc Hb] _ IH]; intros top below.
  - apply checked_nothing.
  - unfold decls_elifs.
    cbn [map union_list reads_in_order_elifs visit_elifs fst snd].
    rewrite app_assoc.
    apply checked_then; [apply checked_then; [apply Hc|]|].
    + rewrite seen_grows. by apply check_stmts_spec.
    + rewrite seen_grows.
      replace (visible ((decls c ∪ top) :: below) ∪ decls_list decls b)
        with (visible (((decls c ∪ decls_list decls b) ∪ top) :: below))
        by (rewrite !visible_cons; set_solver).
      apply IH.
Qed.

Lemma check_node_spec (n : node) : check_spec n.
Proof.
  induction n as
    [l c v|l c v|l c x|l c a op b IHa IHb|l c x e IHe
    |l c cond tb el eb IHc IHtb IHel IHeb|l c cond b IHc IHb
    |l c f ps b IHb|l c rv IHrv|l c f args IHf IHargs]
    using node_induction;
    intros top below.
  - apply checked_nothing.
  - apply checked_nothing.
  - unfold checked. simpl. unfold visit_IdentifierNode.
    rewrite lookup_visible. destruct (bool_decide _); [|done].
    do 2 f_equal. set_solver.
  - change (visit (BinaryOpNode l c a op b) (top :: below))
      with (and_then (visit a (top :: below)) (visit b)).
    cbn [reads_in_order decls].
    apply checked_then; [apply IHa|]. rewrite seen_grows. apply IHb.
  - change (visit (AssignmentNode l c x e) (top :: below))
      with (and_then (visit e (top :: below)) (insert x)).
    cbn [reads_in_order decls].
    rewrite <- (app_nil_r (reads_in_order _ e)).
    apply checked_then; [apply IHe|]. unfold checked. done.
  - change (visit (IfNode l c cond tb el eb) (top :: below))
      with (and_then (and_then (and_then (visit cond (top :: below))
                                  (visit_stmts visit tb))
                        (visit_elifs visit el))
              match eb with
              | Some (s :: ss) => visit_stmts visit (s :: ss)
              | Some [] | None => fun t' => inl t'
              end).
    cbn [reads_in_order decls]. rewrite !app_assoc.
    apply checked_then; [apply checked_then; [apply checked_then|]|].
    + apply IHc.
    + rewrite seen_grows. by apply check_stmts_spec.
    + replace (visible (top :: below) ∪ decls cond ∪ decls_list decls tb)
        with (visible (((decls cond ∪ decls_list decls tb) ∪ top) :: below))
        by (rewrite !visible_cons; set_solver).
      by apply check_elifs_spec.
    + destruct eb as [[|s ss]|].
      * apply checked_nothing.
      * replace (visible (top :: below) ∪ decls cond ∪ decls_list decls tb
                 ∪ decls_elifs decls el)
          with (visible (((decls cond ∪ decls_list decls tb
                           ∪ decls_elifs decls el) ∪ top) :: below))
          by (rewrite !visible_cons; set_solver).
        by apply check_stmts_spec.
      * apply checked_nothing.
  - change (visit (WhileNode l c cond b) (top :: below))
      with (and_then (visit cond (top :: below)) (visit_stmts visit b)).
    cbn [reads_in_order decls].
    apply checked_then; [apply IHc|]. rewrite seen_grows.
    by apply check_stmts_spec.
  - change (visit (FunctionDefNode l c f ps b) (top :: below))
      with (and_then
              (and_then (insert_params ps (∅ :: ({[f]} ∪ top) :: below))
                 (visit_stmts visit b))
              exit).
    rewrite insert_params_top. cbn [and_then reads_in_order decls].
    pose proof (check_stmts_spec b IHb (list_to_set ps ∪ ∅)
                  (({[f]} ∪ top) :: below)) as H.
    replace (visible ((list_to_set ps ∪ ∅) :: ({[f]} ∪ top) :: below))
      with (visible (top :: below) ∪ {[f]} ∪ list_to_set ps) in H
      by (rewrite !visible_cons; set_solver).
    unfold checked in *.
    destruct (first_untimely _) as [rd|]; rewrite H; done.
  - destruct rv as [e|]; simpl; [apply IHrv | apply checked_nothing].
  - change (visit (CallNode l c f args) (top :: below))
      with (and_then
              match f with
              | IdentifierNode _ _ _ => inl (top :: below)
              | _ => visit f (top :: below)
              end
              (visit_stmts visit args)).
    assert (Hargs : forall D,
              checked (reads_in_order_list decls reads_in_order
                         (visible (top :: below) ∪ D) args)
                (decls_list decls args) (D ∪ top) below
                (visit_stmts visit args ((D ∪ top) :: below))).
    { intros D. rewrite seen_grows. by apply check_stmts_spec. }
    destruct f;
      try (cbn [reads_in_order decls];
           apply checked_then; [apply IHf | apply Hargs]).
    cbn [reads_in_order decls and_then].
    eapply checked_seen; [| |apply (check_stmts_spec args IHargs top below)];
      [done | set_solver].
Qed.

(** X9. The answer of the checker is read off the identifiers the
    program reads as values, in the order of the visit: it accepts when
    each of them is, at its turn, the builtin, a name bound earlier in
    a scope around it, or the name or a parameter of a function around
    it; otherwise it rejects with the name and the line of the first
    that is not. *)
Theorem checker_accepts_when_every_read_is_timely (p : Program) :
  analyze p
  = verdict (reads_in_order_list decls reads_in_order {[ "print" ]} (body p)).
Proof.
  unfold analyze, initial_symtab, new_symtab, visit_Program, verdict.
  simpl insert. simpl and_then.
  pose proof (check_stmts_spec (body p)
                ltac:(apply Forall_forall; intros; apply check_node_spec)
                ({[ "print" ]} ∪ ∅) []) as H.
  replace (visible [{[ "print" ]} ∪ ∅]) with ({[ "print" ]} : gset string) in H
    by (unfold visible; simpl; set_solver).
  unfold checked in H.
  destruct (first_untimely _) as [rd|]; by rewrite H.
Qed.

Example use_before_assignment_is_rejected :
  analyze use_before_assignment = Rejected "y" (Some 1).
Proof. reflexivity. Qed.

Lemma reads_agree_list (l : list node) :
  Forall reads_agree l ->
  forall ctx seen : gset string,
    seen ⊆ ctx -> decls_list decls l ⊆ ctx ->
    Forall2 same_read (scoped_reads_list scoped_reads ctx l)
      (reads_in_order_list decls reads_in_order seen l).
Proof.
  induction 1 as [|n rest Hn _ IH]; intros ctx seen Hs Hd; [constructor|].
  unfold decls_list in Hd. cbn [map union_list] in Hd.
  unfold scoped_reads_list. cbn [flat_map reads_in_order_list].
  apply Forall2_app; [apply Hn; set_solver|].
  apply IH; [set_solver | unfold decls_list; set_solver].
Qed.

Lemma reads_agree_elifs (l : list (node * list node)) :
  Forall (fun cb => reads_agree (fst cb) /\ Forall reads_agree (snd cb)) l ->
  forall ctx seen : gset string,
    seen ⊆ ctx -> decls_elifs decls l ⊆ ctx ->
    Forall2 same_read (scoped_reads_elifs scoped_reads ctx l)
      (reads_in_order_elifs decls reads_in_order seen l).
Proof.
  induction 1 as [|[c b] rest [Hc Hb] _ IH]; intros ctx seen Hs Hd;
    [constructor|].
  unfold decls_elifs in Hd. cbn [map union_list fst snd] in Hd.
  unfold scoped_reads_elifs.
  cbn [flat_map reads_in_order_elifs fst snd]. rewrite <- app_assoc.
  apply Forall2_app; [apply Hc; set_solver|].
  apply Forall2_app.
  - apply reads_agree_list; [done | set_solver | set_solver].
  - apply IH; [set_solver | unfold decls_elifs; set_solver].
Qed.

Lemma reads_agree_node (n : node) : reads_agree n.
Proof.
  induction n as
    [l c v|l c v|l c x|l c a op b IHa IHb|l c x e IHe
    |l c cond tb el eb IHc IHtb IHel IHeb|l c cond b IHc IHb
    |l c f ps b IHb|l c rv IHrv|l c f args IHf IHargs]
    using node_induction;
    intros ctx seen Hs Hd; cbn [scoped_reads reads_in_order decls] in *.
  - constructor.
  - constructor.
  - constructor; [|constructor]. split; [done|]. split; [done|]. simpl.
    rewrite !bool_decide_eq_false. set_solver.
  - apply Forall2_app; [apply IHa | apply IHb]; set_solver.
  - apply IHe; set_solver.
  - apply Forall2_app; [apply IHc; set_solver|].
    apply Forall2_app;
      [apply reads_agree_list; [done | set_solver | set_solver]|].
    apply Forall2_app;
      [apply reads_agree_elifs; [done | set_solver | set_solver]|].
    destruct eb as [b|]; [|constructor].
    apply reads_agree_list; [done | set_solver | set_solver].
  - apply Forall2_app; [apply IHc; set_solver|].
    apply reads_agree_list; [done | set_solver | set_solver].
  - apply reads_agree_list; [done | set_solver | set_solver].
  - destruct rv as [e|]; [apply IHrv; set_solver | constructor].
  - assert (Hargs : forall seen' : gset string,
              seen' ⊆ ctx ->
              Forall2 same_read (scoped_reads_list scoped_reads ctx args)
                (reads_in_order_list decls reads_in_order seen' args)).
    { intros seen' Hs'. apply reads_agree_list; [done | done |].
      destruct f; set_solver. }
    destruct f; try (apply Forall2_app; [apply IHf|apply Hargs]; set_solver).
    by apply Hargs.
Qed.

(** The reads of a program, marked in the order of the visit. *)
Lemma program_reads_agree (p : Program) :
  Forall2 same_read (program_reads p)
    (reads_in_order_list decls reads_in_order {[ "print" ]} (body p)).
Proof.
  apply reads_agree_list.
  - apply Forall_forall. intros n _. apply reads_agree_node.
  - unfold program_scope. set_solver.
  - unfold program_scope. set_solver.
Qed.

Lemma first_untimely_Some rs rd :
  first_untimely rs = Some rd <->
  exists pre post,
    rs = (pre ++ rd :: post)%list /\ all_bound pre /\ read_bound rd = false.
Proof.
  split.
  - revert rd. induction rs as [|r rest IH]; intros rd; [done|]. simpl.
    destruct (read_bound r) eqn:Hr.
    + intros H. destruct (IH _ H) as (pre & post & -> & Hpre & Hrd).
      exists (r :: pre), post. split; [done|].
      split; [by apply Forall_cons|done].
    + intros [= <-]. exists [], rest. split; [done|].
      split; [apply Forall_nil|]; done.
  - intros (pre & post & -> & Hpre & Hrd).
    induction Hpre as [|r pre Hr _ IH]; simpl; [by rewrite Hrd|].
    by rewrite Hr.
Qed.

Lemma analyze_verdict (p : Program) rd :
  first_untimely
    (reads_in_order_list decls reads_in_order {[ "print" ]} (body p)) = Some rd ->
  analyze p = Rejected (read_name rd) (read_line rd).
Proof.
  intros Hrd.
  unfold analyze, initial_symtab, new_symtab, visit_Program.
  simpl insert. simpl and_then.
  pose proof (check_stmts_spec (body p)
                ltac:(apply Forall_forall; intros; apply check_node_spec)
                ({[ "print" ]} ∪ ∅) []) as H.
  replace (visible [{[ "print" ]} ∪ ∅]) with ({[ "print" ]} : gset string) in H
    by (unfold visible; simpl; set_solver).
  unfold checked in H. rewrite Hrd in H. by rewrite H.
Qed.

(** C6 (amended). When a program reads as a value an identifier that is
    bound in no scope around the read (by an assignment, a parameter, a
    function definition or as the builtin), the checker rejects the
    program, and the error names, with its line, the first value read
    in the order of the visit whose name is not bound by the time the
    visit comes to it: every read before it is of a name bound by
    then, and the unbound read is that read or comes after it. So the
    error names the unbound identifier itself and its line whenever
    every read before it is bound in time. The identifier a call names
    as its target is not visited at all. *)
Theorem undeclared_read_rejected (p : Program) (x : string) (l : option nat) :
  {| read_name := x; read_line := l; read_bound := false |} ∈ program_reads p ->
  (exists pre rd post,
     reads_in_order_list decls reads_in_order {[ "print" ]} (body p)
     = (pre ++ rd :: post)%list
     /\ all_bound pre
     /\ read_bound rd = false
     /\ {| read_name := x; read_line := l; read_bound := false |} ∈ rd :: post
     /\ analyze p = Rejected (read_name rd) (read_line rd))
  /\ (forall pre post,
        reads_in_order_list decls reads_in_order {[ "print" ]} (body p)
        = (pre ++ {| read_name := x; read_line := l; read_bound := false |}
               :: post)%list ->
        all_bound pre ->
        analyze p = Rejected x l)
  /\ (forall ln c l' c' f args t,
        visit (CallNode ln c (IdentifierNode l' c' f) args) t
        = visit_stmts visit args t).
Proof.
  intros Hin. split; [|split; [|done]].
  - set (rs := reads_in_order_list decls reads_in_order {[ "print" ]} (body p)).
    assert (Hin' : {| read_name := x; read_line := l; read_bound := false |}
                   ∈ rs).
    { apply list_elem_of_lookup in Hin as [i Hi].
      destruct (Forall2_lookup_l _ _ _ _ _ (program_reads_agree p) Hi)
        as ([x' l' b'] & Hi' & Hn & Hl & Hb).
      simpl in Hn, Hl, Hb. subst x' l'. rewrite (Hb eq_refl) in Hi'.
      by apply list_elem_of_lookup_2 in Hi'. }
    destruct (first_untimely rs) as [rd|] eqn:Hrd.
    + pose proof (analyze_verdict p rd Hrd) as Hrej.
      apply first_untimely_Some in Hrd as (pre & post & Hrs & Hpre & Hb).
      exists pre, rd, post. split; [done|]. split; [done|]. split; [done|].
      split; [|done].
      rewrite Hrs in Hin'. apply elem_of_app in Hin' as [Hin'|Hin']; [|done].
      unfold all_bound in Hpre. rewrite Forall_forall in Hpre.
      specialize (Hpre _ Hin'). discriminate Hpre.
    + exfalso. clear Hin. induction rs as [|r rest IH]; [by apply elem_of_nil in Hin'|].
      simpl in Hrd. destruct (read_bound r) eqn:Hr; [|done].
      apply elem_of_cons in Hin' as [<-|Hin']; [done|]. by apply IH.
  - intros pre post Hrs Hpre.
    apply (analyze_verdict p
             {| read_name := x; read_line := l; read_bound := false |}).
    apply first_untimely_Some. by exists pre, post.
Qed.

(** C6, an instance: [x = y], [y = 1], [print(z)]. The read of [z] is
    bound nowhere; the error names the read of [y], which comes first
    and is not bound by then. *)
Lemma undeclared_read_rejected_witness :
  {| read_name := "z"; read_line := Some 3; read_bound := false |}
    ∈ program_reads late_and_unbound
  /\ analyze late_and_unbound = Rejected "y" (Some 1).
Proof.
  assert (Hin : {| read_name := "z"; read_line := Some 3; read_bound := false |}
                ∈ program_reads late_and_unbound).
  { vm_compute. apply elem_of_cons. right. apply elem_of_cons. by left. }
  split; [exact Hin|].
  destruct (undeclared_read_rejected late_and_unbound "z" (Some 3) Hin)
    as [(pre & rd & post & Hrs & Hpre & Hb & _ & Hrej) _].
  rewrite Hrej. vm_compute in Hrs.
  destruct pre as [|r0 pre].
  - by injection Hrs as <- _.
  - injection Hrs as <- _. apply Forall_cons in Hpre as [H0 _]. discriminate H0.
Defined.

End SemanticFacts.

(** ** The lexer and the parser *)

Module ParserFacts.

Import Lexer Parser ParserSpec.

Lemma convert_dropped t : convert t = None <-> dropped (tok_type_of t) = true.
Proof.
  unfold convert. destruct (tok_start t) as [l c].
  destruct (tok_type_of t); simpl; split; congruence.
Qed.

Lemma convert_position t tok :
  convert t = Some tok -> (lineno tok, col tok) = tok_start t.
Proof.
  unfold convert. destruct (tok_start t) as [l c].
  destruct (tok_type_of t); intros [= <-]; reflexivity.
Qed.

(** C7 (amended). The lexer has no error of its own: it fails exactly
    when the host's tokenizer raises, with the host's exception
    unchanged; its tokens are the host's tokens of the eight kinds it
    names, with the host's positions, and a host token of another kind
    (a comment, a non-logical newline, the host's error token) is
    dropped without a failure. *)
Theorem tokenize_source_has_no_error_of_its_own (gen : host_tokens) :
  failure (tokenize_source gen) = raised gen
  /\ (forall tok,
        tok ∈ tokens_of (tokenize_source gen) <->
        exists t, t ∈ yielded gen /\ convert t = Some tok)
  /\ (forall t tok,
        convert t = Some tok ->
        dropped (tok_type_of t) = false /\ (lineno tok, col tok) = tok_start t)
  /\ (forall t, dropped (tok_type_of t) = true -> convert t = None)
  /\ (forall e, new_parser gen = inr e <-> raised gen = Some e)
  /\ (forall e fuel fl lit,
        parse_source fl lit fuel gen = inr e <-> raised gen = Some e).
Proof.
  split; [reflexivity|]. split; [|split; [|split; [|split]]].
  - intros tok. unfold tokenize_source. simpl. apply list_elem_of_omap.
  - intros t tok H. split; [|by apply convert_position].
    destruct (dropped (tok_type_of t)) eqn:E; [|done].
    apply convert_dropped in E. congruence.
  - intros t. apply convert_dropped.
  - intros e. unfold new_parser, tokenize_source. simpl.
    destruct (raised gen); split; congruence.
  - intros e fuel fl lit. unfold parse_source, new_parser, tokenize_source. simpl.
    destruct (raised gen); split; congruence.
Qed.

(** C7, as worded, fails: on the host's tokens for a text with a
    character it does not recognise, and for one with a string left
    open, the lexer yields tokens and no failure. *)
Lemma lexical_errors_fail_fails :
  ~ lexical_errors_fail
  /\ failure (tokenize_source unterminated_string) = None
  /\ failure (tokenize_source unrecognized_character) = None
  /\ map Lexer.value (tokens_of (tokenize_source unterminated_string))
     = ["x"; "="; "abc"; newline; ""].
Proof.
  split; [|split; [|split]]; try reflexivity.
  intros H.
  apply (H unrecognized_character (host_token ERRORTOKEN "$" 1 4 ("x = $" ++ newline)));
    [|reflexivity|reflexivity].
  unfold unrecognized_character. simpl. set_solver.
Qed.

(** C8. Of two binary operators in a row, [x o1 y o2 z], the first
    takes [y] unless the second is of a higher level (multiplicative
    above additive above comparison): operators of one level group to
    the left. The text [2 + 3 * 4] parses to [2 + (3 * 4)], and the
    tree evaluates to 14. *)
Theorem operator_precedence_and_associativity :
  (forall (o1 o2 : binary_operator) (x y z : string) (lx cx ly cy lz cz : nat)
          (rest : list Token) py_float literal_eval,
     let tx := name_token x lx cx in
     let ty := name_token y ly cy in
     let tz := name_token z lz cz in
     expression py_float literal_eval 3
       {| tokens := two_operators o1 o2 tx ty tz rest; pos := 0 |}
     = POk (grouped o1 o2 (identifier_of tx) (identifier_of ty)
              (identifier_of tz))
         {| tokens := two_operators o1 o2 tx ty tz rest; pos := 5 |})
  /\ (forall py_float literal_eval,
        exists p,
          parse_source py_float literal_eval 3 precedence_text
          = inl (POk {| body := [precedence_tree] |} p))
  /\ (forall (extra : nat) (st : state),
        eval_expr (3 + extra) precedence_tree st = Normal (VInt 14) st).
Proof.
  split; [|split].
  - intros o1 o2 x y z lx cx ly cy lz cz rest fl lit.
    destruct o1, o2; vm_compute; reflexivity.
  - intros fl lit. eexists. vm_compute. reflexivity.
  - intros extra st. reflexivity.
Qed.

Lemma consumed_refl p : consumed 0 p p.
Proof. unfold consumed. split; [done | lia]. Qed.

Lemma consumed_trans a b p p1 p2 :
  consumed a p p1 -> consumed b p1 p2 -> consumed (a + b) p p2.
Proof.
  unfold consumed, remaining. intros (T1 & P1 & M1 & R1) (T2 & P2 & M2 & R2).
  rewrite T2, T1 in *. split; [done | lia].
Qed.

Lemma consumed_weaken a b p p' : b <= a -> consumed a p p' -> consumed b p p'.
Proof. unfold consumed. intros Hle (T & H). split; [done | lia]. Qed.

Lemma consumed_remaining a p p' : consumed a p p' -> remaining p' + a <= remaining p.
Proof. by intros (_ & _ & _ & H). Qed.

(** A token whose type is not EOF is a token of the list. *)
Lemma current_in_range p : type (current p) <> "EOF" -> pos p < length (tokens p).
Proof.
  intros H. destruct (Nat.lt_ge_cases (pos p) (length (tokens p))) as [Hlt|Hge];
    [exact Hlt|].
  unfold current in H. rewrite nth_overflow in H by exact Hge. by destruct H.
Qed.

Lemma advance_consumed p u p' :
  type (current p) <> "EOF" -> advance p = POk u p' -> consumed 1 p p'.
Proof.
  intros H Hadv. apply current_in_range in H.
  unfold advance in Hadv. injection Hadv as _ <-.
  unfold consumed, remaining. simpl. split; [done | lia].
Qed.

Lemma eqb_not_EOF s ty : String.eqb s ty = true -> ty <> "EOF" -> s <> "EOF".
Proof. intros H Hne. apply String.eqb_eq in H. congruence. Qed.

Lemma is_op_real v t : is_op v t = true -> type t <> "EOF".
Proof.
  unfold is_op. intros H. apply andb_prop in H as [H _].
  by apply (eqb_not_EOF _ "OP").
Qed.

Lemma is_name_real v t : is_name v t = true -> type t <> "EOF".
Proof.
  unfold is_name. intros H. apply andb_prop in H as [H _].
  by apply (eqb_not_EOF _ "NAME").
Qed.

Lemma op_in_real ops t : op_in ops t = true -> type t <> "EOF".
Proof.
  unfold op_in. intros H. apply andb_prop in H as [H _].
  by apply (eqb_not_EOF _ "OP").
Qed.

Lemma returns_ret {A} (Q : A -> Prop) a : Q a -> returns 0 Q (pret a).
Proof. intros H p a' p' [= <- <-]. split; [apply consumed_refl | done]. Qed.

Lemma returns_at_bind {A B} a b (QA : A -> Prop) (QB : B -> Prop)
    (m : P A) (k : A -> P B) p :
  returns_at a QA m p -> (forall x, QA x -> returns b QB (k x)) ->
  returns_at (a + b) QB (pbind m k) p.
Proof.
  intros Hm Hk y p'. unfold pbind.
  destruct (m p) as [x p1| |] eqn:E; [|done..]. intros Hy.
  destruct (Hm _ _ E) as [C1 Q1]. destruct (Hk x Q1 _ _ _ Hy) as [C2 Q2].
  split; [by eapply consumed_trans | done].
Qed.

Lemma returns_bind {A B} a b (QA : A -> Prop) (QB : B -> Prop)
    (m : P A) (k : A -> P B) :
  returns a QA m -> (forall x, QA x -> returns b QB (k x)) ->
  returns (a + b) QB (pbind m k).
Proof. intros Hm Hk p. by apply (returns_at_bind a b QA). Qed.

Lemma returns_at_weaken {A} a b (Q Q' : A -> Prop) (m : P A) p :
  returns_at a Q m p -> b <= a -> (forall x, Q x -> Q' x) ->
  returns_at b Q' m p.
Proof.
  intros Hm Hle HQ x p' E. destruct (Hm _ _ E) as [C Qx].
  split; [by eapply consumed_weaken | by apply HQ].
Qed.

Lemma returns_weaken {A} a b (Q Q' : A -> Prop) (m : P A) :
  returns a Q m -> b <= a -> (forall x, Q x -> Q' x) -> returns b Q' m.
Proof. intros Hm Hle HQ p. by apply (returns_at_weaken a b Q). Qed.

Lemma returns_at_advance p :
  type (current p) <> "EOF" -> returns_at 1 anything advance p.
Proof. intros H u p' E. split; [by eapply advance_consumed | done]. Qed.

Lemma returns_at_stay {A} (Q : A -> Prop) a p : Q a -> returns_at 0 Q (POk a) p.
Proof. intros H a' p' [= <- <-]. split; [apply consumed_refl | done]. Qed.

Lemma accept_cases typ val p :
  (accept typ val p = POk None p /\ matches typ val (current p) = false)
  \/ (matches typ val (current p) = true
      /\ accept typ val p
         = POk (Some (current p)) {| tokens := tokens p; pos := S (pos p) |}).
Proof.
  unfold accept. destruct (matches typ val (current p)); [by right | by left].
Qed.

Lemma matches_real typ val t :
  typ <> "EOF" -> matches typ val t = true -> type t <> "EOF".
Proof.
  unfold matches. intros Hne H. apply andb_prop in H as [H _].
  by apply (eqb_not_EOF _ typ).
Qed.

Lemma returns_expect typ val :
  typ <> "EOF" -> returns 1 anything (expect typ val).
Proof.
  intros Hne p t p'. unfold expect, pbind.
  destruct (accept_cases typ val p) as [[-> _] | [Hm ->]]; [done|].
  intros [= <- <-]. split; [|done].
  apply (advance_consumed p tt); [by eapply matches_real | done].
Qed.

Lemma returns_skip_newline : returns 0 anything skip_newline.
Proof.
  intros p u p'. unfold skip_newline.
  destruct (String.eqb (type (current p)) "NEWLINE") eqn:E.
  - intros H. split; [|done]. apply (consumed_weaken 1); [lia|].
    eapply advance_consumed; [|exact H]. by apply (eqb_not_EOF _ "NEWLINE").
  - intros [= <- <-]. split; [apply consumed_refl | done].
Qed.

Lemma ends_bind {A B} (m : P A) (k : A -> P B) p :
  ends m p -> (forall a p', m p = POk a p' -> ends (k a) p') ->
  ends (pbind m k) p.
Proof.
  unfold ends, pbind. intros Hm Hk.
  destruct (m p) as [a p'| |]; [by apply Hk | done | done].
Qed.

Lemma ends_expect typ val p : ends (expect typ val) p.
Proof.
  unfold ends, expect, pbind.
  by destruct (accept_cases typ val p) as [[-> _] | [_ ->]].
Qed.

Lemma ends_skip_newline p : ends skip_newline p.
Proof.
  unfold ends, skip_newline. by destruct (String.eqb _ _).
Qed.

Lemma is_operator_of ops t :
  op_in ops t = true -> incl ops operators -> is_operator (value t) = true.
Proof.
  unfold op_in, is_operator. intros H Hincl. apply andb_prop in H as [_ H].
  apply existsb_exists in H as (o & Hin & Ho).
  apply existsb_exists. exists o. split; [by apply Hincl | done].
Qed.

Ltac as_returns :=
  match goal with
  | |- forall a p', ?m ?p = POk a p' -> consumed ?l ?p p' /\ ?Q a =>
      change (returns_at l Q m p)
  end.

Section Expressions.

Variable py_float : string -> option float.
Variable literal_eval : string -> option string.
Variable ex : P node.
Hypothesis ex_returns : returns 1 expression_shaped ex.

Lemma returns_binary_loop fuel ops operand :
  incl ops operators -> returns 1 expression_shaped operand ->
  forall acc, expression_shaped acc ->
  returns 0 expression_shaped (binary_loop fuel ops operand acc).
Proof.
  intros Hops Hop. induction fuel as [|k IH]; intros acc Hacc p;
    unfold returns_at; simpl.
  - destruct (op_in ops (current p)); [done | by apply returns_at_stay].
  - destruct (op_in ops (current p)) eqn:E; [|by apply returns_at_stay].
    as_returns.
    apply (returns_at_weaken (1 + (1 + 0)) _ expression_shaped expression_shaped);
      [|lia|done].
    apply (returns_at_bind _ _ anything);
      [apply returns_at_advance; by eapply op_in_real|]. intros _ _.
    apply (returns_bind _ _ expression_shaped); [exact Hop|]. intros r Hr.
    apply IH. unfold expression_shaped in *. simpl.
    by rewrite (is_operator_of ops), Hacc, Hr.
Qed.

Lemma returns_more_args fuel :
  forall acc, expressions_shaped acc ->
  returns 0 expressions_shaped (more_args fuel ex acc).
Proof.
  induction fuel as [|k IH]; intros acc Hacc p; unfold returns_at; simpl.
  - destruct (is_op "," (current p)); [done | by apply returns_at_stay].
  - destruct (is_op "," (current p)) eqn:E; [|by apply returns_at_stay].
    as_returns.
    apply (returns_at_weaken (1 + (1 + 0)) _ expressions_shaped expressions_shaped);
      [|lia|done].
    apply (returns_at_bind _ _ anything);
      [apply returns_at_advance; by eapply is_op_real|]. intros _ _.
    apply (returns_bind _ _ expression_shaped); [exact ex_returns|]. intros a Ha.
    apply IH. unfold expressions_shaped, expression_shaped in *.
    rewrite forallb_app, Hacc. simpl. by rewrite Ha.
Qed.

Lemma returns_call fuel : returns 1 expression_shaped (call fuel ex).
Proof.
  unfold call.
  apply (returns_weaken (1 + (1 + (0 + (1 + 0)))) _
           expression_shaped expression_shaped); [|lia|done].
  apply (returns_bind _ _ anything); [by apply returns_expect|]. intros nt _.
  apply (returns_bind _ _ anything); [by apply returns_expect|]. intros _ _.
  apply (returns_bind _ _ expressions_shaped).
  { intros p. unfold returns_at. cbv beta.
    destruct (is_op ")" (current p)); [by apply returns_at_stay|]. as_returns.
    apply (returns_at_weaken (1 + 0) _ expressions_shaped expressions_shaped);
      [|lia|done].
    apply (returns_bind _ _ expression_shaped); [exact ex_returns|]. intros a Ha.
    apply returns_more_args. unfold expressions_shaped, expression_shaped in *.
    simpl. by rewrite Ha. }
  intros args Hargs.
  apply (returns_bind _ _ anything); [by apply returns_expect|]. intros _ _.
  by apply returns_ret.
Qed.

Lemma returns_factor fuel :
  returns 1 expression_shaped (factor py_float literal_eval fuel ex).
Proof.
  intros p. unfold returns_at, factor. cbv beta zeta.
  destruct (String.eqb (type (current p)) "NUMBER") eqn:E1.
  { unfold number_node.
    destruct (if contains_dot _ then _ else _) as [n|]; [|done]. as_returns.
    apply (returns_at_weaken (1 + 0) _ expression_shaped expression_shaped);
      [|lia|done].
    apply (returns_at_bind _ _ anything);
      [apply returns_at_advance; by apply (eqb_not_EOF _ "NUMBER")|].
    intros _ _. by apply returns_ret. }
  destruct (String.eqb (type (current p)) "STRING") eqn:E2.
  { unfold string_node. destruct (literal_eval _) as [s|]; [|done]. as_returns.
    apply (returns_at_weaken (1 + 0) _ expression_shaped expression_shaped);
      [|lia|done].
    apply (returns_at_bind _ _ anything);
      [apply returns_at_advance; by apply (eqb_not_EOF _ "STRING")|].
    intros _ _. by apply returns_ret. }
  destruct (String.eqb (type (current p)) "NAME") eqn:E3.
  { assert (Hid : returns_at 1 expression_shaped
                    (do! _ := advance in
                     pret (IdentifierNode (Some (lineno (current p)))
                             (Some (col (current p))) (value (current p)))) p).
    { apply (returns_at_weaken (1 + 0) _ expression_shaped expression_shaped);
        [|lia|done].
      apply (returns_at_bind _ _ anything);
        [apply returns_at_advance; by apply (eqb_not_EOF _ "NAME")|].
      intros _ _. by apply returns_ret. }
    destruct (next_tok p) as [nt|]; [|exact Hid].
    destruct (is_op "(" nt); [apply returns_call | exact Hid]. }
  destruct (is_op "(" (current p)) eqn:E4; [|done]. as_returns.
  apply (returns_at_weaken (1 + (1 + (1 + 0))) _ expression_shaped expression_shaped);
    [|lia|done].
  apply (returns_at_bind _ _ anything);
    [apply returns_at_advance; by eapply is_op_real|]. intros _ _.
  apply (returns_bind _ _ expression_shaped); [exact ex_returns|]. intros n Hn.
  apply (returns_bind _ _ anything); [by apply returns_expect|]. intros _ _.
  by apply returns_ret.
Qed.

Lemma returns_term fuel :
  returns 1 expression_shaped (term py_float literal_eval fuel ex).
Proof.
  unfold term.
  apply (returns_weaken (1 + 0) _ expression_shaped expression_shaped);
    [|lia|done].
  apply (returns_bind _ _ expression_shaped); [apply returns_factor|].
  intros n Hn. apply returns_binary_loop; [|apply returns_factor|done].
  intros o Ho. unfold operators. simpl in *. tauto.
Qed.

Lemma returns_arith fuel :
  returns 1 expression_shaped (arith py_float literal_eval fuel ex).
Proof.
  unfold arith.
  apply (returns_weaken (1 + 0) _ expression_shaped expression_shaped);
    [|lia|done].
  apply (returns_bind _ _ expression_shaped); [apply returns_term|].
  intros n Hn. apply returns_binary_loop; [|apply returns_term|done].
  intros o Ho. unfold operators. simpl in *. tauto.
Qed.

Lemma returns_comparison fuel :
  returns 1 expression_shaped (comparison py_float literal_eval fuel ex).
Proof.
  unfold comparison.
  apply (returns_weaken (1 + 0) _ expression_shaped expression_shaped);
    [|lia|done].
  apply (returns_bind _ _ expression_shaped); [apply returns_arith|].
  intros n Hn. apply returns_binary_loop; [|apply returns_arith|done].
  intros o Ho. unfold operators. simpl in *. tauto.
Qed.

End Expressions.

Lemma returns_expression py_float literal_eval fuel :
  returns 1 expression_shaped (expression py_float literal_eval fuel).
Proof.
  induction fuel as [|k IH]; [by intros p a p'|].
  simpl. by apply returns_comparison.
Qed.

Lemma expression_is_statement n : is_expression n = true -> is_statement n = true.
Proof. by destruct n. Qed.

Section Statements.

Variable py_float : string -> option float.
Variable literal_eval : string -> option string.
Variable stmt : P node.
Hypothesis stmt_returns : returns 1 statement_shaped stmt.

Lemma returns_block_loop fuel :
  forall acc, statements_shaped acc ->
  returns 0 statements_shaped (block_loop fuel stmt acc).
Proof.
  induction fuel as [|k IH]; intros acc Hacc p; unfold returns_at; simpl.
  - destruct (_ || _); [by apply returns_at_stay | done].
  - destruct (_ || _); [by apply returns_at_stay|].
    destruct (String.eqb (type (current p)) "NEWLINE") eqn:E; as_returns.
    + apply (returns_at_weaken (1 + 0) _ statements_shaped statements_shaped);
        [|lia|done].
      apply (returns_at_bind _ _ anything);
        [apply returns_at_advance; by apply (eqb_not_EOF _ "NEWLINE")|].
      intros _ _. by apply IH.
    + apply (returns_at_weaken (1 + 0) _ statements_shaped statements_shaped);
        [|lia|done].
      apply (returns_bind _ _ statement_shaped); [exact stmt_returns|].
      intros s Hs. apply IH. unfold statements_shaped, statement_shaped in *.
      rewrite forallb_app, Hacc. simpl. by rewrite Hs.
Qed.

Lemma returns_block fuel : returns 1 statements_shaped (block fuel stmt).
Proof.
  unfold block.
  apply (returns_weaken (0 + (1 + 0)) _ statements_shaped statements_shaped);
    [|lia|done].
  apply (returns_bind _ _ statements_shaped); [by apply returns_block_loop|].
  intros l Hl.
  apply (returns_bind _ _ anything); [by apply returns_expect|]. intros _ _.
  by apply returns_ret.
Qed.

Lemma returns_suite fuel : returns 1 statements_shaped (suite fuel stmt).
Proof.
  unfold suite.
  apply (returns_weaken (1 + (1 + (1 + 1))) _ statements_shaped statements_shaped);
    [|lia|done].
  apply (returns_bind _ _ anything); [by apply returns_expect|]. intros _ _.
  apply (returns_bind _ _ anything); [by apply returns_expect|]. intros _ _.
  apply (returns_bind _ _ anything); [by apply returns_expect|]. intros _ _.
  apply returns_block.
Qed.

Lemma returns_assignment fuel :
  returns 1 statement_shaped (assignment py_float literal_eval fuel).
Proof.
  unfold assignment.
  apply (returns_weaken (1 + (1 + (1 + (0 + 0)))) _
           statement_shaped statement_shaped); [|lia|done].
  apply (returns_bind _ _ anything); [by apply returns_expect|]. intros nt _.
  apply (returns_bind _ _ anything); [by apply returns_expect|]. intros _ _.
  apply (returns_bind _ _ expression_shaped); [apply returns_expression|].
  intros e He.
  apply (returns_bind _ _ anything); [apply returns_skip_newline|]. intros _ _.
  by apply returns_ret.
Qed.

Lemma returns_elif_loop fuel :
  forall acc, elifs_shaped acc ->
  returns 0 elifs_shaped (elif_loop py_float literal_eval fuel stmt acc).
Proof.
  induction fuel as [|k IH]; intros acc Hacc p; unfold returns_at;
    cbn [elif_loop].
  - destruct (is_name "elif" (current p)); [done | by apply returns_at_stay].
  - destruct (is_name "elif" (current p)) eqn:E; [|by apply returns_at_stay].
    as_returns.
    apply (returns_at_weaken (1 + (1 + (1 + 0))) _ elifs_shaped elifs_shaped);
      [|lia|done].
    apply (returns_at_bind _ _ anything);
      [apply returns_at_advance; by eapply is_name_real|]. intros _ _.
    apply (returns_bind _ _ expression_shaped); [apply returns_expression|].
    intros c Hc.
    apply (returns_bind _ _ statements_shaped); [apply returns_suite|].
    intros b Hb. apply IH.
    unfold elifs_shaped, expression_shaped, statements_shaped in *.
    rewrite forallb_app, Hacc. simpl. by rewrite Hc, Hb.
Qed.

Lemma returns_if_stmt fuel :
  returns 1 statement_shaped (if_stmt py_float literal_eval fuel stmt).
Proof.
  unfold if_stmt.
  apply (returns_weaken (1 + (1 + (1 + (0 + (0 + 0))))) _
           statement_shaped statement_shaped); [|lia|done].
  apply (returns_bind _ _ anything); [by apply returns_expect|]. intros it _.
  apply (returns_bind _ _ expression_shaped); [apply returns_expression|].
  intros c Hc.
  apply (returns_bind _ _ statements_shaped); [apply returns_suite|].
  intros tb Htb.
  apply (returns_bind _ _ elifs_shaped); [by apply returns_elif_loop|].
  intros el Hel.
  apply (returns_bind _ _ else_shaped).
  { intros p. unfold returns_at. cbv beta.
    destruct (is_name "else" (current p)) eqn:E; [|by apply returns_at_stay].
    as_returns.
    apply (returns_at_weaken (1 + (1 + 0)) _ else_shaped else_shaped);
      [|lia|done].
    apply (returns_at_bind _ _ anything);
      [apply returns_at_advance; by eapply is_name_real|]. intros _ _.
    apply (returns_bind _ _ statements_shaped); [apply returns_suite|].
    intros b Hb. by apply returns_ret. }
  intros eb Heb. apply returns_ret.
  unfold statement_shaped, expression_shaped, statements_shaped, elifs_shaped,
    else_shaped in *.
  simpl. rewrite Hc, Htb, Hel. simpl. by destruct eb.
Qed.

Lemma returns_while_stmt fuel :
  returns 1 statement_shaped (while_stmt py_float literal_eval fuel stmt).
Proof.
  unfold while_stmt.
  apply (returns_weaken (1 + (1 + (1 + 0))) _
           statement_shaped statement_shaped); [|lia|done].
  apply (returns_bind _ _ anything); [by apply returns_expect|]. intros wt _.
  apply (returns_bind _ _ expression_shaped); [apply returns_expression|].
  intros c Hc.
  apply (returns_bind _ _ statements_shaped); [apply returns_suite|].
  intros b Hb. apply returns_ret.
  unfold statement_shaped, expression_shaped, statements_shaped in *.
  simpl. by rewrite Hc, Hb.
Qed.

Lemma returns_more_params fuel acc : returns 0 anything (more_params fuel acc).
Proof.
  revert acc. induction fuel as [|k IH]; intros acc p; unfold returns_at; simpl.
  - destruct (is_op "," (current p)); [done | by apply returns_at_stay].
  - destruct (is_op "," (current p)) eqn:E; [|by apply returns_at_stay].
    as_returns.
    apply (returns_at_weaken (1 + (1 + 0)) _ anything anything); [|lia|done].
    apply (returns_at_bind _ _ anything);
      [apply returns_at_advance; by eapply is_op_real|]. intros _ _.
    apply (returns_bind _ _ anything); [by apply returns_expect|]. intros t _.
    apply IH.
Qed.

Lemma returns_function_def fuel :
  returns 1 statement_shaped (function_def fuel stmt).
Proof.
  unfold function_def.
  apply (returns_weaken (1 + (1 + (1 + (0 + (1 + (1 + 0)))))) _
           statement_shaped statement_shaped); [|lia|done].
  apply (returns_bind _ _ anything); [by apply returns_expect|]. intros dt _.
  apply (returns_bind _ _ anything); [by apply returns_expect|]. intros nt _.
  apply (returns_bind _ _ anything); [by apply returns_expect|]. intros _ _.
  apply (returns_bind _ _ anything).
  { intros p. unfold returns_at. cbv beta.
    destruct (is_op ")" (current p)); [by apply returns_at_stay|]. as_returns.
    apply (returns_at_weaken (1 + 0) _ anything anything); [|lia|done].
    apply (returns_bind _ _ anything); [by apply returns_expect|]. intros t _.
    apply returns_more_params. }
  intros ps _.
  apply (returns_bind _ _ anything); [by apply returns_expect|]. intros _ _.
  apply (returns_bind _ _ statements_shaped); [apply returns_suite|].
  intros b Hb. by apply returns_ret.
Qed.

Lemma returns_return_stmt fuel :
  returns 1 statement_shaped (return_stmt py_float literal_eval fuel).
Proof.
  unfold return_stmt.
  apply (returns_weaken (1 + (0 + (0 + 0))) _
           statement_shaped statement_shaped); [|lia|done].
  apply (returns_bind _ _ anything); [by apply returns_expect|]. intros rt _.
  apply (returns_bind _ _ returned_shaped).
  { intros p. unfold returns_at. cbv beta.
    destruct (String.eqb (type (current p)) "NEWLINE");
      [by apply returns_at_stay|]. as_returns.
    apply (returns_at_weaken (1 + 0) _ returned_shaped returned_shaped);
      [|lia|done].
    apply (returns_bind _ _ expression_shaped); [apply returns_expression|].
    intros e He. by apply returns_ret. }
  intros rv Hrv.
  apply (returns_bind _ _ anything); [apply returns_skip_newline|]. intros _ _.
  apply returns_ret. unfold statement_shaped, returned_shaped in *. simpl.
  by destruct rv.
Qed.

End Statements.

Lemma returns_statement py_float literal_eval fuel :
  returns 1 statement_shaped (statement py_float literal_eval fuel).
Proof.
  induction fuel as [|k IH]; [by intros p a p'|].
  intros p. unfold returns_at. simpl.
  destruct (is_name "if" (current p)); [by apply returns_if_stmt|].
  destruct (is_name "while" (current p)); [by apply returns_while_stmt|].
  destruct (is_name "def" (current p)); [by apply returns_function_def|].
  destruct (is_name "return" (current p)); [by apply returns_return_stmt|].
  destruct (_ && _); [by apply returns_assignment|]. as_returns.
  apply (returns_at_weaken (1 + (0 + 0)) _ statement_shaped statement_shaped);
    [|lia|done].
  apply (returns_bind _ _ expression_shaped); [apply returns_expression|].
  intros e He.
  apply (returns_bind _ _ anything); [apply returns_skip_newline|]. intros _ _.
  apply returns_ret. by apply expression_is_statement.
Qed.

Lemma returns_parse_loop py_float literal_eval fuel :
  forall acc, statements_shaped acc ->
  returns 0 statements_shaped (parse_loop py_float literal_eval fuel acc).
Proof.
  induction fuel as [|k IH]; intros acc Hacc p; unfold returns_at;
    cbn [parse_loop].
  - destruct (String.eqb _ _); [by apply returns_at_stay | done].
  - destruct (String.eqb (type (current p)) "EOF");
      [by apply returns_at_stay|].
    destruct (String.eqb (type (current p)) "NEWLINE") eqn:E; as_returns.
    + apply (returns_at_weaken (1 + 0) _ statements_shaped statements_shaped);
        [|lia|done].
      apply (returns_at_bind _ _ anything);
        [apply returns_at_advance; by apply (eqb_not_EOF _ "NEWLINE")|].
      intros _ _. by apply IH.
    + apply (returns_at_weaken (1 + 0) _ statements_shaped statements_shaped);
        [|lia|done].
      apply (returns_bind _ _ statement_shaped); [apply returns_statement|].
      intros s Hs. apply IH. unfold statements_shaped, statement_shaped in *.
      rewrite forallb_app, Hacc. simpl. by rewrite Hs.
Qed.

Lemma parse_loop_stops_at_EOF py_float literal_eval fuel acc p l p' :
  parse_loop py_float literal_eval fuel acc p = POk l p' ->
  type (current p') = "EOF".
Proof.
  revert acc p. induction fuel as [|k IH]; intros acc p; cbn [parse_loop].
  - destruct (String.eqb (type (current p)) "EOF") eqn:E; [|done].
    intros [= <- <-]. by apply String.eqb_eq.
  - destruct (String.eqb (type (current p)) "EOF") eqn:E.
    { intros [= <- <-]. by apply String.eqb_eq. }
    destruct (String.eqb (type (current p)) "NEWLINE"); unfold pbind;
      cbn [advance].
    + apply IH.
    + destruct (statement py_float literal_eval (S k) p) as [s p1| |]; [|done..].
      apply IH.
Qed.

Lemma real_remaining p : type (current p) <> "EOF" -> 1 <= remaining p.
Proof. intros H. apply current_in_range in H. unfold remaining. lia. Qed.

Lemma ends_advance p : ends advance p.
Proof. done. Qed.

Lemma advance_remaining p u p' :
  type (current p) <> "EOF" -> advance p = POk u p' ->
  remaining p' + 1 <= remaining p.
Proof. intros H E. by apply (consumed_remaining 1), (advance_consumed p u). Qed.

Lemma returns_remaining {A} least (Q : A -> Prop) (m : P A) p a p' :
  returns least Q m -> m p = POk a p' -> remaining p' + least <= remaining p.
Proof. intros H E. apply consumed_remaining. by apply (H p a p'). Qed.

Section ExpressionsEnd.

Variable py_float : string -> option float.
Variable literal_eval : string -> option string.
Variable ex : P node.
Variable f : nat.
Hypothesis ex_returns : returns 1 expression_shaped ex.
Hypothesis ex_ends : forall p, remaining p < f -> ends ex p.

Lemma ends_binary_loop k ops operand b :
  returns 1 expression_shaped operand ->
  (forall q, remaining q <= b -> ends operand q) ->
  forall acc p, remaining p <= k -> remaining p <= b ->
  ends (binary_loop k ops operand acc) p.
Proof.
  intros Hret Hend. induction k as [|k IH]; intros acc p Hk Hf;
    unfold ends; cbn [binary_loop];
    destruct (op_in ops (current p)) eqn:E; try done;
    pose proof (real_remaining _ (op_in_real _ _ E)) as Hr; [lia|].
  apply ends_bind; [apply ends_advance|]. intros u p1 E1.
  apply advance_remaining in E1; [|by eapply op_in_real].
  apply ends_bind; [apply Hend; lia|]. intros r p2 E2.
  apply (returns_remaining _ _ _ _ _ _ Hret) in E2.
  apply IH; lia.
Qed.

Lemma ends_more_args k :
  forall acc p, remaining p <= k -> remaining p <= f ->
  ends (more_args k ex acc) p.
Proof.
  induction k as [|k IH]; intros acc p Hk Hf;
    unfold ends; cbn [more_args];
    destruct (is_op "," (current p)) eqn:E; try done;
    pose proof (real_remaining _ (is_op_real _ _ E)) as Hr; [lia|].
  apply ends_bind; [apply ends_advance|]. intros u p1 E1.
  apply advance_remaining in E1; [|by eapply is_op_real].
  apply ends_bind; [apply ex_ends; lia|]. intros r p2 E2.
  apply (returns_remaining _ _ _ _ _ _ ex_returns) in E2.
  apply IH; lia.
Qed.

Lemma ends_call k p :
  remaining p <= k -> remaining p <= f -> ends (call k ex) p.
Proof.
  intros Hk Hf. unfold call.
  apply ends_bind; [apply ends_expect|]. intros nt p1 E1.
  apply (returns_remaining 1 anything) in E1; [|by apply returns_expect].
  apply ends_bind; [apply ends_expect|]. intros t2 p2 E2.
  apply (returns_remaining 1 anything) in E2; [|by apply returns_expect].
  apply ends_bind.
  { unfold ends. destruct (is_op ")" (current p2)); [done|].
    apply ends_bind; [apply ex_ends; lia|]. intros a p3 E3.
    apply (returns_remaining _ _ _ _ _ _ ex_returns) in E3.
    apply ends_more_args; lia. }
  intros args p3 _.
  apply ends_bind; [apply ends_expect|]. by intros.
Qed.

Lemma ends_factor k p :
  remaining p <= k -> remaining p <= f ->
  ends (factor py_float literal_eval k ex) p.
Proof.
  intros Hk Hf. unfold ends, factor. cbv beta zeta.
  destruct (String.eqb (type (current p)) "NUMBER").
  { unfold number_node. by destruct (if contains_dot _ then _ else _). }
  destruct (String.eqb (type (current p)) "STRING").
  { unfold string_node. by destruct (literal_eval _). }
  destruct (String.eqb (type (current p)) "NAME").
  { destruct (next_tok p) as [nt|]; [|done].
    destruct (is_op "(" nt); [by apply ends_call | done]. }
  destruct (is_op "(" (current p)) eqn:E; [|done].
  apply ends_bind; [apply ends_advance|]. intros u p1 E1.
  apply advance_remaining in E1; [|by eapply is_op_real].
  apply ends_bind; [apply ex_ends; lia|]. intros n p2 _.
  apply ends_bind; [apply ends_expect|]. by intros.
Qed.

Lemma ends_term k p :
  remaining p <= k -> remaining p <= f ->
  ends (term py_float literal_eval k ex) p.
Proof.
  intros Hk Hf. unfold term.
  apply ends_bind; [by apply ends_factor|]. intros n p1 E1.
  apply (returns_remaining 1 expression_shaped) in E1;
    [|by apply returns_factor].
  apply (ends_binary_loop _ _ _ (remaining p)); try lia;
    [by apply returns_factor|].
  intros q Hq. apply ends_factor; lia.
Qed.

Lemma ends_arith k p :
  remaining p <= k -> remaining p <= f ->
  ends (arith py_float literal_eval k ex) p.
Proof.
  intros Hk Hf. unfold arith.
  apply ends_bind; [by apply ends_term|]. intros n p1 E1.
  apply (returns_remaining 1 expression_shaped) in E1;
    [|by apply returns_term].
  apply (ends_binary_loop _ _ _ (remaining p)); try lia;
    [by apply returns_term|].
  intros q Hq. apply ends_term; lia.
Qed.

Lemma ends_comparison k p :
  remaining p <= k -> remaining p <= f ->
  ends (comparison py_float literal_eval k ex) p.
Proof.
  intros Hk Hf. unfold comparison.
  apply ends_bind; [by apply ends_arith|]. intros n p1 E1.
  apply (returns_remaining 1 expression_shaped) in E1;
    [|by apply returns_arith].
  apply (ends_binary_loop _ _ _ (remaining p)); try lia;
    [by apply returns_arith|].
  intros q Hq. apply ends_arith; lia.
Qed.

End ExpressionsEnd.

Lemma ends_expression py_float literal_eval k p :
  remaining p < k -> ends (expression py_float literal_eval k) p.
Proof.
  revert p. induction k as [|k IH]; intros p Hk; [lia|].
  cbn [expression].
  apply (ends_comparison py_float literal_eval _ k);
    [apply returns_expression | exact IH | lia | lia].
Qed.

Section StatementsEnd.

Variable py_float : string -> option float.
Variable literal_eval : string -> option string.
Variable stmt : P node.
Variable b : nat.
Hypothesis stmt_returns : returns 1 statement_shaped stmt.
Hypothesis stmt_ends : forall p, remaining p < b -> ends stmt p.

Lemma ends_block_loop k :
  forall acc p, remaining p <= k -> remaining p < b ->
  ends (block_loop k stmt acc) p.
Proof.
  induction k as [|k IH]; intros acc p Hk Hb; unfold ends; cbn [block_loop];
    cbv zeta.
  - destruct (String.eqb (type (current p)) "DEDENT") eqn:E1; [done|].
    destruct (String.eqb (type (current p)) "EOF") eqn:E2; [done|]. simpl.
    apply String.eqb_neq, real_remaining in E2. lia.
  - destruct (_ || _); [done|].
    destruct (String.eqb (type (current p)) "NEWLINE") eqn:E.
    + apply ends_bind; [apply ends_advance|]. intros u p1 E1.
      apply advance_remaining in E1; [|by apply (eqb_not_EOF _ "NEWLINE")].
      apply IH; lia.
    + apply ends_bind; [by apply stmt_ends|]. intros s p1 E1.
      apply (returns_remaining _ _ _ _ _ _ stmt_returns) in E1.
      apply IH; lia.
Qed.

Lemma ends_block k p :
  remaining p <= k -> remaining p < b -> ends (block k stmt) p.
Proof.
  intros Hk Hb. unfold block.
  apply ends_bind; [by apply ends_block_loop|]. intros l p1 _.
  apply ends_bind; [apply ends_expect|]. by intros.
Qed.

Lemma ends_suite k p :
  remaining p <= k -> remaining p <= b -> ends (suite k stmt) p.
Proof.
  intros Hk Hb. unfold suite.
  apply ends_bind; [apply ends_expect|]. intros t1 p1 E1.
  apply (returns_remaining 1 anything) in E1; [|by apply returns_expect].
  apply ends_bind; [apply ends_expect|]. intros t2 p2 E2.
  apply ends_bind; [apply ends_expect|]. intros t3 p3 E3.
  apply (returns_remaining 1 anything) in E2; [|by apply returns_expect].
  apply (returns_remaining 1 anything) in E3; [|by apply returns_expect].
  apply ends_block; lia.
Qed.

Lemma ends_assignment k p :
  remaining p <= k -> ends (assignment py_float literal_eval k) p.
Proof.
  intros Hk. unfold assignment.
  apply ends_bind; [apply ends_expect|]. intros t1 p1 E1.
  apply (returns_remaining 1 anything) in E1; [|by apply returns_expect].
  apply ends_bind; [apply ends_expect|]. intros t2 p2 E2.
  apply (returns_remaining 1 anything) in E2; [|by apply returns_expect].
  apply ends_bind; [apply ends_expression; lia|]. intros e p3 _.
  apply ends_bind; [apply ends_skip_newline|]. by intros.
Qed.

Lemma ends_elif_loop k :
  forall acc p, remaining p <= k -> remaining p <= b ->
  ends (elif_loop py_float literal_eval k stmt acc) p.
Proof.
  induction k as [|k IH]; intros acc p Hk Hb; unfold ends; cbn [elif_loop];
    destruct (is_name "elif" (current p)) eqn:E; try done;
    pose proof (real_remaining _ (is_name_real _ _ E)) as Hr; [lia|].
  apply ends_bind; [apply ends_advance|]. intros u p1 E1.
  apply advance_remaining in E1; [|by eapply is_name_real].
  apply ends_bind; [apply ends_expression; lia|]. intros c p2 E2.
  apply (returns_remaining 1 expression_shaped) in E2;
    [|apply returns_expression].
  apply ends_bind; [apply ends_suite; lia|]. intros eb p3 E3.
  apply (returns_remaining 1 statements_shaped) in E3;
    [|by apply returns_suite].
  apply IH; lia.
Qed.

Lemma ends_if_stmt k p :
  remaining p <= k -> remaining p <= b ->
  ends (if_stmt py_float literal_eval k stmt) p.
Proof.
  intros Hk Hb. unfold if_stmt.
  apply ends_bind; [apply ends_expect|]. intros t1 p1 E1.
  apply (returns_remaining 1 anything) in E1; [|by apply returns_expect].
  apply ends_bind; [apply ends_expression; lia|]. intros c p2 E2.
  apply (returns_remaining 1 expression_shaped) in E2;
    [|apply returns_expression].
  apply ends_bind; [apply ends_suite; lia|]. intros tb p3 E3.
  apply (returns_remaining 1 statements_shaped) in E3;
    [|by apply returns_suite].
  apply ends_bind; [apply ends_elif_loop; lia|]. intros el p4 E4.
  apply (returns_remaining 0 elifs_shaped) in E4;
    [|by apply returns_elif_loop].
  apply ends_bind; [|by intros].
  unfold ends. destruct (is_name "else" (current p4)) eqn:E; [|done].
  apply ends_bind; [apply ends_advance|]. intros u p5 E5.
  apply advance_remaining in E5; [|by eapply is_name_real].
  apply ends_bind; [apply ends_suite; lia|]. by intros.
Qed.

Lemma ends_while_stmt k p :
  remaining p <= k -> remaining p <= b ->
  ends (while_stmt py_float literal_eval k stmt) p.
Proof.
  intros Hk Hb. unfold while_stmt.
  apply ends_bind; [apply ends_expect|]. intros t1 p1 E1.
  apply (returns_remaining 1 anything) in E1; [|by apply returns_expect].
  apply ends_bind; [apply ends_expression; lia|]. intros c p2 E2.
  apply (returns_remaining 1 expression_shaped) in E2;
    [|apply returns_expression].
  apply ends_bind; [apply ends_suite; lia|]. by intros.
Qed.

Lemma ends_more_params k :
  forall acc p, remaining p <= k -> ends (more_params k acc) p.
Proof.
  induction k as [|k IH]; intros acc p Hk; unfold ends; cbn [more_params];
    destruct (is_op "," (current p)) eqn:E; try done;
    pose proof (real_remaining _ (is_op_real _ _ E)) as Hr; [lia|].
  apply ends_bind; [apply ends_advance|]. intros u p1 E1.
  apply advance_remaining in E1; [|by eapply is_op_real].
  apply ends_bind; [apply ends_expect|]. intros t p2 E2.
  apply (returns_remaining 1 anything) in E2; [|by apply returns_expect].
  apply IH; lia.
Qed.

Lemma ends_function_def k p :
  remaining p <= k -> remaining p <= b -> ends (function_def k stmt) p.
Proof.
  intros Hk Hb. unfold function_def.
  apply ends_bind; [apply ends_expect|]. intros t1 p1 E1.
  apply (returns_remaining 1 anything) in E1; [|by apply returns_expect].
  apply ends_bind; [apply ends_expect|]. intros t2 p2 E2.
  apply (returns_remaining 1 anything) in E2; [|by apply returns_expect].
  apply ends_bind; [apply ends_expect|]. intros t3 p3 E3.
  apply (returns_remaining 1 anything) in E3; [|by apply returns_expect].
  apply ends_bind.
  { unfold ends. destruct (is_op ")" (current p3)); [done|].
    apply ends_bind; [apply ends_expect|]. intros t p4 E4.
    apply (returns_remaining 1 anything) in E4; [|by apply returns_expect].
    apply ends_more_params; lia. }
  intros ps p4 E4.
  assert (remaining p4 <= remaining p3) as H4.
  { destruct (is_op ")" (current p3)); [by injection E4 as _ <-|].
    revert E4. unfold pbind.
    destruct (expect "NAME" None p3) as [t p5| |] eqn:E5; [|done..].
    apply (returns_remaining 1 anything) in E5; [|by apply returns_expect].
    intros E4. apply (returns_remaining 0 anything) in E4;
      [lia | apply returns_more_params]. }
  apply ends_bind; [apply ends_expect|]. intros t5 p5 E5.
  apply (returns_remaining 1 anything) in E5; [|by apply returns_expect].
  apply ends_bind; [apply ends_suite; lia|]. by intros.
Qed.

Lemma ends_return_stmt k p :
  remaining p <= k -> ends (return_stmt py_float literal_eval k) p.
Proof.
  intros Hk. unfold return_stmt.
  apply ends_bind; [apply ends_expect|]. intros t1 p1 E1.
  apply (returns_remaining 1 anything) in E1; [|by apply returns_expect].
  apply ends_bind.
  { unfold ends. destruct (String.eqb (type (current p1)) "NEWLINE"); [done|].
    apply ends_bind; [apply ends_expression; lia|]. by intros. }
  intros rv p2 _.
  apply ends_bind; [apply ends_skip_newline|]. by intros.
Qed.

End StatementsEnd.

Lemma ends_statement py_float literal_eval k p :
  remaining p + 1 < k -> ends (statement py_float literal_eval k) p.
Proof.
  revert p. induction k as [|k IH]; intros p Hk; [lia|].
  assert (Hs : forall q, remaining q < k - 1 ->
                         ends (statement py_float literal_eval k) q).
  { intros q Hq. apply IH. lia. }
  unfold ends. cbn [statement]. cbv zeta.
  destruct (is_name "if" (current p));
    [apply ends_if_stmt with (b := k - 1);
       [apply returns_statement | exact Hs | lia | lia]|].
  destruct (is_name "while" (current p));
    [apply ends_while_stmt with (b := k - 1);
       [apply returns_statement | exact Hs | lia | lia]|].
  destruct (is_name "def" (current p));
    [apply ends_function_def with (b := k - 1);
       [apply returns_statement | exact Hs | lia | lia]|].
  destruct (is_name "return" (current p));
    [apply ends_return_stmt; lia|].
  destruct (_ && _); [apply ends_assignment; lia|].
  apply ends_bind; [apply ends_expression; lia|]. intros e p1 _.
  apply ends_bind; [apply ends_skip_newline|]. by intros.
Qed.

Lemma ends_parse_loop py_float literal_eval k :
  forall acc p, remaining p + 1 < k ->
  ends (parse_loop py_float literal_eval k acc) p.
Proof.
  induction k as [|k IH]; intros acc p Hk; [lia|].
  unfold ends. cbn [parse_loop]. cbv zeta.
  destruct (String.eqb (type (current p)) "EOF") eqn:E0; [done|].
  apply String.eqb_neq in E0. pose proof (real_remaining _ E0) as Hr.
  destruct (String.eqb (type (current p)) "NEWLINE") eqn:E.
  - apply ends_bind; [apply ends_advance|]. intros u p1 E1.
    apply advance_remaining in E1; [|done].
    destruct (String.eqb (type (current p1)) "EOF") eqn:E2.
    + unfold ends. destruct k; cbn [parse_loop]; by rewrite E2.
    + apply String.eqb_neq, real_remaining in E2. apply IH. lia.
  - apply ends_bind; [apply ends_statement; lia|]. intros s p1 E1.
    apply (returns_remaining 1 statement_shaped) in E1;
      [|apply returns_statement].
    destruct (String.eqb (type (current p1)) "EOF") eqn:E2.
    + unfold ends. destruct k; cbn [parse_loop]; by rewrite E2.
    + apply String.eqb_neq, real_remaining in E2. apply IH. lia.
Qed.

(** X10. The parser never changes its tokens and never moves back. An
    expression or a statement that is parsed has consumed one token at
    least and ends within the tokens; a program that is parsed ends on
    a token of type EOF. *)
Theorem parsing_consumes_tokens py_float literal_eval fuel p :
  (forall n p',
     expression py_float literal_eval fuel p = POk n p' ->
     tokens p' = tokens p /\ pos p < pos p' <= length (tokens p))
  /\ (forall n p',
        statement py_float literal_eval fuel p = POk n p' ->
        tokens p' = tokens p /\ pos p < pos p' <= length (tokens p))
  /\ (forall prog p',
        parse py_float literal_eval fuel p = POk prog p' ->
        tokens p' = tokens p /\ pos p <= pos p'
        /\ type (current p') = "EOF").
Proof.
  split; [|split].
  - intros n p' E. destruct (returns_expression _ _ _ _ _ _ E) as [C _].
    unfold consumed, remaining in C. destruct C as (T & C).
    rewrite T in C. split; [exact T | lia].
  - intros n p' E. destruct (returns_statement _ _ _ _ _ _ E) as [C _].
    unfold consumed, remaining in C. destruct C as (T & C).
    rewrite T in C. split; [exact T | lia].
  - intros prog p'. unfold parse, pbind.
    destruct (parse_loop py_float literal_eval fuel [] p) as [l p1| |] eqn:E;
      [|done..].
    intros [= <- <-].
    destruct (returns_parse_loop _ _ _ [] ltac:(done) _ _ _ E) as [C _].
    unfold consumed in C. split; [apply C|]. split; [apply C|].
    by eapply parse_loop_stops_at_EOF.
Qed.

(** X11. What the parser returns has the shape of the grammar. An
    expression is a literal, a name, one of the ten operators on two
    expressions, or a call of a name on expressions; a statement is an
    expression, or an assignment, a return, an if, a while or a def
    whose conditions and values are expressions and whose bodies are
    statements. *)
Theorem parsed_trees_have_the_shape_of_the_grammar py_float literal_eval fuel p :
  (forall n p',
     expression py_float literal_eval fuel p = POk n p' ->
     is_expression n = true)
  /\ (forall n p',
        statement py_float literal_eval fuel p = POk n p' ->
        is_statement n = true)
  /\ (forall prog p',
        parse py_float literal_eval fuel p = POk prog p' ->
        forallb is_statement (body prog) = true).
Proof.
  split; [|split].
  - intros n p' E. by destruct (returns_expression _ _ _ _ _ _ E) as [_ H].
  - intros n p' E. by destruct (returns_statement _ _ _ _ _ _ E) as [_ H].
  - intros prog p'. unfold parse, pbind.
    destruct (parse_loop py_float literal_eval fuel [] p) as [l p1| |] eqn:E;
      [|done..].
    intros [= <- <-].
    by destruct (returns_parse_loop _ _ _ [] ltac:(done) _ _ _ E) as [_ H].
Qed.

(** X12. The loops and the recursion of the parser end: every round
    consumes a token. A fuel above the number of tokens ahead is enough
    for an expression, and a fuel above that number plus one for a
    statement, for a program, and for the parse of a text. *)
Theorem parser_ends_with_fuel_beyond_the_tokens py_float literal_eval fuel :
  (forall p, remaining p < fuel ->
     expression py_float literal_eval fuel p <> POutOfFuel)
  /\ (forall p, remaining p + 1 < fuel ->
        statement py_float literal_eval fuel p <> POutOfFuel)
  /\ (forall p, remaining p + 1 < fuel ->
        parse py_float literal_eval fuel p <> POutOfFuel)
  /\ (forall gen,
        length (tokens_of (tokenize_source gen)) + 1 < fuel ->
        parse_source py_float literal_eval fuel gen <> inl POutOfFuel).
Proof.
  assert (Hparse : forall p, remaining p + 1 < fuel ->
            parse py_float literal_eval fuel p <> POutOfFuel).
  { intros p H. unfold parse.
    apply (ends_bind (parse_loop py_float literal_eval fuel []));
      [by apply ends_parse_loop | by intros]. }
  split; [|split; [|split]].
  - intros p H. by apply ends_expression.
  - intros p H. by apply ends_statement.
  - exact Hparse.
  - intros gen H. unfold parse_source, new_parser.
    destruct (failure (tokenize_source gen)); [done|].
    intros [= E]. revert E. apply Hparse. unfold remaining.
    cbn [tokens pos]. unfold tokenize_source in H. cbn [tokens_of] in H. lia.
Qed.

(** X14. Parentheses group against the levels of the operators: for
    all pairs of the ten operators, the text with [x o1 y] in
    parentheses followed by [o2 z] parses to the tree with [o1] below
    on the left, and the text [x o1] followed by [y o2 z] in
    parentheses to the tree with [o2] below on the right. *)
Theorem parentheses_override_the_levels :
  forall (o1 o2 : binary_operator) (x y z : string) (lx cx ly cy lz cz : nat)
         (rest : list Token) py_float literal_eval,
    let tx := name_token x lx cx in
    let ty := name_token y ly cy in
    let tz := name_token z lz cz in
    expression py_float literal_eval 4
      {| tokens := left_parenthesized o1 o2 tx ty tz rest; pos := 0 |}
    = POk (binary (binary (identifier_of tx) (symbol o1) (identifier_of ty))
             (symbol o2) (identifier_of tz))
        {| tokens := left_parenthesized o1 o2 tx ty tz rest; pos := 7 |}
    /\ expression py_float literal_eval 4
         {| tokens := right_parenthesized o1 o2 tx ty tz rest; pos := 0 |}
       = POk (binary (identifier_of tx) (symbol o1)
                (binary (identifier_of ty) (symbol o2) (identifier_of tz)))
           {| tokens := right_parenthesized o1 o2 tx ty tz rest; pos := 7 |}.
Proof.
  intros o1 o2 x y z lx cx ly cy lz cz rest fl lit.
  destruct o1, o2; split; vm_compute; reflexivity.
Qed.

Lemma prefines_refl {A} (m : P A) : prefines m m.
Proof. intros p. by right. Qed.

Lemma prefines_bind {A B} (m1 m2 : P A) (k1 k2 : A -> P B) :
  prefines m1 m2 -> (forall a, prefines (k1 a) (k2 a)) ->
  prefines (pbind m1 k1) (pbind m2 k2).
Proof.
  intros Hm Hk p. unfold pbind.
  destruct (Hm p) as [H|H]; [left; by rewrite H|].
  rewrite H. destruct (m1 p) as [a p'| |]; [apply Hk | by right | by left].
Qed.

Lemma prefines_if {A} (c : parser -> bool) (a1 a2 b1 b2 : P A) :
  prefines a1 a2 -> prefines b1 b2 ->
  prefines (fun p => if c p then a1 p else b1 p)
           (fun p => if c p then a2 p else b2 p).
Proof. intros Ha Hb p. destruct (c p); [apply Ha | apply Hb]. Qed.

Section MoreFuel.

Variable py_float : string -> option float.
Variable literal_eval : string -> option string.

Lemma binary_loop_prefines k ops o1 o2 :
  prefines o1 o2 ->
  forall acc, prefines (binary_loop k ops o1 acc) (binary_loop (S k) ops o2 acc).
Proof.
  intros Ho. induction k as [|k IH]; intros acc p.
  - cbn [binary_loop]. destruct (op_in ops (current p)); [by left | by right].
  - change (binary_loop (S k) ops o1 acc p)
      with (if op_in ops (current p)
            then (do! _ := advance in
                  do! r := o1 in
                  binary_loop k ops o1 (binary acc (value (current p)) r)) p
            else POk acc p).
    change (binary_loop (S (S k)) ops o2 acc p)
      with (if op_in ops (current p)
            then (do! _ := advance in
                  do! r := o2 in
                  binary_loop (S k) ops o2 (binary acc (value (current p)) r)) p
            else POk acc p).
    destruct (op_in ops (current p)); [|by right].
    apply prefines_bind; [apply prefines_refl|]. intros _.
    apply prefines_bind; [exact Ho|]. intros r. apply IH.
Qed.

Lemma more_args_prefines k e1 e2 :
  prefines e1 e2 ->
  forall acc, prefines (more_args k e1 acc) (more_args (S k) e2 acc).
Proof.
  intros He. induction k as [|k IH]; intros acc p.
  - cbn [more_args]. destruct (is_op "," (current p)); [by left | by right].
  - change (more_args (S k) e1 acc p)
      with (if is_op "," (current p)
            then (do! _ := advance in
                  do! a := e1 in more_args k e1 (acc ++ [a])) p
            else POk acc p).
    change (more_args (S (S k)) e2 acc p)
      with (if is_op "," (current p)
            then (do! _ := advance in
                  do! a := e2 in more_args (S k) e2 (acc ++ [a])) p
            else POk acc p).
    destruct (is_op "," (current p)); [|by right].
    apply prefines_bind; [apply prefines_refl|]. intros _.
    apply prefines_bind; [exact He|]. intros r. apply IH.
Qed.

Lemma call_prefines k e1 e2 :
  prefines e1 e2 -> prefines (call k e1) (call (S k) e2).
Proof.
  intros He. unfold call.
  apply prefines_bind; [apply prefines_refl|]. intros nt.
  apply prefines_bind; [apply prefines_refl|]. intros _.
  apply prefines_bind; [|intros args; apply prefines_refl].
  apply (prefines_if (fun p => is_op ")" (current p))); [apply prefines_refl|].
  apply prefines_bind; [exact He|]. intros a. by apply more_args_prefines.
Qed.

Lemma factor_prefines k e1 e2 :
  prefines e1 e2 ->
  prefines (factor py_float literal_eval k e1)
           (factor py_float literal_eval (S k) e2).
Proof.
  intros He p. unfold factor. cbv zeta.
  destruct (String.eqb (type (current p)) "NUMBER"); [by right|].
  destruct (String.eqb (type (current p)) "STRING"); [by right|].
  destruct (String.eqb (type (current p)) "NAME").
  { destruct (next_tok p) as [nt|]; [|by right].
    destruct (is_op "(" nt); [by apply call_prefines | by right]. }
  destruct (is_op "(" (current p)); [|by right].
  apply prefines_bind; [apply prefines_refl|]. intros _.
  apply prefines_bind; [exact He|]. intros n. apply prefines_refl.
Qed.

Lemma term_prefines k e1 e2 :
  prefines e1 e2 ->
  prefines (term py_float literal_eval k e1) (term py_float literal_eval (S k) e2).
Proof.
  intros He. unfold term.
  apply prefines_bind; [by apply factor_prefines|]. intros n.
  by apply binary_loop_prefines, factor_prefines.
Qed.

Lemma arith_prefines k e1 e2 :
  prefines e1 e2 ->
  prefines (arith py_float literal_eval k e1)
           (arith py_float literal_eval (S k) e2).
Proof.
  intros He. unfold arith.
  apply prefines_bind; [by apply term_prefines|]. intros n.
  by apply binary_loop_prefines, term_prefines.
Qed.

Lemma comparison_prefines k e1 e2 :
  prefines e1 e2 ->
  prefines (comparison py_float literal_eval k e1)
           (comparison py_float literal_eval (S k) e2).
Proof.
  intros He. unfold comparison.
  apply prefines_bind; [by apply arith_prefines|]. intros n.
  by apply binary_loop_prefines, arith_prefines.
Qed.

Lemma expression_prefines k :
  prefines (expression py_float literal_eval k)
           (expression py_float literal_eval (S k)).
Proof.
  induction k as [|k IH]; [intros p; by left|].
  change (prefines
            (comparison py_float literal_eval k
               (expression py_float literal_eval k))
            (comparison py_float literal_eval (S k)
               (expression py_float literal_eval (S k)))).
  by apply comparison_prefines.
Qed.

Lemma block_loop_prefines k s1 s2 :
  prefines s1 s2 ->
  forall acc, prefines (block_loop k s1 acc) (block_loop (S k) s2 acc).
Proof.
  intros Hs. induction k as [|k IH]; intros acc p.
  - cbn [block_loop]. cbv zeta. destruct (_ || _); [by right | by left].
  - change (block_loop (S k) s1 acc p)
      with (if String.eqb (type (current p)) "DEDENT"
               || String.eqb (type (current p)) "EOF"
            then POk acc p
            else if String.eqb (type (current p)) "NEWLINE"
                 then (do! _ := advance in block_loop k s1 acc) p
                 else (do! s := s1 in block_loop k s1 (acc ++ [s])) p).
    change (block_loop (S (S k)) s2 acc p)
      with (if String.eqb (type (current p)) "DEDENT"
               || String.eqb (type (current p)) "EOF"
            then POk acc p
            else if String.eqb (type (current p)) "NEWLINE"
                 then (do! _ := advance in block_loop (S k) s2 acc) p
                 else (do! s := s2 in block_loop (S k) s2 (acc ++ [s])) p).
    destruct (_ || _); [by right|].
    destruct (String.eqb (type (current p)) "NEWLINE").
    + apply prefines_bind; [apply prefines_refl|]. intros _. apply IH.
    + apply prefines_bind; [exact Hs|]. intros s. apply IH.
Qed.

Lemma suite_prefines k s1 s2 :
  prefines s1 s2 -> prefines (suite k s1) (suite (S k) s2).
Proof.
  intros Hs. unfold suite, block.
  apply prefines_bind; [apply prefines_refl|]. intros _.
  apply prefines_bind; [apply prefines_refl|]. intros _.
  apply prefines_bind; [apply prefines_refl|]. intros _.
  apply prefines_bind; [by apply block_loop_prefines|]. intros l.
  apply prefines_refl.
Qed.

Lemma assignment_prefines k :
  prefines (assignment py_float literal_eval k)
           (assignment py_float literal_eval (S k)).
Proof.
  unfold assignment.
  apply prefines_bind; [apply prefines_refl|]. intros nt.
  apply prefines_bind; [apply prefines_refl|]. intros _.
  apply prefines_bind; [apply expression_prefines|]. intros e.
  apply prefines_refl.
Qed.

Lemma elif_loop_prefines k s1 s2 :
  prefines s1 s2 ->
  forall acc, prefines (elif_loop py_float literal_eval k s1 acc)
                       (elif_loop py_float literal_eval (S k) s2 acc).
Proof.
  intros Hs. induction k as [|k IH]; intros acc p.
  - cbn [elif_loop]. destruct (is_name "elif" (current p)); [by left | by right].
  - change (elif_loop py_float literal_eval (S k) s1 acc p)
      with (if is_name "elif" (current p)
            then (do! _ := advance in
                  do! econd := expression py_float literal_eval (S k) in
                  do! ebody := suite (S k) s1 in
                  elif_loop py_float literal_eval k s1 (acc ++ [(econd, ebody)])) p
            else POk acc p).
    change (elif_loop py_float literal_eval (S (S k)) s2 acc p)
      with (if is_name "elif" (current p)
            then (do! _ := advance in
                  do! econd := expression py_float literal_eval (S (S k)) in
                  do! ebody := suite (S (S k)) s2 in
                  elif_loop py_float literal_eval (S k) s2
                    (acc ++ [(econd, ebody)])) p
            else POk acc p).
    destruct (is_name "elif" (current p)); [|by right].
    apply prefines_bind; [apply prefines_refl|]. intros _.
    apply prefines_bind; [apply expression_prefines|]. intros c.
    apply prefines_bind; [by apply suite_prefines|]. intros b. apply IH.
Qed.

Lemma if_stmt_prefines k s1 s2 :
  prefines s1 s2 ->
  prefines (if_stmt py_float literal_eval k s1)
           (if_stmt py_float literal_eval (S k) s2).
Proof.
  intros Hs. unfold if_stmt.
  apply prefines_bind; [apply prefines_refl|]. intros it.
  apply prefines_bind; [apply expression_prefines|]. intros c.
  apply prefines_bind; [by apply suite_prefines|]. intros tb.
  apply prefines_bind; [by apply elif_loop_prefines|]. intros el.
  apply prefines_bind; [|intros eb; apply prefines_refl].
  apply (prefines_if (fun p => is_name "else" (current p)));
    [|apply prefines_refl].
  apply prefines_bind; [apply prefines_refl|]. intros _.
  apply prefines_bind; [by apply suite_prefines|]. intros b.
  apply prefines_refl.
Qed.

Lemma while_stmt_prefines k s1 s2 :
  prefines s1 s2 ->
  prefines (while_stmt py_float literal_eval k s1)
           (while_stmt py_float literal_eval (S k) s2).
Proof.
  intros Hs. unfold while_stmt.
  apply prefines_bind; [apply prefines_refl|]. intros wt.
  apply prefines_bind; [apply expression_prefines|]. intros c.
  apply prefines_bind; [by apply suite_prefines|]. intros b.
  apply prefines_refl.
Qed.

Lemma more_params_prefines k :
  forall acc, prefines (more_params k acc) (more_params (S k) acc).
Proof.
  induction k as [|k IH]; intros acc p.
  - cbn [more_params]. destruct (is_op "," (current p)); [by left | by right].
  - change (more_params (S k) acc p)
      with (if is_op "," (current p)
            then (do! _ := advance in
                  do! t := expect "NAME" None in
                  more_params k (acc ++ [value t])) p
            else POk acc p).
    change (more_params (S (S k)) acc p)
      with (if is_op "," (current p)
            then (do! _ := advance in
                  do! t := expect "NAME" None in
                  more_params (S k) (acc ++ [value t])) p
            else POk acc p).
    destruct (is_op "," (current p)); [|by right].
    apply prefines_bind; [apply prefines_refl|]. intros _.
    apply prefines_bind; [apply prefines_refl|]. intros t. apply IH.
Qed.

Lemma function_def_prefines k s1 s2 :
  prefines s1 s2 -> prefines (function_def k s1) (function_def (S k) s2).
Proof.
  intros Hs. unfold function_def.
  apply prefines_bind; [apply prefines_refl|]. intros dt.
  apply prefines_bind; [apply prefines_refl|]. intros nt.
  apply prefines_bind; [apply prefines_refl|]. intros _.
  apply prefines_bind.
  { apply (prefines_if (fun p => is_op ")" (current p)));
      [apply prefines_refl|].
    apply prefines_bind; [apply prefines_refl|]. intros t.
    apply more_params_prefines. }
  intros ps.
  apply prefines_bind; [apply prefines_refl|]. intros _.
  apply prefines_bind; [by apply suite_prefines|]. intros b.
  apply prefines_refl.
Qed.

Lemma return_stmt_prefines k :
  prefines (return_stmt py_float literal_eval k)
           (return_stmt py_float literal_eval (S k)).
Proof.
  unfold return_stmt.
  apply prefines_bind; [apply prefines_refl|]. intros rt.
  apply prefines_bind; [|intros rv; apply prefines_refl].
  apply (prefines_if (fun p => String.eqb (type (current p)) "NEWLINE"));
    [apply prefines_refl|].
  apply prefines_bind; [apply expression_prefines|]. intros e.
  apply prefines_refl.
Qed.

Lemma statement_prefines k :
  prefines (statement py_float literal_eval k)
           (statement py_float literal_eval (S k)).
Proof.
  induction k as [|k IH]; [intros p; by left|]. intros p.
  cbn [statement]. cbv zeta.
  destruct (is_name "if" (current p)); [by apply if_stmt_prefines|].
  destruct (is_name "while" (current p)); [by apply while_stmt_prefines|].
  destruct (is_name "def" (current p)); [by apply function_def_prefines|].
  destruct (is_name "return" (current p)); [apply return_stmt_prefines|].
  destruct (_ && _); [apply assignment_prefines|].
  apply prefines_bind; [apply expression_prefines|]. intros e.
  apply prefines_refl.
Qed.

Lemma parse_loop_prefines k :
  forall acc, prefines (parse_loop py_float literal_eval k acc)
                       (parse_loop py_float literal_eval (S k) acc).
Proof.
  induction k as [|k IH]; intros acc p.
  - cbn [parse_loop]. cbv zeta.
    destruct (String.eqb (type (current p)) "EOF"); [by right | by left].
  - change (parse_loop py_float literal_eval (S k) acc p)
      with (if String.eqb (type (current p)) "EOF" then POk acc p
            else if String.eqb (type (current p)) "NEWLINE"
                 then (do! _ := advance in
                       parse_loop py_float literal_eval k acc) p
                 else (do! s := statement py_float literal_eval (S k) in
                       parse_loop py_float literal_eval k (acc ++ [s])) p).
    change (parse_loop py_float literal_eval (S (S k)) acc p)
      with (if String.eqb (type (current p)) "EOF" then POk acc p
            else if String.eqb (type (current p)) "NEWLINE"
                 then (do! _ := advance in
                       parse_loop py_float literal_eval (S k) acc) p
                 else (do! s := statement py_float literal_eval (S (S k)) in
                       parse_loop py_float literal_eval (S k) (acc ++ [s])) p).
    destruct (String.eqb (type (current p)) "EOF"); [by right|].
    destruct (String.eqb (type (current p)) "NEWLINE").
    + apply prefines_bind; [apply prefines_refl|]. intros _. apply IH.
    + apply prefines_bind; [apply statement_prefines|]. intros s. apply IH.
Qed.

Lemma parse_prefines k :
  prefines (parse py_float literal_eval k) (parse py_float literal_eval (S k)).
Proof.
  unfold parse. apply prefines_bind; [apply parse_loop_prefines|].
  intros l. apply prefines_refl.
Qed.

Lemma parse_more_fuel k extra p r :
  parse py_float literal_eval k p = r -> r <> POutOfFuel ->
  parse py_float literal_eval (extra + k) p = r.
Proof.
  intros Hr Hne. induction extra as [|j IH]; [done|].
  destruct (parse_prefines (j + k) p) as [H|H].
  - rewrite IH in H. by subst.
  - change (S j + k) with (S (j + k)). by rewrite H.
Qed.

End MoreFuel.

(** X13. The result of a parse is the same for every fuel above the
    number of tokens ahead plus one. *)
Theorem parse_does_not_depend_on_the_fuel py_float literal_eval p fuel fuel' :
  remaining p + 1 < fuel -> remaining p + 1 < fuel' ->
  parse py_float literal_eval fuel p = parse py_float literal_eval fuel' p.
Proof.
  intros H H'.
  assert (Hend : forall k, remaining p + 1 < k ->
            parse py_float literal_eval k p <> POutOfFuel).
  { intros k Hk. unfold parse.
    apply (ends_bind (parse_loop py_float literal_eval k []));
      [by apply ends_parse_loop | by intros]. }
  destruct (Nat.le_ge_cases fuel fuel') as [Hle|Hle].
  - replace fuel' with ((fuel' - fuel) + fuel) by lia.
    symmetry. apply parse_more_fuel; [done | by apply Hend].
  - replace fuel with ((fuel - fuel') + fuel') at 1 by lia.
    apply parse_more_fuel; [done | by apply Hend].
Qed.

Lemma parse_does_not_depend_on_the_fuel_witness :
  parse (fun _ => None) (fun _ => None) 9
    {| tokens := two_operators Add Mul (name_token "a" 1 0)
                   (name_token "b" 1 4) (name_token "c" 1 8) [];
       pos := 0 |}
  = parse (fun _ => None) (fun _ => None) 20
      {| tokens := two_operators Add Mul (name_token "a" 1 0)
                     (name_token "b" 1 4) (name_token "c" 1 8) [];
         pos := 0 |}.
Proof.
  apply (parse_does_not_depend_on_the_fuel (fun _ => None) (fun _ => None)
           {| tokens := two_operators Add Mul (name_token "a" 1 0)
                          (name_token "b" 1 4) (name_token "c" 1 8) [];
              pos := 0 |} 9 20);
    unfold remaining; simpl; lia.
Defined.

End ParserFacts.

(** ** The generator *)

Module CodegenFacts.

Import Codegen SemanticSpec CodegenSpec.

Lemma succeeds_gbind {A B} (r : generated A) (k : A -> generated B) b :
  (forall a, succeeds (k a) = b) ->
  succeeds (gbind r k) = succeeds r && b.
Proof. intros H. destruct r; simpl; [apply H | done]. Qed.

Lemma _stmt_or_expr_succeeds n :
  succeeds (_stmt_or_expr n) = succeeds (visit n).
Proof.
  destruct n; try reflexivity.
  unfold _stmt_or_expr. by destruct (visit _).
Qed.

Lemma visit_all_succeeds l :
  Forall (fun n => succeeds (visit n) = supported n) l ->
  succeeds (visit_all visit l) = forallb supported l.
Proof.
  induction 1 as [|n rest Hn _ IH]; [done|]. simpl.
  destruct (visit n); simpl in *; rewrite <- Hn; [|done].
  destruct (visit_all visit rest); simpl in *; by rewrite <- IH.
Qed.

Lemma statements_succeeds l :
  Forall (fun n => succeeds (visit n) = supported n) l ->
  succeeds (statements _stmt_or_expr l) = forallb supported l.
Proof.
  induction 1 as [|n rest Hn _ IH]; [done|]. simpl.
  rewrite <- Hn, <- _stmt_or_expr_succeeds.
  destruct (_stmt_or_expr n); simpl; [|done].
  destruct (statements _stmt_or_expr rest); simpl in *; by rewrite <- IH.
Qed.

Lemma chain_succeeds elifs else_part :
  Forall (fun cb => succeeds (visit (fst cb)) = supported (fst cb)
                    /\ Forall (fun n => succeeds (visit n) = supported n)
                         (snd cb)) elifs ->
  succeeds (chain visit _stmt_or_expr elifs else_part)
  = forallb (fun cb => let '(c, b) := cb in
                       supported c && forallb supported b) elifs
    && succeeds else_part.
Proof.
  induction 1 as [|[c b] rest [Hc Hb] _ IH]; [done|]. simpl in *.
  rewrite <- Hc, <- (statements_succeeds b Hb).
  destruct (visit c); simpl; [|done].
  destruct (statements _stmt_or_expr b); simpl; [|done].
  rewrite <- IH. by destruct (chain visit _stmt_or_expr rest else_part).
Qed.

Lemma visit_unfold_IfNode l c cond tb el eb :
  visit (IfNode l c cond tb el eb)
  = visit_IfNode visit _stmt_or_expr l c cond tb el eb.
Proof. reflexivity. Qed.

Lemma visit_unfold_WhileNode l c cond b :
  visit (WhileNode l c cond b) = visit_WhileNode visit _stmt_or_expr l c cond b.
Proof. reflexivity. Qed.

Lemma visit_unfold_FunctionDefNode l c f ps b :
  visit (FunctionDefNode l c f ps b)
  = visit_FunctionDefNode _stmt_or_expr l c f ps b.
Proof. reflexivity. Qed.

Lemma visit_succeeds n : succeeds (visit n) = supported n.
Proof.
  induction n as
    [l c v|l c v|l c x|l c a op b IHa IHb|l c x e IHe
    |l c cond tb el eb IHc IHtb IHel IHeb|l c cond b IHc IHb
    |l c f ps b IHb|l c rv IHrv|l c f args IHf IHargs]
    using node_induction; try reflexivity.
  - simpl. unfold visit_BinaryOpNode. rewrite <- IHa, <- IHb.
    destruct (visit a); simpl; [|done]. destruct (visit b); simpl; [|done].
    unfold known_operator.
    destruct (arith_ops op); [done|]. by destruct (compare_ops_map op).
  - simpl. unfold visit_AssignmentNode. rewrite <- IHe. by destruct (visit e).
  - rewrite visit_unfold_IfNode. unfold visit_IfNode. cbn [supported].
    rewrite <- IHc, <- (statements_succeeds tb IHtb).
    destruct (visit cond); simpl; [|done].
    destruct (statements _stmt_or_expr tb); simpl; [|done].
    erewrite (succeeds_gbind _ _ true); [|done].
    rewrite chain_succeeds by done. rewrite andb_true_r. f_equal.
    destruct eb as [[|s ss]|]; [done | exact (statements_succeeds (s :: ss) IHeb) | done].
  - rewrite visit_unfold_WhileNode. unfold visit_WhileNode. cbn [supported].
    rewrite <- IHc, <- (statements_succeeds b IHb).
    destruct (visit cond); simpl; [|done].
    by destruct (statements _stmt_or_expr b).
  - rewrite visit_unfold_FunctionDefNode. unfold visit_FunctionDefNode.
    cbn [supported]. rewrite <- (statements_succeeds b IHb).
    by destruct (statements _stmt_or_expr b).
  - simpl. unfold visit_ReturnNode. destruct rv as [e|]; [|done].
    rewrite <- IHrv. by destruct (visit e).
  - simpl. unfold visit_CallNode. rewrite <- IHf, <- (visit_all_succeeds args IHargs).
    destruct (visit f); simpl; [|done]. by destruct (visit_all visit args).
Qed.

(** X15. The generator fails exactly on an operator it does not know.
    A node, a statement and a program are translated when every
    operator in them, the bodies included, is in one of the two tables
    of the generator, and only then. *)
Theorem generator_fails_on_unknown_operators_only fix_missing_locations p :
  (forall n, succeeds (visit n) = supported n)
  /\ (forall n, succeeds (_stmt_or_expr n) = supported n)
  /\ succeeds (generate fix_missing_locations p) = forallb supported (body p).
Proof.
  split; [apply visit_succeeds|]. split.
  - intros n. by rewrite _stmt_or_expr_succeeds, visit_succeeds.
  - unfold generate.
    rewrite <- (statements_succeeds (body p));
      [|apply Forall_forall; intros; apply visit_succeeds].
    by destruct (statements _stmt_or_expr (body p)).
Qed.

Lemma visit_kind n py :
  visit n = inl py ->
  is_py_statement py
  = match n with
    | CallNode _ _ _ _ => false
    | _ => negb (is_bare_expression n)
    end.
Proof.
  destruct n as [l c v|l c v|l c x|l c a op b|l c x e|l c cond tb el eb
                |l c cond b|l c f ps b|l c rv|l c f args].
  - by intros [= <-].
  - by intros [= <-].
  - by intros [= <-].
  - simpl. unfold visit_BinaryOpNode.
    destruct (visit a); simpl; [|done]. destruct (visit b); simpl; [|done].
    destruct (arith_ops op); [by intros [= <-]|].
    destruct (compare_ops_map op); [by intros [= <-] | done].
  - simpl. unfold visit_AssignmentNode.
    destruct (visit e); simpl; [by intros [= <-] | done].
  - rewrite visit_unfold_IfNode. unfold visit_IfNode.
    destruct (visit cond); simpl; [|done].
    destruct (statements _stmt_or_expr tb); simpl; [|done].
    destruct (chain _ _ _ _); simpl; [by intros [= <-] | done].
  - rewrite visit_unfold_WhileNode. unfold visit_WhileNode.
    destruct (visit cond); simpl; [|done].
    destruct (statements _stmt_or_expr b); simpl; [by intros [= <-] | done].
  - rewrite visit_unfold_FunctionDefNode. unfold visit_FunctionDefNode.
    destruct (statements _stmt_or_expr b); simpl; [by intros [= <-] | done].
  - simpl. unfold visit_ReturnNode.
    destruct rv as [e|]; simpl; [|by intros [= <-]].
    destruct (visit e); simpl; [by intros [= <-] | done].
  - simpl. unfold visit_CallNode.
    destruct (visit f); simpl; [|done].
    destruct (visit_all visit args); simpl; [by intros [= <-] | done].
Qed.

Lemma _stmt_or_expr_kind n py :
  _stmt_or_expr n = inl py ->
  is_py_statement py = negb (is_bare_expression n).
Proof.
  destruct n; try (intros H; exact (visit_kind _ _ H)).
  unfold _stmt_or_expr. destruct (visit _); simpl; [|done]. by intros [= <-].
Qed.

Lemma statements_kind l pys :
  statements _stmt_or_expr l = inl pys ->
  Forall2 (fun n py => is_py_statement py = negb (is_bare_expression n)) l pys.
Proof.
  revert pys. induction l as [|n rest IH]; intros pys; simpl.
  - intros [= <-]. constructor.
  - destruct (_stmt_or_expr n) as [py|] eqn:E; simpl; [|done].
    destruct (statements _stmt_or_expr rest) as [pys'|]; simpl; [|done].
    intros [= <-]. constructor; [by apply _stmt_or_expr_kind | by apply IH].
Qed.

End CodegenFacts.

(** ** The stages together *)

Module PipelineFacts.

Import Lexer Parser.
Import InterpreterSpec SemanticSpec ParserSpec CodegenSpec PipelineSpec.
Import InterpreterFacts SemanticFacts ParserFacts CodegenFacts.

Lemma is_operator_known op : is_operator op = known_operator op.
Proof.
  unfold is_operator, operators, known_operator, Codegen.arith_ops,
    Codegen.compare_ops_map. simpl.
  destruct (String.eqb op "*"), (String.eqb op "/"), (String.eqb op "+"),
    (String.eqb op "-"), (String.eqb op "=="), (String.eqb op "!="),
    (String.eqb op "<"), (String.eqb op "<="), (String.eqb op ">"),
    (String.eqb op ">="); reflexivity.
Qed.

Lemma apply_operator_unknown op :
  is_operator op = false <->
  forall l r st,
    apply_operator op l r st
    = Raised (RuntimeError ("Unknown operator " ++ op)) st.
Proof.
  unfold is_operator, operators, apply_operator. simpl. split.
  - intros H l r st.
    destruct (String.eqb op "*"), (String.eqb op "/"), (String.eqb op "+"),
      (String.eqb op "-"), (String.eqb op "=="), (String.eqb op "!="),
      (String.eqb op "<"), (String.eqb op "<="), (String.eqb op ">"),
      (String.eqb op ">="); try discriminate H; reflexivity.
  - intros H. specialize (H VNone VNone initial_state).
    destruct (String.eqb op "*"), (String.eqb op "/"), (String.eqb op "+"),
      (String.eqb op "-"), (String.eqb op "=="), (String.eqb op "!="),
      (String.eqb op "<"), (String.eqb op "<="), (String.eqb op ">"),
      (String.eqb op ">="); try reflexivity; discriminate H.
Qed.

(** X16. The parser, the interpreter and the generator know the same
    ten operators: an operator is in one of the tables of the generator
    exactly when it is one of the ten, the interpreter raises its
    error of an unknown operator exactly on the others, and an
    operator node that an expression parses to carries one of the
    ten. *)
Theorem the_stages_agree_on_the_operators op :
  (is_operator op = true <->
   Codegen.arith_ops op <> None \/ Codegen.compare_ops_map op <> None)
  /\ (is_operator op = false <->
      forall l r st,
        apply_operator op l r st
        = Raised (RuntimeError ("Unknown operator " ++ op)) st)
  /\ (forall py_float literal_eval fuel p l c a b p',
        expression py_float literal_eval fuel p
        = POk (BinaryOpNode l c a op b) p' ->
        is_operator op = true).
Proof.
  split; [|split].
  - rewrite is_operator_known. unfold known_operator.
    destruct (Codegen.arith_ops op), (Codegen.compare_ops_map op);
      split; try done; try (intros _; by left); try (intros _; by right).
    by intros [H|H].
  - apply apply_operator_unknown.
  - intros fl lit fuel p l c a b p' E.
    destruct (returns_expression _ _ _ _ _ _ E) as [_ H].
    unfold expression_shaped in H. simpl in H.
    by apply andb_prop in H as [H _]; apply andb_prop in H as [H _].
Qed.

Lemma expression_stores_nothing n :
  is_expression n = true -> stores_nothing n = true.
Proof.
  induction n as
    [l c v|l c v|l c x|l c a op b IHa IHb|l c x e IHe
    |l c cond tb el eb IHc IHtb IHel IHeb|l c cond b IHc IHb
    |l c f ps b IHb|l c rv IHrv|l c f args IHf IHargs]
    using node_induction; simpl; try done.
  - intros H. apply andb_prop in H as [H Hb]. apply andb_prop in H as [_ Ha].
    by rewrite IHa, IHb.
  - destruct f; try done. intros H. simpl.
    rewrite forallb_forall in H. apply forallb_forall. intros a Ha.
    rewrite Forall_forall in IHargs.
    apply IHargs; [by apply list_elem_of_In | by apply H].
Qed.

Lemma statement_stores_nothing n :
  is_statement n = true -> is_binding n = false -> stores_nothing n = true.
Proof.
  destruct n as [l c v|l c v|l c x|l c a op b|l c x e|l c cond tb el eb
                |l c cond b|l c f ps b|l c rv|l c f args];
    try done; intros H _.
  - by apply expression_stores_nothing.
  - cbn [is_statement] in H. cbn [stores_nothing].
    apply andb_prop in H as [H _]. apply andb_prop in H as [H Hel].
    apply andb_prop in H as [Hc _].
    rewrite (expression_stores_nothing _ Hc). simpl.
    rewrite forallb_forall in Hel. apply forallb_forall. intros [c' b'] Hin.
    specialize (Hel _ Hin). apply andb_prop in Hel as [Hc' _].
    by apply expression_stores_nothing.
  - cbn [is_statement] in H. cbn [stores_nothing].
    apply andb_prop in H as [Hc _]. by apply expression_stores_nothing.
  - cbn [is_statement] in H. cbn [stores_nothing].
    destruct rv; [by apply expression_stores_nothing | done].
  - by apply expression_stores_nothing.
Qed.

(** X17. Of the statements the parser builds, only an assignment and a
    def change what the names of the running program are bound to:
    after any other parsed statement (an if, a while, a return, an
    expression) every frame the evaluation started with is as it
    was. *)
Theorem parsed_blocks_and_calls_change_no_frame
    py_float literal_eval fuel p n p' fuel' st st' :
  statement py_float literal_eval fuel p = POk n p' ->
  is_binding n = false ->
  env_stack st <> [] ->
  final_state (eval_stmt fuel' n st) = Some st' ->
  exists extra, env_stack st' = (extra ++ env_stack st)%list.
Proof.
  intros E Hb Hf Hfin.
  destruct (returns_statement _ _ _ _ _ _ E) as [_ Hn].
  pose proof (eval_stmt_extends fuel' n (statement_stores_nothing n Hn Hb) st Hf)
    as H.
  destruct (eval_stmt fuel' n st) as [v s|e s|]; [| |done];
    injection Hfin as ->; apply H.
Qed.

Lemma parsed_blocks_and_calls_change_no_frame_witness :
  exists extra,
    env_stack x_is_one = (extra ++ env_stack x_is_one)%list.
Proof.
  apply (parsed_blocks_and_calls_change_no_frame refuse_float refuse_literal
           4 {| tokens := if_with_assignment; pos := 0 |}
           (IfNode (Some 1) (Some 0) (IdentifierNode (Some 1) (Some 3) "x")
              [AssignmentNode (Some 2) (Some 4) "x"
                 (NumberNode (Some 2) (Some 8) (NInt 1))] [] None)
           {| tokens := if_with_assignment; pos := 10 |} 3 x_is_one x_is_one);
    [reflexivity | reflexivity | discriminate | reflexivity].
Defined.

Lemma expression_supported n : is_expression n = true -> supported n = true.
Proof.
  induction n as
    [l c v|l c v|l c x|l c a op b IHa IHb|l c x e IHe
    |l c cond tb el eb IHc IHtb IHel IHeb|l c cond b IHc IHb
    |l c f ps b IHb|l c rv IHrv|l c f args IHf IHargs]
    using node_induction; simpl; try done.
  - intros H. apply andb_prop in H as [H Hb]. apply andb_prop in H as [Ho Ha].
    by rewrite IHa, IHb, <- is_operator_known.
  - destruct f; try done. intros H. simpl.
    rewrite forallb_forall in H. apply forallb_forall. intros a Ha.
    rewrite Forall_forall in IHargs.
    apply IHargs; [by apply list_elem_of_In | by apply H].
Qed.

Lemma forallb_supported (Q : node -> bool) l :
  Forall (fun n => Q n = true -> supported n = true) l ->
  forallb Q l = true -> forallb supported l = true.
Proof.
  intros IH H. rewrite forallb_forall in H. apply forallb_forall.
  intros a Ha. rewrite Forall_forall in IH.
  apply IH; [by apply list_elem_of_In | by apply H].
Qed.

Lemma statement_supported n : is_statement n = true -> supported n = true.
Proof.
  induction n as
    [l c v|l c v|l c x|l c a op b IHa IHb|l c x e IHe
    |l c cond tb el eb IHc IHtb IHel IHeb|l c cond b IHc IHb
    |l c f ps b IHb|l c rv IHrv|l c f args IHf IHargs]
    using node_induction; try done.
  - apply expression_supported.
  - cbn [is_statement supported]. apply expression_supported.
  - cbn [is_statement supported]. intros H.
    apply andb_prop in H as [H Heb]. apply andb_prop in H as [H Hel].
    apply andb_prop in H as [Hc Htb].
    rewrite (expression_supported _ Hc), (forallb_supported _ _ IHtb Htb).
    simpl. apply andb_true_intro. split.
    + rewrite forallb_forall in Hel. apply forallb_forall. intros [c' b'] Hin.
      specialize (Hel _ Hin). apply andb_prop in Hel as [Hc' Hb'].
      rewrite Forall_forall in IHel.
      destruct (IHel (c', b') ltac:(by apply list_elem_of_In)) as [_ IHb'].
      simpl in IHb'.
      by rewrite (expression_supported _ Hc'), (forallb_supported _ _ IHb' Hb').
    + destruct eb; [by apply (forallb_supported is_statement) | done].
  - cbn [is_statement supported]. intros H. apply andb_prop in H as [Hc Hb].
    by rewrite (expression_supported _ Hc), (forallb_supported _ _ IHb Hb).
  - cbn [is_statement supported]. by apply forallb_supported.
  - cbn [is_statement supported]. destruct rv; [apply expression_supported | done].
  - apply expression_supported.
Qed.

(** X18. The generator translates every program the parser builds, and
    puts into the body of the module one node for each statement: a
    statement node of the host for every statement but a bare
    expression (a literal, a name, an operator on two operands), for
    which it puts the expression node itself. Of the expressions, only
    a call is wrapped into an expression statement. *)
Theorem generator_accepts_what_the_parser_builds
    py_float literal_eval fuel p prog p' fix_missing_locations :
  parse py_float literal_eval fuel p = POk prog p' ->
  exists module_body,
    Codegen.generate fix_missing_locations prog
    = inl (fix_missing_locations {| Codegen.py_body := module_body |})
    /\ Forall2 (fun n py => is_py_statement py = negb (is_bare_expression n))
         (body prog) module_body.
Proof.
  intros E. unfold parse, pbind in E.
  destruct (parse_loop py_float literal_eval fuel [] p) as [l p1| |] eqn:El;
    [|done..].
  injection E as <- <-.
  destruct (returns_parse_loop _ _ _ [] ltac:(done) _ _ _ El) as [_ H].
  unfold statements_shaped in H.
  assert (Hs : forallb supported l = true).
  { apply (forallb_supported is_statement); [|done].
    apply Forall_forall. intros n _. apply statement_supported. }
  unfold Codegen.generate. cbn [body].
  pose proof (statements_succeeds l
                ltac:(apply Forall_forall; intros; apply visit_succeeds)) as Hok.
  rewrite Hs in Hok.
  destruct (Codegen.statements Codegen._stmt_or_expr l) as [pys|] eqn:Ep;
    [|done].
  exists pys. split; [done | by apply statements_kind].
Qed.

Lemma generator_accepts_what_the_parser_builds_witness :
  exists module_body,
    Codegen.generate (fun m => m) bare_sum_program
    = inl {| Codegen.py_body := module_body |}
    /\ Forall2 (fun n py => is_py_statement py = negb (is_bare_expression n))
         (body bare_sum_program) module_body.
Proof.
  apply (generator_accepts_what_the_parser_builds refuse_float refuse_literal
           7 {| tokens := bare_sum; pos := 0 |} bare_sum_program
           {| tokens := bare_sum; pos := 4 |} (fun m => m)).
  reflexivity.
Defined.

Lemma visit_stmts_app l1 l2 t :
  Semantic.visit_stmts Semantic.visit (l1 ++ l2) t
  = Semantic.and_then (Semantic.visit_stmts Semantic.visit l1 t)
      (Semantic.visit_stmts Semantic.visit l2).
Proof.
  revert t. induction l1 as [|n rest IH]; intros t; simpl; [done|].
  destruct (Semantic.visit n t) as [t'|e]; simpl; [apply IH | done].
Qed.

Lemma exec_stmts_app ev l1 l2 st :
  exec_stmts ev (l1 ++ l2) st
  = (let! _ := exec_stmts ev l1 in exec_stmts ev l2) st.
Proof.
  revert st. induction l1 as [|n rest IH]; intros st; simpl; [done|].
  unfold bind. destruct (ev n st) as [v st'| |]; [|done..].
  rewrite IH. reflexivity.
Qed.

(** X19. The checker never looks at the name a call calls: a program
    that ends with a call is checked as the program that ends with the
    arguments of the call. At run time the call of a name that is
    unbound, or bound to None, raises the NameError of a function that
    is not found, with the line of the call, before any argument is
    evaluated. *)
Theorem undefined_function_passes_the_checker_and_fails_at_run_time
    p f ln c l' c' args fuel st :
  run fuel p = Normal tt st ->
  lookup_stack f (env_stack st) = None
  \/ lookup_stack f (env_stack st) = Some VNone ->
  Semantic.analyze
    {| body := body p ++ [CallNode ln c (IdentifierNode l' c' f) args] |}
  = Semantic.analyze {| body := body p ++ args |}
  /\ run (S fuel)
       {| body := body p ++ [CallNode ln c (IdentifierNode l' c' f) args] |}
     = Raised (NameError (FunctionNotFound f ln)) st.
Proof.
  intros Hrun Hf. split.
  - unfold Semantic.analyze, Semantic.visit_Program. cbn [body].
    destruct Semantic.initial_symtab as [t|e]; [|done]. cbn [Semantic.and_then].
    rewrite !visit_stmts_app.
    destruct (Semantic.visit_stmts Semantic.visit (body p) t) as [t'|e];
      [|done].
    cbn [Semantic.and_then Semantic.visit_stmts Semantic.visit].
    unfold Semantic.visit_CallNode. cbn [Semantic.and_then].
    by destruct (Semantic.visit_stmts Semantic.visit args t').
  - apply (run_more_fuel fuel 1) in Hrun; [|done].
    unfold run in *. cbn [body]. rewrite exec_stmts_app.
    rewrite (bind_Normal _ _ _ _ _ Hrun).
    cbn [exec_stmts]. unfold bind. simpl.
    unfold eval_CallNode, bind, resolve_callee.
    by destruct Hf as [-> | ->].
Qed.

Lemma undefined_function_passes_the_checker_and_fails_at_run_time_witness :
  Semantic.analyze
    {| body := [] ++ [CallNode (Some 1) (Some 0)
                        (IdentifierNode (Some 1) (Some 0) "f") []] |}
  = Semantic.analyze {| body := [] ++ [] |}
  /\ run 1
       {| body := [] ++ [CallNode (Some 1) (Some 0)
                           (IdentifierNode (Some 1) (Some 0) "f") []] |}
     = Raised (NameError (FunctionNotFound "f" (Some 1))) initial_state.
Proof.
  apply (undefined_function_passes_the_checker_and_fails_at_run_time
           {| body := [] |} "f" (Some 1) (Some 0) (Some 1) (Some 0) [] 0
           initial_state);
    [reflexivity | left; reflexivity].
Defined.

Lemma decls_list_empty l :
  Forall (fun n => decls n = ∅) l -> decls_list decls l = ∅.
Proof.
  unfold decls_list. induction 1 as [|n rest Hn _ IH]; [done|].
  simpl. rewrite Hn, IH. set_solver.
Qed.

Lemma expression_decls n : is_expression n = true -> decls n = ∅.
Proof.
  induction n as
    [l c v|l c v|l c x|l c a op b IHa IHb|l c x e IHe
    |l c cond tb el eb IHc IHtb IHel IHeb|l c cond b IHc IHb
    |l c f ps b IHb|l c rv IHrv|l c f args IHf IHargs]
    using node_induction; simpl; try done.
  - intros H. apply andb_prop in H as [H Hb]. apply andb_prop in H as [_ Ha].
    rewrite IHa, IHb by done. set_solver.
  - destruct f; try done. intros H.
    rewrite decls_list_empty; [set_solver|].
    rewrite forallb_forall in H. rewrite Forall_forall in IHargs.
    apply Forall_forall. intros a Ha.
    apply IHargs; [done | by apply H, list_elem_of_In].
Qed.

Lemma expression_visit e top below t' :
  is_expression e = true ->
  Semantic.visit e (top :: below) = inl t' -> t' = top :: below.
Proof.
  intros He Hv. destruct (visit_outcome e top below) as [H|(x & l & H)];
    [|congruence].
  rewrite H in Hv. injection Hv as <-. rewrite (expression_decls e He).
  f_equal. set_solver.
Qed.

Lemma visit_stmts_expressions args top below t' :
  forallb is_expression args = true ->
  Semantic.visit_stmts Semantic.visit args (top :: below) = inl t' ->
  t' = top :: below
  /\ Forall (fun a => is_expression a = true
                      /\ Semantic.visit a (top :: below) = inl (top :: below))
       args.
Proof.
  induction args as [|a rest IH]; simpl.
  - intros _ [= <-]. by split.
  - intros H. apply andb_prop in H as [Ha Hrest].
    destruct (Semantic.visit a (top :: below)) as [t1|] eqn:E; [|done].
    pose proof (expression_visit _ _ _ _ Ha E) as ->. simpl.
    intros Hv. destruct (IH Hrest Hv) as [-> Hall].
    split; [done|]. by constructor.
Qed.

Lemma agrees_same_stack t st st' :
  env_stack st' = env_stack st -> agrees t st -> agrees t st'.
Proof. intros H (g & Hs & Hg). exists g. by rewrite H. Qed.

Lemma py_results_are_no_functions :
  (forall fi ff a b v, num_arith fi ff a b = inl v -> no_function v)
  /\ (forall l r v, py_add l r = inl v -> no_function v)
  /\ (forall l r v, py_sub l r = inl v -> no_function v)
  /\ (forall l r v, py_mul l r = inl v -> no_function v)
  /\ (forall l r v, py_truediv l r = inl v -> no_function v)
  /\ (forall test l r v, py_order test l r = inl v -> no_function v).
Proof.
  assert (Hn : forall fi ff a b v, num_arith fi ff a b = inl v -> no_function v).
  { intros fi ff a b v. unfold num_arith.
    repeat case_match; intros; simplify_eq; done. }
  split; [exact Hn|].
  repeat split.
  - intros l r v. unfold py_add.
    repeat case_match; intros; simplify_eq; try done; by eapply Hn.
  - intros l r v. unfold py_sub.
    repeat case_match; intros; simplify_eq; try done; by eapply Hn.
  - intros l r v. unfold py_mul.
    repeat case_match; intros; simplify_eq; try done; by eapply Hn.
  - intros l r v. unfold py_truediv.
    repeat case_match; intros; simplify_eq; done.
  - intros test l r v. unfold py_order.
    repeat case_match; intros; simplify_eq; done.
Qed.

Lemma apply_operator_sound op l r t st :
  agrees t st -> sound t no_function (apply_operator op l r st).
Proof.
  intros Ha. destruct py_results_are_no_functions as (_ & Hadd & Hsub & Hmul & Hdiv & Hord).
  unfold apply_operator.
  repeat (match goal with |- context [if ?b then _ else _] => destruct b end;
          [first [ by split
                 | match goal with |- context [lift_host ?r] =>
                     destruct r eqn:E end;
                   [split; [done|]; eauto | done] ]|]).
  done.
Qed.

Lemma sound_bind {A B} t1 t2 (QA : A -> Prop) (QB : B -> Prop)
    (m : M A) (k : A -> M B) st :
  sound t1 QA (m st) ->
  (forall a st', agrees t1 st' -> QA a -> sound t2 QB (k a st')) ->
  sound t2 QB (bind m k st).
Proof.
  unfold bind. intros Hm Hk.
  destruct (m st) as [a st'|e st'|]; [|done|done].
  destruct Hm as [Ha Hq]. by apply Hk.
Qed.

Lemma eval_args_sound ev args t st :
  Forall (fun a => forall st', agrees t st' -> sound t no_function (ev a st'))
    args ->
  agrees t st -> sound t (fun _ => True) (eval_args ev args st).
Proof.
  intros Hall. revert st. induction Hall as [|a rest Ha _ IH]; intros st Hst.
  - by split.
  - cbn [eval_args].
    apply (sound_bind t t no_function); [by apply Ha|]. intros v st1 H1 _.
    apply (sound_bind t t (fun _ => True)); [by apply IH|]. intros vs st2 H2 _.
    by split.
Qed.

Lemma height_positive n : 1 <= height n.
Proof. destruct n; simpl; lia. Qed.

Lemma straight_expr_sound fuel :
  forall e top below st,
    is_expression e = true ->
    Semantic.visit e (top :: below) = inl (top :: below) ->
    agrees (top :: below) st ->
    height e <= fuel ->
    sound (top :: below) no_function (eval_stmt fuel e st).
Proof.
  induction fuel as [|fuel IH]; intros e top below st He Hv Hst Hh;
    [pose proof (height_positive e); lia|].
  destruct e as [l c v|l c v|l c x|l c a op b|l c x e|l c cond tb el eb
                |l c cond b|l c f ps b|l c rv|l c f args];
    try discriminate He; cbn [eval_stmt].
  - split; [done|]. by destruct v.
  - by split.
  - cbn [Semantic.visit] in Hv. unfold Semantic.visit_IdentifierNode in Hv.
    destruct (Semantic.lookup x (top :: below)) eqn:Hl; [|done].
    destruct Hst as (g & Hs & Hg & Hf). unfold eval_IdentifierNode.
    rewrite Hs. simpl. destruct (Hg x Hl) as [w Hw]. rewrite Hw.
    split; [by exists g | by eapply Hf].
  - cbn [is_expression] in He. apply andb_prop in He as [He Hb].
    apply andb_prop in He as [_ Ha].
    change (Semantic.visit (BinaryOpNode l c a op b) (top :: below))
      with (Semantic.and_then (Semantic.visit a (top :: below))
              (Semantic.visit b)) in Hv.
    destruct (Semantic.visit a (top :: below)) as [t1|] eqn:Ea; [|done].
    pose proof (expression_visit _ _ _ _ Ha Ea) as ->. simpl in Hv.
    unfold eval_BinaryOpNode. cbn [height] in Hh.
    apply (sound_bind (top :: below) _ no_function);
      [apply IH; [done..|lia]|].
    intros lv st1 H1 _.
    apply (sound_bind (top :: below) _ no_function);
      [apply IH; [done..|lia]|].
    intros rv st2 H2 _. by apply apply_operator_sound.
  - cbn [is_expression] in He. destruct f as [| |fl fc name| | | | | | |];
      try discriminate He.
    change (Semantic.visit (CallNode l c (IdentifierNode fl fc name) args)
              (top :: below))
      with (Semantic.visit_stmts Semantic.visit args (top :: below)) in Hv.
    destruct (visit_stmts_expressions _ _ _ _ He Hv) as [_ Hall].
    assert (Hargs : sound (top :: below) (fun _ => True)
                      (eval_args (eval_stmt fuel) args st)).
    { apply eval_args_sound; [|done].
      cbn [height] in Hh. apply le_S_n in Hh.
      pose proof (proj1 (list_max_le _ _) Hh) as Hhs.
      rewrite List.Forall_forall in Hhs.
      apply Forall_forall. intros a Ha st' Hst'.
      rewrite Forall_forall in Hall. destruct (Hall a Ha) as [Hea Hva].
      apply IH; [done..|]. apply Hhs, in_map. by apply list_elem_of_In. }
    unfold eval_CallNode, resolve_callee, bind.
    destruct Hst as (g & Hs & Hg & Hf). rewrite Hs. cbn [lookup_stack].
    destruct (g !! name) as [fn|] eqn:Hn; [|by intros ? ?].
    pose proof (Hf _ _ Hn) as Hno.
    destruct fn; try discriminate Hno; try (by intros ? ?);
      destruct (eval_args (eval_stmt fuel) args st) as [vs st2|e st2|];
      try done; try (by intros ? ?).
    destruct Hargs as [H2 _]. split; [|done].
    by eapply agrees_same_stack; [|exact H2].
Qed.

Lemma lookup_insert_table x y top below :
  Semantic.lookup y (({[ x ]} ∪ top) :: below) = true ->
  y = x \/ Semantic.lookup y (top :: below) = true.
Proof.
  intros H. apply lookup_true in H as (s & Hs & Hy).
  apply elem_of_cons in Hs as [->|Hs].
  - apply elem_of_union in Hy as [Hy|Hy]; [left; set_solver|].
    right. apply lookup_true. exists top. split; [apply elem_of_cons; by left|done].
  - right. apply lookup_true. exists s. split; [apply elem_of_cons; by right|done].
Qed.

Lemma straight_stmt_sound fuel s top below t' st :
  is_straight s = true ->
  Semantic.visit s (top :: below) = inl t' ->
  agrees (top :: below) st ->
  height s <= fuel ->
  sound t' (fun _ => True) (eval_stmt fuel s st)
  /\ exists top', t' = top' :: below.
Proof.
  intros Hs Hv Hst Hh.
  assert (Hexpr : is_expression s = true ->
            sound t' (fun _ => True) (eval_stmt fuel s st)
            /\ exists top', t' = top' :: below).
  { intros He. pose proof (expression_visit _ _ _ _ He Hv) as ->.
    split; [|by exists top].
    pose proof (straight_expr_sound fuel s top below st He Hv Hst Hh) as H.
    destruct (eval_stmt fuel s st); try done. by destruct H. }
  destruct s as [l c v|l c v|l c x|l c a op b|l c x e|l c cond tb el eb
                |l c cond b|l c f ps b|l c rv|l c f args];
    try (by apply Hexpr); try discriminate Hs.
  cbn [is_straight] in Hs.
  change (Semantic.visit (AssignmentNode l c x e) (top :: below))
    with (Semantic.and_then (Semantic.visit e (top :: below))
            (Semantic.insert x)) in Hv.
  destruct (Semantic.visit e (top :: below)) as [t1|] eqn:Ee; [|done].
  pose proof (expression_visit _ _ _ _ Hs Ee) as ->. simpl in Hv.
  injection Hv as <-. split; [|by eexists].
  cbn [height] in Hh. destruct fuel as [|fuel]; [lia|]. cbn [eval_stmt].
  unfold eval_AssignmentNode.
  apply (sound_bind (top :: below) _ no_function);
    [apply straight_expr_sound; [done..|lia]|].
  intros v st1 (g & Hg & Hb & Hf) Hno. unfold bind, store, ret. rewrite Hg.
  split; [|done]. exists (<[x := v]> g). split; [done|]. split.
  - intros y Hy. apply lookup_insert_table in Hy as [->|Hy].
    + rewrite lookup_insert_eq. by eexists.
    + destruct (decide (y = x)) as [->|Hne];
        [rewrite lookup_insert_eq; by eexists|].
      rewrite lookup_insert_ne by done. by apply Hb.
  - intros y w. destruct (decide (y = x)) as [->|Hne].
    + rewrite lookup_insert_eq. by intros [= <-].
    + rewrite lookup_insert_ne by done. apply Hf.
Qed.

Lemma straight_stmts_sound fuel l :
  forall top below t' st,
    forallb is_straight l = true ->
    Semantic.visit_stmts Semantic.visit l (top :: below) = inl t' ->
    agrees (top :: below) st ->
    list_max (map height l) <= fuel ->
    sound t' (fun _ => True) (exec_stmts (eval_stmt fuel) l st).
Proof.
  induction l as [|s rest IH]; intros top below t' st Hl Hv Hst Hh.
  - injection Hv as <-. by split.
  - cbn [forallb] in Hl. apply andb_prop in Hl as [Hs Hrest].
    cbn [Semantic.visit_stmts] in Hv.
    destruct (Semantic.visit s (top :: below)) as [t1|] eqn:Es; [|done].
    simpl in Hv.
    cbn [map list_max fold_right] in Hh.
    fold (list_max (map height rest)) in Hh.
    destruct (straight_stmt_sound fuel s top below t1 st Hs Es Hst
                ltac:(lia))
      as [H1 [top1 ->]].
    cbn [exec_stmts].
    apply (sound_bind (top1 :: below) _ (fun _ => True)); [exact H1|].
    intros _ st1 Hst1 _. eapply IH; [done..|lia].
Qed.

(** X20. On programs without blocks and definitions the checker keeps
    its promise: when every statement is an expression of the grammar
    or the assignment of one, and the checker accepts the program, the
    run ends, with the single global frame or by an exception, and the
    exception is never the NameError of a name that is not found. *)
Theorem accepted_straight_line_program_finds_its_names p :
  forallb is_straight (body p) = true ->
  Semantic.analyze p = Semantic.Accepted ->
  (forall fuel, list_max (map height (body p)) <= fuel ->
     (exists g out fid, run fuel p = Normal tt (State [g] out fid))
     \/ (exists e st, run fuel p = Raised e st /\ not_NameNotFound e))
  /\ (forall fuel x l st,
        run fuel p <> Raised (NameError (NameNotFound x l)) st).
Proof.
  intros Hp Hacc. unfold Semantic.analyze, Semantic.visit_Program in Hacc.
  unfold Semantic.initial_symtab, Semantic.new_symtab in Hacc.
  cbn [Semantic.insert Semantic.and_then] in Hacc.
  destruct (Semantic.visit_stmts Semantic.visit (body p) [{["print"]} ∪ ∅])
    as [t'|e] eqn:Ev; [|destruct e; discriminate Hacc].
  assert (Hinit : agrees [{["print"]} ∪ ∅] initial_state).
  { exists global_env. split; [done|]. split.
    - intros x Hx. apply lookup_true in Hx as (s & Hs & Hx).
      apply list_elem_of_singleton in Hs as ->.
      assert (x = "print") as -> by set_solver. by eexists.
    - intros x v. unfold global_env.
      destruct (decide (x = "print")) as [->|Hne].
      + rewrite lookup_singleton_eq. by intros [= <-].
      + by rewrite lookup_singleton_ne. }
  assert (Hends : forall fuel, list_max (map height (body p)) <= fuel ->
            sound t' (fun _ => True) (run fuel p)).
  { intros fuel Hh.
    exact (straight_stmts_sound fuel (body p) _ _ _ _ Hp Ev Hinit Hh). }
  split.
  - intros fuel Hh. specialize (Hends fuel Hh).
    destruct (run fuel p) as [[] st|e st|]; [left|right|done].
    + destruct Hends as [(g & Hg & _) _]. destruct st as [stack out fid].
      simpl in Hg. subst stack. by exists g, out, fid.
    + by exists e, st.
  - intros fuel x l st Hr.
    apply (run_more_fuel fuel (list_max (map height (body p)))) in Hr; [|done].
    specialize (Hends (list_max (map height (body p)) + fuel) ltac:(lia)).
    rewrite Hr in Hends. by apply (Hends x l).
Qed.

Lemma accepted_straight_line_program_finds_its_names_witness :
  (forall fuel, list_max (map height (body assign_and_print)) <= fuel ->
     (exists g out fid,
        run fuel assign_and_print = Normal tt (State [g] out fid))
     \/ (exists e st,
           run fuel assign_and_print = Raised e st /\ not_NameNotFound e))
  /\ (forall fuel x l st,
        run fuel assign_and_print
        <> Raised (NameError (NameNotFound x l)) st).
Proof.
  apply (accepted_straight_line_program_finds_its_names assign_and_print);
    reflexivity.
Defined.

End PipelineFacts.
